(** * Verification of the multiprocessing PPO trainer

    Shallow embedding of [acc_verifai/metadrive/multiprocessing_ppo.py]:
    the GAE engine ([compute_gae]), the rollout loop of [worker_fn], the
    minibatch schedule and advantage normalisation of [ppo_update], and the
    seeding, start-method set-up and episode statistics of [main].

    Numbers.  numpy and torch compute on binary floating-point numbers.  The
    GAE engine and the episode statistics use only ring operations and the
    conversion of a number to an integer, and are modelled over an
    arbitrary ring with such a conversion (instantiated at [Z] and at the
    rational numbers [Qc] to run them); the log-probabilities and the
    normalisation need [ln], [exp], [sqrt] and the order, and are modelled
    over the real numbers of the Standard Library.  Rounding and the range
    of the machine numbers are not modelled: a floating-point array holds
    exact numbers. *)

From Stdlib Require Import ZArith Ring Reals Lra QArith Qcanon.
From Equations Require Import Equations.
From stdpp Require Import base option list gmap.

(** ** numpy arrays as lists *)

Module Np.

(** The dtype of a numeric array, as far as the values it can hold go: a
    floating-point dtype ([float32], [float64]) or a signed integer dtype
    ([int64]).  Boolean arrays are kept apart, as lists of [bool]. *)
Inductive dtype := float_ | int_.

(** [np.result_type]: the dtype of the result of an arithmetic operation
    on arrays of dtypes [a] and [b]. *)
Definition result_type (a b : dtype) : dtype :=
  match a, b with
  | int_, int_ => int_
  | _, _ => float_
  end.

Section Arrays.
Context {A : Type}.

(** [np.zeros_like(a)]: an array of the shape of [a] filled with [zero]. *)
Definition zeros_like (zero : A) (a : list A) : list A :=
  replicate (length a) zero.

(** [a[1:]]. *)
Definition tail_slice (a : list A) : list A := drop 1 a.

(** [a[start:stop]] for non-negative bounds (out-of-range bounds are
    clipped, as Python slices are). *)
Definition slice (a : list A) (start stop : nat) : list A :=
  take (stop - start) (drop start a).

(** [np.append(a, x)] for a scalar [x]. *)
Definition append (a : list A) (x : A) : list A := a ++ [x].

(** [a[t]] for [0 <= t]: [None] stands for the [IndexError]. *)
Definition getitem (a : list A) (t : nat) : option A := a !! t.

(** [a[t] = x] for [0 <= t]: [None] stands for the [IndexError]. *)
Definition setitem (a : list A) (t : nat) (x : A) : option (list A) :=
  if decide (t < length a) then Some (<[t := x]> a) else None.

(** An elementwise binary operation on two one-dimensional arrays, with
    numpy's broadcasting: the lengths must agree, or one of them is 1 and
    that operand is stretched; otherwise numpy raises [ValueError]. *)
Definition broadcast2 (f : A -> A -> A) (a b : list A) : option (list A) :=
  if decide (length a = length b) then Some (zip_with f a b)
  else match a, b with
       | [x], _ => Some (f x <$> b)
       | _, [y] => Some ((fun x => f x y) <$> a)
       | _, _ => None
       end.

(** [c * a] for a Python scalar [c]. *)
Definition scalar_op (f : A -> A -> A) (c : A) (a : list A) : list A :=
  f c <$> a.
End Arrays.
End Np.

(** ** The GAE engine *)

Section GAE.
Context {F : Type} (rO rI : F) (radd rmul rsub : F -> F -> F).

(** The integer part of a number, toward zero: what the conversion of a
    floating-point number to a signed integer yields. *)
Context (trunc : F -> F).

Local Infix "+" := radd.
Local Infix "*" := rmul.
Local Infix "-" := rsub.

(** The value of a numpy boolean in arithmetic: [True] is 1, [False] 0. *)
Definition of_bool (b : bool) : F := if b then rI else rO.

(** The conversion that [a[t] = x] applies to [x] for an array [a] of dtype
    [dt]: a floating-point array takes the number as it is, an integer
    array its integer part. *)
Definition astype (dt : Np.dtype) (x : F) : F :=
  match dt with
  | Np.float_ => x
  | Np.int_ => trunc x
  end.

(** The body of [for t in reversed(range(num_steps))], run over the list
    of indices [ts]; the state is [(last_gae_lam, advantages)], and [dt] is
    the dtype of [advantages].  [last_gae_lam] is a Python float: the
    conversion applies to what is stored, not to what the loop carries. *)
Fixpoint gae_loop (dt : Np.dtype) (deltas next_non_terminal : list F)
    (gamma gae_lambda : F) (ts : list nat) (st : F * list F)
    : option (F * list F) :=
  match ts with
  | [] => Some st
  | t :: ts' =>
      let '(last_gae_lam, advantages) := st in
      d ← Np.getitem deltas t;
      n ← Np.getitem next_non_terminal t;
      let last_gae_lam := d + gamma * gae_lambda * n * last_gae_lam in
      advantages ← Np.setitem advantages t (astype dt last_gae_lam);
      gae_loop dt deltas next_non_terminal gamma gae_lambda ts'
               (last_gae_lam, advantages)
  end.

(** [compute_gae] for a [rewards] array of dtype [dt]; [None] stands for a
    raised exception.  [np.zeros_like(rewards)] gives [advantages] the dtype
    of [rewards].  [gamma], [gae_lambda], [last_value] and the constants
    [1.0] and [0.0] are Python floats, so [next_values],
    [next_non_terminal] and [deltas] are floating-point arrays whatever the
    dtypes of the arguments; [returns] has the result type of [advantages]
    and [values], which changes no number. *)
Definition compute_gae (dt : Np.dtype) (rewards values : list F)
    (dones : list bool) (last_value : F) (last_done : bool)
    (gamma gae_lambda : F) : option (list F * list F) :=
  let advantages := Np.zeros_like rO rewards in
  let last_gae_lam := rO in
  let num_steps := length rewards in
  let next_values :=
    Np.append (Np.tail_slice values)
              (if negb last_done then last_value else rO) in
  let next_non_terminal := (fun d => rI - of_bool d) <$> dones in
  gnv_nnt ← Np.broadcast2 rmul (Np.scalar_op rmul gamma next_values)
                           next_non_terminal;
  r_plus ← Np.broadcast2 radd rewards gnv_nnt;
  deltas ← Np.broadcast2 rsub r_plus values;
  '(_, advantages) ← gae_loop dt deltas next_non_terminal gamma gae_lambda
                        (reverse (seq 0 num_steps)) (last_gae_lam, advantages);
  returns ← Np.broadcast2 radd advantages values;
  Some (advantages, returns).

(** *** The recursion as the specification words it *)

Section Spec.
Variables (rewards values : list F) (dones : list bool).
Variables (last_value : F) (last_done : bool) (gamma gae_lambda : F).

Definition spec_next_value (t : nat) : F :=
  if decide (S t < length values) then nth (S t) values rO
  else if last_done then rO else last_value.

Definition spec_next_non_terminal (t : nat) : F :=
  rI - of_bool (nth t dones false).

Definition spec_delta (t : nat) : F :=
  nth t rewards rO
  + gamma * spec_next_value t * spec_next_non_terminal t
  - nth t values rO.
End Spec.
End GAE.


(** ** [compute_gae] on a store of arrays

    numpy arrays are objects: the arguments of [compute_gae] are
    references, every numpy operation allocates its result, and
    [advantages[t] = ...] writes into an array in place.  The store maps
    references to arrays; a computation takes a store and yields a result
    and a store, or [None] for a raised exception.  (Nothing is ever
    freed: the temporaries stay in the store.) *)

Section Store.
Context {F : Type} (rO rI : F) (radd rmul rsub : F -> F -> F).
Context (trunc : F -> F).

Inductive ndarray :=
| NumArray (dt : Np.dtype) (a : list F)
| BoolArray (a : list bool).

Definition St (A : Type) : Type :=
  gmap positive ndarray -> option (A * gmap positive ndarray).

Definition st_ret {A} (x : A) : St A := fun h => Some (x, h).

Definition st_bind {A B} (k : A -> St B) (m : St A) : St B :=
  fun h => match m h with
           | Some (x, h') => k x h'
           | None => None
           end.

Definition st_lift {A} (o : option A) : St A :=
  fun h => match o with
           | Some x => Some (x, h)
           | None => None
           end.

Global Instance St_ret : MRet St := @st_ret.
Global Instance St_bind : MBind St := @st_bind.

(** A new array object. *)
Definition alloc (a : ndarray) : St positive :=
  fun h => let l := fresh (dom h) in Some (l, <[l := a]> h).

(** The dtype and the contents of a numeric array, the contents of a
    boolean array. *)
Definition read_num (l : positive) : St (Np.dtype * list F) :=
  fun h => match h !! l with
           | Some (NumArray dt a) => Some ((dt, a), h)
           | _ => None
           end.

Definition read_bool (l : positive) : St (list bool) :=
  fun h => match h !! l with
           | Some (BoolArray a) => Some (a, h)
           | _ => None
           end.

(** [a[t] = x], in place: [x] is converted to the dtype of [a]. *)
Definition store_item (l : positive) (t : nat) (x : F) : St unit :=
  fun h => match h !! l with
           | Some (NumArray dt a) =>
               match Np.setitem a t (astype trunc dt x) with
               | Some a' => Some ((), <[l := NumArray dt a']> h)
               | None => None
               end
           | _ => None
           end.

(** [a[t]]. *)
Definition load_item (l : positive) (t : nat) : St F :=
  '(_, a) ← read_num l; st_lift (Np.getitem a t).

(** [a op b] on two arrays: a new array, of the result type of the two
    dtypes. *)
Definition np_binop (f : F -> F -> F) (l1 l2 : positive) : St positive :=
  '(dt1, a) ← read_num l1;
  '(dt2, b) ← read_num l2;
  c ← st_lift (Np.broadcast2 f a b);
  alloc (NumArray (Np.result_type dt1 dt2) c).

(** [c op a] for a Python float [c]: a new floating-point array. *)
Definition np_scalar_op (f : F -> F -> F) (c : F) (l : positive)
    : St positive :=
  '(_, a) ← read_num l; alloc (NumArray Np.float_ (Np.scalar_op f c a)).

(** The loop of [compute_gae] over the indices [ts]. *)
Fixpoint gae_loop_st (deltas next_non_terminal advantages : positive)
    (gamma gae_lambda : F) (ts : list nat) (last_gae_lam : F) : St F :=
  match ts with
  | [] => mret last_gae_lam
  | t :: ts' =>
      d ← load_item deltas t;
      n ← load_item next_non_terminal t;
      let last_gae_lam :=
        radd d (rmul (rmul (rmul gamma gae_lambda) n) last_gae_lam) in
      _ ← store_item advantages t last_gae_lam;
      gae_loop_st deltas next_non_terminal advantages gamma gae_lambda ts'
                  last_gae_lam
  end.

(** [compute_gae] on references. *)
Definition compute_gae_st (rewards values dones : positive)
    (last_value : F) (last_done : bool) (gamma gae_lambda : F)
    : St (positive * positive) :=
  '(dt, r) ← read_num rewards;
  advantages ← alloc (NumArray dt (Np.zeros_like rO r));
  let last_gae_lam := rO in
  let num_steps := length r in
  '(_, v) ← read_num values;
  next_values ←
    alloc (NumArray Np.float_
             (Np.append (Np.tail_slice v)
                        (if negb last_done then last_value else rO)));
  d ← read_bool dones;
  next_non_terminal ←
    alloc (NumArray Np.float_ ((fun d => rsub rI (of_bool rO rI d)) <$> d));
  gnv ← np_scalar_op rmul gamma next_values;
  gnv_nnt ← np_binop rmul gnv next_non_terminal;
  r_plus ← np_binop radd rewards gnv_nnt;
  deltas ← np_binop rsub r_plus values;
  _ ← gae_loop_st deltas next_non_terminal advantages gamma gae_lambda
                  (reverse (seq 0 num_steps)) last_gae_lam;
  returns ← np_binop radd advantages values;
  mret (advantages, returns).
End Store.

(** ** The integer part in the number types of the instances *)

(** An integer is its own integer part. *)
Definition Ztrunc (x : Z) : Z := x.

(** The integer part of a rational number, toward zero. *)
Definition Qctrunc (x : Qc) : Qc :=
  Q2Qc (inject_Z (Z.quot (Qnum x) (Zpos (Qden x)))).

(** The integer part of a real number, toward zero. *)
Definition Rtrunc (x : R) : R :=
  if Rle_dec 0 x then IZR (Int_part x) else Ropp (IZR (Int_part (Ropp x))).

(** ** Python built-ins *)

(** [range(n)] for a Python integer [n]: empty when [n <= 0]. *)
Definition range (n : Z) : list Z := Z.of_nat <$> seq 0 (Z.to_nat n).

(** [range(0, stop, step)] over a non-negative [stop]: [ValueError] for a
    zero step, empty for a negative one, otherwise [0, step, 2*step, ...]
    below [stop]. *)
Definition range_step (stop : nat) (step : Z) : option (list nat) :=
  if decide (step = 0)%Z then None
  else if decide (step < 0)%Z then Some []
  else
    let s := Z.to_nat step in
    Some ((fun k => k * s) <$> seq 0 ((stop + s - 1) `div` s)).

(** [collections.deque(maxlen=...)]: [append] drops from the left what no
    longer fits. *)
Definition deque_append {A} (maxlen : nat) (d : list A) (x : A) : list A :=
  let d' := d ++ [x] in drop (length d' - maxlen) d'.

(** Exceptions and results of the set-up code. *)
Inductive exn := RuntimeError | ValueError | ZeroDivisionError.

Global Instance exn_eq_dec : EqDecision exn.
Proof. solve_decision. Defined.

Inductive result (A : Type) :=
| Ok (a : A)
| Raise (e : exn).
Arguments Ok {A} a.
Arguments Raise {A} e.

Definition result_bind {A B} (m : result A) (k : A -> result B) : result B :=
  match m with
  | Ok a => k a
  | Raise e => Raise e
  end.

(** [with contextlib.suppress(e): body]: an exception [e] raised by the
    body ends the block normally, in the state the body left; any other
    exception propagates. *)
Definition suppress {A S} (e : exn) (body : S -> result A * S) (s : S)
    : result unit * S :=
  match body s with
  | (Ok _, s') => (Ok (), s')
  | (Raise e', s') => if decide (e' = e) then (Ok (), s') else (Raise e', s')
  end.

(** ** [main]: configuration, start method and seeds *)

(** The integer fields of [Args]. *)
Record Args := {
  num_workers : Z;
  total_timesteps : Z;
  steps_per_worker : Z;
  num_epochs : Z;
  minibatch_size : Z;
  seed : Z;
}.

(** The start method of the [multiprocessing] context: [None] until it is
    set. *)
Inductive start_method := Fork | Spawn | Forkserver.

Definition mp_context := option start_method.

(** [mp.set_start_method(method)] (with [force=False]): raises
    [RuntimeError] when the context has already been set, and then leaves
    it as it is. *)
Definition set_start_method (method : start_method) (ctx : mp_context)
    : result unit * mp_context :=
  match ctx with
  | Some _ => (Raise RuntimeError, ctx)
  | None => (Ok (), Some method)
  end.

(** Lines 287-289 of [main], followed by the rest of [main] ([training]),
    which runs in the context the block left. *)
Definition setup_start_method (ctx : mp_context) : result unit * mp_context :=
  suppress RuntimeError (set_start_method Spawn) ctx.

Definition main_from_start_method {A} (training : mp_context -> result A)
    (ctx : mp_context) : result A :=
  let '(r, ctx') := setup_start_method ctx in
  result_bind r (fun _ => training ctx').

(** The arguments [main] passes to the process of worker [i] in iteration
    [update] (the state dict, the queue and the scenic file left out). *)
Record worker_args := {
  wa_worker_id : Z;
  wa_steps_per_worker : Z;
  wa_seed : Z;
}.

Definition spawn_args (args : Args) (update : Z) : list worker_args :=
  (fun i => {| wa_worker_id := i;
               wa_steps_per_worker := steps_per_worker args;
               wa_seed := seed args + update * num_workers args |})
  <$> range (num_workers args).

(** [worker_seed = seed + worker_id], the seed of [env.reset] in
    [worker_fn]. *)
Definition worker_seed (wa : worker_args) : Z := wa_seed wa + wa_worker_id wa.

(** The environment seeds of the workers of iteration [update]. *)
Definition env_seeds (args : Args) (update : Z) : list Z :=
  worker_seed <$> spawn_args args update.

(** ** [ppo_update]: the minibatch schedule *)

(** The minibatches of one epoch: [indices[start:start + minibatch_size]]
    for [start in range(0, batch_size, minibatch_size)]. *)
Definition epoch_minibatches (batch_size : nat) (minibatch_size : Z)
    (indices : list nat) : option (list (list nat)) :=
  starts ← range_step batch_size minibatch_size;
  Some ((fun start => Np.slice indices start (start + Z.to_nat minibatch_size))
        <$> (starts : list nat)).

Section Schedule.
Context {Rng : Type}.
(** [rng.permutation(n)] of a numpy [Generator]. *)
Variable rng_permutation : Rng -> nat -> list nat * Rng.

(** [for _ in range(num_epochs)]: each epoch draws its permutation from
    the generator, which moves on. *)
Fixpoint epochs_minibatches (epochs : nat) (batch_size : nat)
    (minibatch_size : Z) (rng : Rng) : option (list (list (list nat)) * Rng) :=
  match epochs with
  | 0 => Some ([], rng)
  | S epochs' =>
      let '(indices, rng) := rng_permutation rng batch_size in
      mbs ← epoch_minibatches batch_size minibatch_size indices;
      '(rest, rng) ← epochs_minibatches epochs' batch_size minibatch_size rng;
      Some (mbs :: rest, rng)
  end.

(** The generator after [e] epochs: one draw per epoch. *)
Fixpoint rng_after (e : nat) (batch_size : nat) (rng : Rng) : Rng :=
  match e with
  | 0 => rng
  | S e' => rng_after e' batch_size (rng_permutation rng batch_size).2
  end.

Definition ppo_schedule (num_epochs : Z) (batch_size : nat)
    (minibatch_size : Z) (rng : Rng) : option (list (list (list nat)) * Rng) :=
  epochs_minibatches (Z.to_nat num_epochs) batch_size minibatch_size rng.
End Schedule.

(** ** [main]: episode statistics *)

Section EpisodeStatistics.
Context {F : Type} (rO : F) (radd : F -> F -> F).
Local Infix "+" := radd.

Record stats := {
  episode_rewards : list F;
  episode_lengths : list nat;
  total_episodes : nat;
}.

(** The state of the scan of lines 382-392: the two accumulators and the
    statistics. *)
Record scan_state := {
  current_episode_reward : F;
  current_episode_length : nat;
  scan_stats : stats;
}.

(** The body of [for reward, done in zip(...)]. *)
Definition scan_step (st : scan_state) (rd : F * bool) : scan_state :=
  let '(reward, done) := rd in
  let current_episode_reward := current_episode_reward st + reward in
  let current_episode_length := (current_episode_length st + 1)%nat in
  if done then
    {| current_episode_reward := rO;
       current_episode_length := 0;
       scan_stats :=
         {| episode_rewards :=
              deque_append 100 (episode_rewards (scan_stats st))
                           current_episode_reward;
            episode_lengths :=
              deque_append 100 (episode_lengths (scan_stats st))
                           current_episode_length;
            total_episodes := (total_episodes (scan_stats st) + 1)%nat |} |}
  else
    {| current_episode_reward := current_episode_reward;
       current_episode_length := current_episode_length;
       scan_stats := scan_stats st |}.

(** Lines 382-392: the accumulators are set to zero, then the trajectory
    is scanned; [zip(..., strict=False)] stops at the shorter array. *)
Definition scan_trajectory (s : stats) (rewards : list F) (dones : list bool)
    : stats :=
  scan_stats
    (foldl scan_step
           {| current_episode_reward := rO;
              current_episode_length := 0;
              scan_stats := s |}
           (zip rewards dones)).

(** The episodes that a scan started with the accumulators at [cr] and
    [cl] records, in the order in which it appends them. *)
Fixpoint scan_records (cr : F) (cl : nat) (l : list (F * bool))
    : list (F * nat) :=
  match l with
  | [] => []
  | (reward, done) :: l' =>
      if done then (cr + reward, (cl + 1)%nat) :: scan_records rO 0 l'
      else scan_records (cr + reward) (cl + 1)%nat l'
  end.

(** Appending a list of records to the statistics. *)
Definition record_all (s : stats) (recs : list (F * nat)) : stats :=
  {| episode_rewards := foldl (deque_append 100) (episode_rewards s) recs.*1;
     episode_lengths := foldl (deque_append 100) (episode_lengths s) recs.*2;
     total_episodes := (total_episodes s + length recs)%nat |}.

(** *** The episodes of a trajectory, as the claim words them *)

(** The index at which the episode that contains step [k] starts: the
    index after the previous done flag, or 0. *)
Fixpoint episode_start (dones : list bool) (k : nat) : nat :=
  match k with
  | 0 => 0
  | S j => if nth j dones false then S j else episode_start dones j
  end.

(** The sum of [rewards[i..k]], both ends included, summed in index
    order. *)
Definition reward_sum (rewards : list F) (i k : nat) : F :=
  foldl radd rO (Np.slice rewards i (S k)).

(** The number of done flags before index [k]. *)
Definition dones_before (dones : list bool) (k : nat) : nat :=
  length (filter (fun d => d = true) (take k dones)).
End EpisodeStatistics.


(** ** [worker_fn]: the rollout, and the batch [main] builds from it *)

Section Worker.
Context {F : Type} (rO rI : F) (radd rmul rsub : F -> F -> F).
Context (trunc : F -> F).
Context {Env Obs Act Params Gen : Type}.

(** The environment contract: [env.reset(seed=s)], [env.reset()] and
    [env.step(action)], which yields the next observation, the reward and
    the flags [terminated] and [truncated]. *)
Variable env_reset_seed : Env -> Z -> Obs * Env.
Variable env_reset : Env -> Obs * Env.
Variable env_step : Env -> Act -> (Obs * F * bool * bool) * Env.

(** Lines 139-150: the local model samples an action for an observation
    and yields it with its log-probability and the value estimate; the
    random generator of the process moves on. *)
Variable sample_action : Params -> Obs -> Gen -> (Act * F * F) * Gen.

(** Lines 167-170: the value estimate of the local model. *)
Variable value_estimate : Params -> Obs -> F.

(** The variables of the rollout loop; [rs_done] is [None] as long as
    [done] has not been assigned. *)
Record rollout_state := {
  rs_env : Env;
  rs_gen : Gen;
  rs_obs : Obs;
  rs_current_step : Z;
  rs_done : option bool;
  rs_observations : list Obs;
  rs_actions : list Act;
  rs_log_probs : list F;
  rs_rewards : list F;
  rs_dones : list bool;
  rs_values : list F;
}.

(** The arrays of a rollout state all hold [n] entries. *)
Definition rollout_lengths (st : rollout_state) (n : nat) : Prop :=
  length (rs_observations st) = n /\ length (rs_actions st) = n
  /\ length (rs_log_probs st) = n /\ length (rs_rewards st) = n
  /\ length (rs_dones st) = n /\ length (rs_values st) = n.

(** The arrays of [st] begin the arrays of [st']. *)
Definition rollout_extends (st st' : rollout_state) : Prop :=
  rs_observations st `prefix_of` rs_observations st'
  /\ rs_actions st `prefix_of` rs_actions st'
  /\ rs_log_probs st `prefix_of` rs_log_probs st'
  /\ rs_rewards st `prefix_of` rs_rewards st'
  /\ rs_dones st `prefix_of` rs_dones st'
  /\ rs_values st `prefix_of` rs_values st'.

(** The body of [while current_step < steps_per_worker] (lines 139-165). *)
Definition rollout_body (params : Params) (st : rollout_state)
    : rollout_state :=
  let '((action, log_prob, value), gen) :=
    sample_action params (rs_obs st) (rs_gen st) in
  let '((next_obs, reward, terminated, truncated), env) :=
    env_step (rs_env st) action in
  let done := terminated || truncated in
  let '(obs, env) := if done then env_reset env else (next_obs, env) in
  {| rs_env := env;
     rs_gen := gen;
     rs_obs := obs;
     rs_current_step := rs_current_step st + 1;
     rs_done := Some done;
     rs_observations := rs_observations st ++ [rs_obs st];
     rs_actions := rs_actions st ++ [action];
     rs_log_probs := rs_log_probs st ++ [log_prob];
     rs_rewards := rs_rewards st ++ [reward];
     rs_dones := rs_dones st ++ [done];
     rs_values := rs_values st ++ [value] |}.

Lemma rollout_body_step params st :
  rs_current_step (rollout_body params st) = (rs_current_step st + 1)%Z.
Proof.
  unfold rollout_body.
  destruct (sample_action _ _ _) as [[[action log_prob] value] gen].
  destruct (env_step _ _) as [[[[next_obs reward] terminated] truncated] env].
  by destruct (if terminated || truncated then _ else _).
Qed.

(** The loop; it ends because [steps_per_worker - current_step] shrinks. *)
Equations? rollout_loop (params : Params) (steps_per_worker : Z)
    (st : rollout_state) : rollout_state
    by wf (Z.to_nat (steps_per_worker - rs_current_step st)) lt :=
  rollout_loop params steps_per_worker st
    with decide (rs_current_step st < steps_per_worker)%Z => {
    | left _ => rollout_loop params steps_per_worker (rollout_body params st);
    | right _ => st }.
Proof. rewrite rollout_body_step. lia. Qed.

(** What a worker puts on the queue. *)
Record trajectory_data := {
  observations : list Obs;
  actions : list Act;
  log_probs : list F;
  rewards : list F;
  dones : list bool;
  values : list F;
  last_value : F;
  last_done : bool;
}.

(** The arrays of a trajectory all hold [n] entries. *)
Definition trajectory_lengths (data : trajectory_data) (n : nat)
    : Prop :=
  length (observations data) = n /\ length (actions data) = n
  /\ length (log_probs data) = n /\ length (rewards data) = n
  /\ length (dones data) = n /\ length (values data) = n.

(** Lines 125-183 of [worker_fn]: the rollout in the environment [env] that
    the seeded reset of line 123 left, with the random generator [gen0] of
    the process.  [None]: the worker raises (the [NameError] of [done] when
    the loop body never ran) and puts nothing on the queue. *)
Definition worker_rollout (steps_per_worker : Z) (model_state_dict : Params)
    (env : Env) (gen0 : Gen) : option trajectory_data :=
  let '(obs, env) := env_reset env in
  let st :=
    rollout_loop model_state_dict steps_per_worker
      {| rs_env := env; rs_gen := gen0; rs_obs := obs;
         rs_current_step := 0; rs_done := None;
         rs_observations := []; rs_actions := []; rs_log_probs := [];
         rs_rewards := []; rs_dones := []; rs_values := [] |} in
  let last_value := value_estimate model_state_dict (rs_obs st) in
  done ← rs_done st;
  Some {| observations := rs_observations st;
          actions := rs_actions st;
          log_probs := rs_log_probs st;
          rewards := rs_rewards st;
          dones := rs_dones st;
          values := rs_values st;
          last_value := last_value;
          last_done := done |}.

(** [worker_fn], for the arguments [wa] of the process, the model
    parameters, and the environment [env0] and the random generator [gen0]
    that a freshly started process creates: the environment is reset with
    the seed [worker_seed = seed + worker_id] (lines 122-123), and the
    rollout runs in it. *)
Definition worker_fn (wa : worker_args) (model_state_dict : Params)
    (env0 : Env) (gen0 : Gen) : option trajectory_data :=
  let '(_, env) := env_reset_seed env0 (worker_seed wa) in
  worker_rollout (wa_steps_per_worker wa) model_state_dict env gen0.

(** Lines 340-357: the workers of one iteration run, and [main] takes
    their results from the queue in the order of arrival, [arrival] being
    the workers in that order.  [None]: a worker delivers nothing, and
    [main] waits for ever. *)
Definition gather_trajectories (model_state_dict : Params) (env0 : Env)
    (gen0 : Gen) (arrival : list worker_args)
    : option (list trajectory_data) :=
  mapM (fun wa => worker_fn wa model_state_dict env0 gen0) arrival.

(** [np.concatenate(arrays)]: [ValueError] on an empty list. *)
Definition np_concatenate {A} (arrays : list (list A)) : option (list A) :=
  match arrays with
  | [] => None
  | _ => Some (concat arrays)
  end.

Record batch := {
  batch_obs : list Obs;
  batch_actions : list Act;
  batch_log_probs_old : list F;
  batch_advantages : list F;
  batch_returns : list F;
}.

(** Lines 360-398, the statistics apart: GAE per trajectory, then the
    concatenation of the per-trajectory arrays.  The arrays of a
    trajectory are the [float32] arrays that [worker_fn] builds. *)
Definition build_batch (gamma gae_lambda : F)
    (all_trajectory_data : list trajectory_data) : option batch :=
  gae ← mapM (fun data =>
                compute_gae rO rI radd rmul rsub trunc Np.float_
                  (rewards data) (values data) (dones data)
                  (last_value data) (last_done data) gamma gae_lambda)
             all_trajectory_data;
  batch_obs ← np_concatenate (observations <$> all_trajectory_data);
  batch_actions ← np_concatenate (actions <$> all_trajectory_data);
  batch_log_probs_old ← np_concatenate (log_probs <$> all_trajectory_data);
  batch_advantages ← np_concatenate (gae.*1);
  batch_returns ← np_concatenate (gae.*2);
  Some {| batch_obs := batch_obs;
          batch_actions := batch_actions;
          batch_log_probs_old := batch_log_probs_old;
          batch_advantages := batch_advantages;
          batch_returns := batch_returns |}.

(** Lines 382-392 over the trajectories of one iteration. *)
Definition scan_all (s : stats) (all_trajectory_data : list trajectory_data)
    : stats :=
  foldl (fun s data => scan_trajectory rO radd s (rewards data) (dones data))
        s all_trajectory_data.
End Worker.


(** ** Tensors of real numbers *)

Module Torch.
Open Scope R_scope.

(** A quotient that is a real number: [None] stands for the [nan] or the
    infinity that a floating-point division by zero gives. *)
Definition div (a b : R) : option R :=
  if Req_dec_T b 0 then None else Some (a / b).

Definition sum (x : list R) : R := foldr Rplus 0 x.

(** [x.mean()]. *)
Definition mean (x : list R) : option R := div (sum x) (INR (length x)).

(** [x.std()], with Bessel's correction as [torch.Tensor.std] applies it by
    default: the sum of the squared deviations over [N - 1]. *)
Definition std (x : list R) : option R :=
  m ← mean x;
  var ← div (sum ((fun a => (a - m) ^ 2) <$> x)) (INR (length x) - 1);
  Some (sqrt var).

(** [torch.clamp(x, lo, hi)]. *)
Definition clamp (x lo hi : R) : R := Rmin (Rmax x lo) hi.

(** [torch.atanh]. *)
Definition atanh (x : R) : R := ln ((1 + x) / (1 - x)) / 2.

(** [torch.distributions.Normal(loc, scale).log_prob(value)]. *)
Definition normal_log_prob (loc scale value : R) : R :=
  - ((value - loc) ^ 2) / (2 * scale ^ 2) - ln scale - ln (sqrt (2 * PI)).

(** [t[indices]] for an index tensor: [None] stands for the [IndexError]. *)
Definition take_indices {A} (t : list A) (indices : list nat)
    : option (list A) :=
  mapM (fun i => t !! i) indices.
End Torch.

(** ** [ppo_update] *)

Definition EPSILON : R := 1e-5.

Section LogProb.
Open Scope R_scope.

(** Lines 142-149 of [worker_fn] for one observation: [x_t] is the draw of
    [normal.rsample()]; the result is the action and its log-probability.
    All arguments have one entry per action dimension. *)
Definition sample_log_prob (mean log_std action_scale action_bias x_t : list R)
    : list R * R :=
  let std := exp <$> log_std in
  let y_t := tanh <$> x_t in
  let action := zip_with Rplus (zip_with Rmult y_t action_scale) action_bias in
  let log_prob :=
    zip_with (fun ms x => Torch.normal_log_prob ms.1 ms.2 x) (zip mean std) x_t in
  let log_prob :=
    zip_with Rminus log_prob
      (ln <$> zip_with (fun s y => s * (1 - y ^ 2) + 1e-6) action_scale y_t) in
  (action, Torch.sum log_prob).

(** The Gaussian term and the squash correction of lines 248-254 of
    [ppo_update], for one row of the minibatch. *)
Definition update_log_prob_gaussian (mean log_std mb_actions : list R) : R :=
  let std := exp <$> log_std in
  let mb_actions_clamped :=
    (fun a => Torch.clamp a (-1 + EPSILON) (1 - EPSILON)) <$> mb_actions in
  let unsquashed_mb_actions := Torch.atanh <$> mb_actions_clamped in
  Torch.sum (zip_with (fun ms x => Torch.normal_log_prob ms.1 ms.2 x)
                      (zip mean std) unsquashed_mb_actions).

Definition update_squash_correction (mb_actions : list R) : R :=
  Torch.sum (ln <$> ((fun a => 1 - a ^ 2 + EPSILON) <$> mb_actions)).

(** Line 255: [log_probs_new]. *)
Definition update_log_prob (mean log_std mb_actions : list R) : R :=
  update_log_prob_gaussian mean log_std mb_actions
  - update_squash_correction mb_actions.

(** The Gaussian term and the squash correction of the sampling path,
    which [sample_log_prob] subtracts entry by entry. *)
Definition sample_log_prob_gaussian (mean log_std x_t : list R) : R :=
  Torch.sum (zip_with (fun ms x => Torch.normal_log_prob ms.1 ms.2 x)
                      (zip mean (exp <$> log_std)) x_t).

Definition sample_squash_correction (action_scale x_t : list R) : R :=
  Torch.sum (ln <$> zip_with (fun s y => s * (1 - y ^ 2) + 1e-6)
                             action_scale (tanh <$> x_t)).

(** A draw that [tanh] squashes to 0.99998. *)
Definition x_gap : R := ln 99999 / 2.
End LogProb.

Section PPOUpdate.
Open Scope R_scope.
Context {Model Obs Act Rng : Type}.
Variable rng_permutation : Rng -> nat -> list nat * Rng.

Record minibatch := {
  mb_obs : list Obs;
  mb_actions : list Act;
  mb_log_probs_old : list R;
  mb_advantages : list R;
  mb_returns : list R;
}.

(** Lines 247-272: the loss of one minibatch and the optimizer step. *)
Variable minibatch_step : Model -> minibatch -> Model.

(** Line 233. *)
Definition normalize_advantages (batch_advantages : list R)
    : option (list R) :=
  m ← Torch.mean batch_advantages;
  sd ← Torch.std batch_advantages;
  mapM (fun a => Torch.div (a - m) (sd + 1e-8)) batch_advantages.

(** Lines 241-245. *)
Definition take_minibatch (b : @batch R Obs Act) (batch_advantages : list R)
    (minibatch_indices : list nat) : option minibatch :=
  mb_obs ← Torch.take_indices (batch_obs b) minibatch_indices;
  mb_actions ← Torch.take_indices (batch_actions b) minibatch_indices;
  mb_log_probs_old ←
    Torch.take_indices (batch_log_probs_old b) minibatch_indices;
  mb_advantages ← Torch.take_indices batch_advantages minibatch_indices;
  mb_returns ← Torch.take_indices (batch_returns b) minibatch_indices;
  Some {| mb_obs := mb_obs; mb_actions := mb_actions;
          mb_log_probs_old := mb_log_probs_old;
          mb_advantages := mb_advantages; mb_returns := mb_returns |}.

(** The samples of a batch and of a minibatch: the observation, the
    action, the old log-probability, the advantage and the return of one
    index, together. *)
Definition batch_rows (b : @batch R Obs Act) (batch_advantages : list R)
    : list (Obs * (Act * (R * (R * R)))) :=
  zip (batch_obs b)
      (zip (batch_actions b)
           (zip (batch_log_probs_old b)
                (zip batch_advantages (batch_returns b)))).

Definition minibatch_rows (mb : minibatch)
    : list (Obs * (Act * (R * (R * R)))) :=
  zip (mb_obs mb)
      (zip (mb_actions mb)
           (zip (mb_log_probs_old mb)
                (zip (mb_advantages mb) (mb_returns mb)))).

(** [ppo_update]: the minibatches it steps through, in order, and the
    model and the generator it leaves. *)
Definition ppo_update (model : Model) (b : @batch R Obs Act)
    (num_epochs minibatch_size : Z) (rng : Rng)
    : option (list minibatch * Model * Rng) :=
  let batch_size := length (batch_obs b) in
  batch_advantages ← normalize_advantages (batch_advantages b);
  '(sched, rng) ←
    ppo_schedule rng_permutation num_epochs batch_size minibatch_size rng;
  mbs ← mapM (take_minibatch b batch_advantages) (concat sched);
  Some (mbs, foldl minibatch_step model mbs, rng).
End PPOUpdate.

(** ** The actor-critic model and the loss *)

Definition LOG_STD_MAX : R := 2.
Definition LOG_STD_MIN : R := -5.

Section ActorCritic.
Open Scope R_scope.

(** The layers of the network ([nn.Linear] and [nn.Tanh], composed), as
    functions on vectors. *)
Variables shared_layer fc_mean fc_logstd critic : list R -> list R.

(** [ActorCritic.forward]. *)
Definition forward (x : list R) : list R * list R * list R :=
  let shared_features := shared_layer x in
  let mean := fc_mean shared_features in
  let log_std := fc_logstd shared_features in
  let log_std := tanh <$> log_std in
  let log_std :=
    (fun l => LOG_STD_MIN + 0.5 * (LOG_STD_MAX - LOG_STD_MIN) * (l + 1))
    <$> log_std in
  let value := critic shared_features in
  (mean, log_std, value).

(** The buffers that [ActorCritic.__init__] derives from the bounds of the
    action space. *)
Definition action_scale (low high : list R) : list R :=
  zip_with (fun h l => (h - l) / 2) high low.

Definition action_bias (low high : list R) : list R :=
  zip_with (fun h l => (h + l) / 2) high low.

(** [torch.distributions.Normal(loc, scale).entropy()]. *)
Definition normal_entropy (scale : R) : R :=
  0.5 + 0.5 * ln (2 * PI) + ln scale.

(** Lines 260-263 of [ppo_update]: the tensor [torch.min(surr1, surr2)]. *)
Definition surrogate (log_probs_new mb_log_probs_old mb_advantages : list R)
    (clip_epsilon : R) : list R :=
  let prob_ratio := exp <$> zip_with Rminus log_probs_new mb_log_probs_old in
  let surr1 := zip_with Rmult prob_ratio mb_advantages in
  let surr2 :=
    zip_with Rmult
      ((fun r => Torch.clamp r (1 - clip_epsilon) (1 + clip_epsilon))
       <$> prob_ratio)
      mb_advantages in
  zip_with Rmin surr1 surr2.

(** Lines 257-267 of [ppo_update]: the loss of a minibatch, from the
    outputs of the model ([log_std] with one row per sample, [values_pred]
    squeezed) and the log-probabilities recomputed from them. *)
Definition minibatch_loss (log_std : list (list R))
    (values_pred log_probs_new mb_log_probs_old mb_advantages
       mb_returns : list R)
    (clip_epsilon entropy_coef value_loss_coef : R) : option R :=
  entropy ← Torch.mean (normal_entropy <$> (exp <$> concat log_std));
  objective ←
    Torch.mean
      (surrogate log_probs_new mb_log_probs_old mb_advantages clip_epsilon);
  let policy_loss := - objective in
  squared_error ←
    Torch.mean ((fun d => d ^ 2) <$> zip_with Rminus values_pred mb_returns);
  let value_loss := 0.5 * squared_error in
  Some (policy_loss + value_loss_coef * value_loss - entropy_coef * entropy).
End ActorCritic.

(** ** [main]: the training loop *)

Definition batch_size (args : Args) : Z :=
  num_workers args * steps_per_worker args.

(** [num_updates = args.total_timesteps // batch_size]. *)
Definition num_updates (args : Args) : result Z :=
  if decide (batch_size args = 0)%Z then Raise ZeroDivisionError
  else Ok (total_timesteps args `div` batch_size args)%Z.

(** [range(a, b)]. *)
Definition range_from (a b : Z) : list Z :=
  (fun i => a + i)%Z <$> range (b - a).

Section Training.
Context {Env Obs Act Model Params Gen Rng : Type}.
Variable env_reset_seed : Env -> Z -> Obs * Env.
Variable env_reset : Env -> Obs * Env.
Variable env_step : Env -> Act -> (Obs * R * bool * bool) * Env.
Variable sample_action : Params -> Obs -> Gen -> (Act * R * R) * Gen.
Variable value_estimate : Params -> Obs -> R.
Variable state_dict : Model -> Params.
Variable rng_permutation : Rng -> nat -> list nat * Rng.
Variable minibatch_step : Model -> @minibatch Obs Act -> Model.

(** What a freshly started worker process creates, and, for each
    iteration, the workers in the order in which their results arrive. *)
Variables (env0 : Env) (gen0 : Gen).
Variable arrival : Z -> list worker_args.
Variables gamma gae_lambda : R.

(** The variables of [main] that the training loop changes. *)
Record train_state := {
  ts_model : Model;
  ts_rng : Rng;
  ts_stats : @stats R;
  ts_total_steps : Z;
}.

(** The body of [for update in range(1, num_updates + 1)] (lines 335-418,
    logging and checkpoints left out). *)
Definition main_iteration (args : Args) (st : train_state) (update : Z)
    : option train_state :=
  all_trajectory_data ←
    gather_trajectories env_reset_seed env_reset env_step sample_action
      value_estimate (state_dict (ts_model st)) env0 gen0 (arrival update);
  b ← build_batch 0%R 1%R Rplus Rmult Rminus Rtrunc gamma gae_lambda
         all_trajectory_data;
  let stats := scan_all 0%R Rplus (ts_stats st) all_trajectory_data in
  '(_, model, rng) ←
    ppo_update rng_permutation minibatch_step (ts_model st) b
      (num_epochs args) (minibatch_size args) (ts_rng st);
  Some {| ts_model := model; ts_rng := rng; ts_stats := stats;
          ts_total_steps := (ts_total_steps st + batch_size args)%Z |}.

Fixpoint main_iterations (args : Args) (st : train_state) (updates : list Z)
    : option train_state :=
  match updates with
  | [] => Some st
  | update :: updates' =>
      st' ← main_iteration args st update;
      main_iterations args st' updates'
  end.

(** The training loop of [main]: [None] stands for a raised exception, a
    [nan], or a wait without end. *)
Definition training_loop (args : Args) (st : train_state)
    : option train_state :=
  match num_updates args with
  | Raise _ => None
  | Ok n => main_iterations args st (range_from 1 (n + 1))
  end%Z.

(** The actions that the workers sample in the iterations [updates], one
    list per trajectory, in the order in which [main] takes the
    trajectories from the queue. *)
Fixpoint sampled_actions (args : Args) (st : train_state) (updates : list Z)
    : option (list (list (list Act))) :=
  match updates with
  | [] => Some []
  | update :: updates' =>
      all_trajectory_data ←
        gather_trajectories env_reset_seed env_reset env_step sample_action
          value_estimate (state_dict (ts_model st)) env0 gen0
          (arrival update);
      st' ← main_iteration args st update;
      rest ← sampled_actions args st' updates';
      Some ((actions <$> (all_trajectory_data : list trajectory_data)) :: rest)
  end.

(** The actions sampled in one run of the training loop. *)
Definition training_actions (args : Args) (st : train_state)
    : option (list (list (list Act))) :=
  match num_updates args with
  | Raise _ => None
  | Ok n => sampled_actions args st (range_from 1 (n + 1))
  end%Z.
End Training.

(** ** Data of the worked instances *)

Section InstanceData.
Open Scope Z_scope.

(** A permutation source that reverses the indices. *)
Definition reversing (g : unit) (n : nat) : list nat * unit :=
  (reverse (seq 0 n), g).

(** A toy environment: the state counts the steps, every third step ends
    an episode, and a reset adds 100. *)
Definition toy_reset_seed (e s : Z) : Z * Z := (s, s).
Definition toy_reset (e : Z) : Z * Z := (0, e + 100).
Definition toy_step (e a : Z) : (Z * Z * bool * bool) * Z :=
  ((e + 1, a, e mod 3 =? 0, false), e + 1).
Definition toy_sample (p : unit) (o g : Z) : (Z * Z * Z) * Z :=
  ((o + g, 7, 8), g + 1).
Definition toy_value (p : unit) (o : Z) : Z := o * 2.

Definition toy_args : Args :=
  {| num_workers := 2; total_timesteps := 60; steps_per_worker := 3;
     num_epochs := 2; minibatch_size := 4; seed := 4 |}.

(** The first trajectory of the end-to-end scenario of the specification,
    in rational numbers: rewards [1, 0, 1, 0], values one half, no done
    flag, a bootstrap value of one half and [gamma = lambda = 9/10]. *)
Definition scenario_rewards : list Qc := [1; 0; 1; 0]%Qc.
Definition scenario_values : list Qc := replicate 4 (Q2Qc (1 # 2)).
Definition scenario_dones : list bool := replicate 4 false.
Definition scenario_last_value : Qc := Q2Qc (1 # 2).
Definition scenario_gamma : Qc := Q2Qc (9 # 10).

(** A store with the three arrays of a trajectory. *)
Definition toy_store : gmap positive (@ndarray Z) :=
  <[1%positive := NumArray Np.float_ [1; 0; 1; 0]]>
    (<[2%positive := NumArray Np.float_ [5; 5; 5; 5]]>
       (<[3%positive := BoolArray [false; false; false; false]]> ∅)).

(** The toy environment with real rewards, a model without parameters
    and a batch of three samples. *)
Definition rtoy_step (e a : Z) : (Z * R * bool * bool) * Z :=
  ((e + 1, 1%R, e mod 3 =? 0, false), e + 1).
Definition rtoy_sample (p : unit) (o g : Z) : (Z * R * R) * Z :=
  ((o + g, 0%R, 0%R), g + 1).
Definition rtoy_value (p : unit) (o : Z) : R := 0%R.
Definition rtoy_arrival (update : Z) : list worker_args :=
  reverse (spawn_args toy_args update).
Definition rtoy_step_model (m : unit) (mb : @minibatch Z Z) : unit := m.

Definition toy_batch : @batch R unit unit :=
  {| batch_obs := [(); (); ()]; batch_actions := [(); (); ()];
     batch_log_probs_old := [0%R; 0%R; 0%R];
     batch_advantages := [1%R; 2%R; 3%R];
     batch_returns := [0%R; 0%R; 0%R] |}.
Definition toy_step_model (m : unit) (mb : @minibatch unit unit) : unit := m.

(** An instance in which the update changes the model.  The parameters
    are one integer, which the sampled action adds in; the optimizer step
    doubles the parameters and adds the actions of the minibatch, so that,
    like a step on a mean loss, it depends on which rows the minibatch
    holds and not on their order.  One iteration of two workers, three
    steps each, and one epoch of a minibatch of four and one of two. *)
Definition det_sample (p : Z) (o g : Z) : (Z * R * R) * Z :=
  ((o + g + p, 0%R, 0%R), g + 1).
Definition det_value (p : Z) (o : Z) : R := 0%R.
Definition det_step_model (m : Z) (mb : @minibatch Z Z) : Z :=
  2 * m + foldr Z.add 0 (mb_actions mb).
Definition det_args : Args :=
  {| num_workers := 2; total_timesteps := 6; steps_per_worker := 3;
     num_epochs := 1; minibatch_size := 4; seed := 4 |}.
Definition det_state : @train_state Z unit :=
  {| ts_model := 0; ts_rng := ();
     ts_stats := {| episode_rewards := []; episode_lengths := [];
                    total_episodes := 0 |};
     ts_total_steps := 0 |}.

(** Two orders of arrival: the order in which the workers were started,
    and the opposite one. *)
Definition spawn_order (update : Z) : list worker_args :=
  spawn_args det_args update.
Definition reverse_order (update : Z) : list worker_args :=
  reverse (spawn_args det_args update).

(** The opposite order in the first iteration, the order of the start
    from the second one on. *)
Definition late_order (update : Z) : list worker_args :=
  if decide (update <= 1) then reverse_order update else spawn_order update.

Definition toy_train_state : @train_state unit unit :=
  {| ts_model := (); ts_rng := ();
     ts_stats := {| episode_rewards := []; episode_lengths := [];
                    total_episodes := 0 |};
     ts_total_steps := 0 |}.

End InstanceData.

(** * Properties *)

(** ** numpy arrays *)

Section ArrayFacts.
Context {A : Type}.
Implicit Types (a b : list A) (f : A -> A -> A).

Lemma broadcast2_same_length f a b :
  length a = length b -> Np.broadcast2 f a b = Some (zip_with f a b).
Proof. intros E. unfold Np.broadcast2. by rewrite decide_True. Qed.

Lemma setitem_Some a t x :
  t < length a -> Np.setitem a t x = Some (<[t := x]> a).
Proof. intros Ht. unfold Np.setitem. by rewrite decide_True. Qed.

Lemma append_tail_length a x :
  a <> [] -> length (Np.append (Np.tail_slice a) x) = length a.
Proof.
  destruct a as [|y a]; [done|]. intros _.
  unfold Np.append, Np.tail_slice. rewrite length_app. simpl.
  rewrite drop_0. lia.
Qed.

Lemma append_tail_lookup a x t :
  t < length a ->
  Np.append (Np.tail_slice a) x !! t
  = Some (if decide (S t < length a) then default x (a !! S t) else x).
Proof.
  intros Ht. unfold Np.append, Np.tail_slice.
  destruct a as [|y a]; [simpl in Ht; lia|]. simpl in *. rewrite drop_0.
  case_decide as Hlt.
  - rewrite lookup_app_l by lia.
    destruct (lookup_lt_is_Some_2 a t) as [z Hz]; [lia|]. by rewrite Hz.
  - rewrite lookup_app_r by lia.
    replace (t - length a) with 0 by lia. done.
Qed.
End ArrayFacts.

(** ** The GAE engine *)

Section GAEFacts.
Context {F : Type} (rO rI : F) (radd rmul rsub : F -> F -> F) (ropp : F -> F).
Context (trunc : F -> F).
Hypothesis Fth : ring_theory rO rI radd rmul rsub ropp eq.
Add Ring Fring : Fth.

Local Infix "+" := radd.
Local Infix "*" := rmul.
Local Infix "-" := rsub.
Local Abbreviation gae_loop := (gae_loop radd rmul trunc).
Local Abbreviation compute_gae := (compute_gae rO rI radd rmul rsub trunc).
Local Abbreviation of_bool := (of_bool rO rI).
Local Abbreviation astype := (astype trunc).

(** What one run of the backward loop over the indices [n-1, ..., 0]
    leaves in a floating-point array [advantages]. *)
Lemma gae_loop_spec deltas nnt gamma lam n :
  n <= length deltas -> n <= length nnt ->
  forall last adv, n <= length adv ->
  exists last' adv',
    gae_loop Np.float_ deltas nnt gamma lam (reverse (seq 0 n)) (last, adv)
      = Some (last', adv')
    /\ length adv' = length adv
    /\ (forall t, n <= t -> adv' !! t = adv !! t)
    /\ (forall t d m, S t = n -> deltas !! t = Some d -> nnt !! t = Some m ->
          adv' !! t = Some (d + gamma * lam * m * last))
    /\ (forall t d m a, S t < n -> deltas !! t = Some d ->
          nnt !! t = Some m -> adv' !! S t = Some a ->
          adv' !! t = Some (d + gamma * lam * m * a)).
Proof.
  intros Hd Hn. induction n as [|n IH]; intros last adv Ha.
  - exists last, adv. simpl. repeat split; intros; (done || lia).
  - rewrite seq_S, reverse_snoc. simpl.
    destruct (lookup_lt_is_Some_2 deltas n) as [dn Hdn]; [lia|].
    destruct (lookup_lt_is_Some_2 nnt n) as [mn Hmn]; [lia|].
    unfold Np.getitem. rewrite Hdn, Hmn. simpl.
    rewrite setitem_Some by lia. simpl.
    set (last1 := dn + gamma * lam * mn * last).
    destruct (IH ltac:(lia) ltac:(lia) last1 (<[n := last1]> adv))
      as (last' & adv' & Hrun & Hlen & Hframe & Htop & Hrec).
    { rewrite length_insert. lia. }
    assert (Hn1 : adv' !! n = Some last1).
    { rewrite Hframe by lia. apply list_lookup_insert_eq. lia. }
    exists last', adv'. split; [exact Hrun|].
    rewrite length_insert in Hlen. split; [exact Hlen|].
    split; [|split].
    + intros t Ht. rewrite Hframe by lia.
      apply list_lookup_insert_ne. lia.
    + intros t d m Ht Hdt Hmt. assert (t = n) as -> by lia.
      rewrite Hdn in Hdt. rewrite Hmn in Hmt. by simplify_eq.
    + intros t d m a Ht Hdt Hmt Hat.
      destruct (decide (S t = n)) as [E|E].
      * subst n. rewrite Hn1 in Hat. simplify_eq.
        by apply Htop.
      * apply Hrec; (done || lia).
Qed.

Section Recursion.
Variables (rewards values : list F) (dones : list bool).
Variables (last_value : F) (last_done : bool) (gamma lam : F).
Hypothesis Hvalues : length values = length rewards.
Hypothesis Hdones : length dones = length rewards.

Local Abbreviation T := (length rewards).
Local Abbreviation next_values :=
  (Np.append (Np.tail_slice values)
             (if negb last_done then last_value else rO)).
Local Abbreviation nnt := ((fun d => rI - of_bool d) <$> dones).
Local Abbreviation deltas :=
  (zip_with rsub
     (zip_with radd rewards
        (zip_with rmul (Np.scalar_op rmul gamma next_values) nnt))
     values).
Local Abbreviation delta :=
  (spec_delta rO rI radd rmul rsub rewards values dones
              last_value last_done gamma).
Local Abbreviation non_terminal :=
  (spec_next_non_terminal rO rI rsub dones).

Lemma nnt_lookup t :
  t < T -> nnt !! t = Some (non_terminal t).
Proof.
  intros Ht. rewrite list_lookup_fmap.
  destruct (lookup_lt_is_Some_2 dones t) as [d Hd]; [lia|].
  rewrite Hd. simpl. unfold spec_next_non_terminal.
  by rewrite (nth_lookup_Some _ _ _ _ Hd).
Qed.

Lemma next_values_lookup t :
  t < T ->
  next_values !! t
  = Some (spec_next_value rO values last_value last_done t).
Proof.
  intros Ht. rewrite append_tail_lookup by lia. f_equal.
  unfold spec_next_value. case_decide as Hlt.
  - destruct (lookup_lt_is_Some_2 values (S t)) as [v Hv]; [lia|].
    rewrite Hv. simpl. by rewrite (nth_lookup_Some _ _ _ _ Hv).
  - by destruct last_done.
Qed.

Lemma deltas_lookup t :
  t < T -> deltas !! t = Some (delta t).
Proof.
  intros Ht. rewrite !lookup_zip_with. unfold Np.scalar_op.
  rewrite nnt_lookup, list_lookup_fmap, next_values_lookup by done.
  destruct (lookup_lt_is_Some_2 rewards t) as [r Hr]; [lia|].
  destruct (lookup_lt_is_Some_2 values t) as [v Hv]; [lia|].
  rewrite Hr, Hv. simpl. unfold spec_delta.
  by rewrite (nth_lookup_Some _ _ _ _ Hr), (nth_lookup_Some _ _ _ _ Hv).
Qed.

Lemma deltas_length : T <> 0 -> length deltas = T.
Proof.
  intros HT. rewrite !length_zip_with. unfold Np.scalar_op.
  rewrite !length_fmap, append_tail_length.
  - lia.
  - intros ->. simpl in *. lia.
Qed.

Lemma compute_gae_unfold dt :
  T <> 0 ->
  compute_gae dt rewards values dones last_value last_done gamma lam
  = '(_, advantages) ← gae_loop dt deltas nnt gamma lam (reverse (seq 0 T))
                         (rO, Np.zeros_like rO rewards);
    returns ← Np.broadcast2 radd advantages values;
    Some (advantages, returns).
Proof.
  intros HT. unfold compute_gae.
  assert (Hnv : length next_values = T).
  { rewrite append_tail_length; [lia|]. intros ->. simpl in *. lia. }
  rewrite (broadcast2_same_length rmul).
  2:{ unfold Np.scalar_op. rewrite !length_fmap. lia. }
  simpl. rewrite (broadcast2_same_length radd).
  2:{ rewrite length_zip_with. unfold Np.scalar_op.
      rewrite !length_fmap. lia. }
  simpl. rewrite (broadcast2_same_length rsub).
  2:{ rewrite !length_zip_with. unfold Np.scalar_op.
      rewrite !length_fmap. lia. }
  done.
Qed.
End Recursion.

(** On floating-point arrays of equal length, [compute_gae] runs to the
    end and its result obeys the backward recursion. *)
Lemma compute_gae_spec rewards values dones last_value last_done
    gamma lam :
  length values = length rewards ->
  length dones = length rewards ->
  exists advantages returns,
    compute_gae Np.float_ rewards values dones last_value last_done gamma lam
      = Some (advantages, returns)
    /\ length advantages = length rewards
    /\ length returns = length rewards
    /\ (forall t, S t = length rewards ->
          nth t advantages rO
          = spec_delta rO rI radd rmul rsub rewards values dones
                       last_value last_done gamma t)
    /\ (forall t, S t < length rewards ->
          nth t advantages rO
          = spec_delta rO rI radd rmul rsub rewards values dones
                       last_value last_done gamma t
            + gamma * lam * spec_next_non_terminal rO rI rsub dones t
              * nth (S t) advantages rO)
    /\ (forall t, t < length rewards ->
          nth t returns rO = nth t advantages rO + nth t values rO).
Proof.
  intros Hv Hd.
  destruct (decide (length rewards = 0)) as [E0|HT].
  { destruct rewards; [|done]. destruct values; [|done].
    destruct dones; [|done].
    exists [], []. repeat split; simpl; intros; lia. }
  rewrite compute_gae_unfold by done.
  assert (Hzl : length (Np.zeros_like rO rewards) = length rewards).
  { unfold Np.zeros_like. by rewrite length_replicate. }
  destruct (fun H1 H2 =>
              gae_loop_spec
                (zip_with rsub
                   (zip_with radd rewards
                      (zip_with rmul
                         (Np.scalar_op rmul gamma
                            (Np.append (Np.tail_slice values)
                               (if negb last_done then last_value else rO)))
                         ((fun d => rI - of_bool d) <$> dones)))
                   values)
                ((fun d => rI - of_bool d) <$> dones) gamma lam
                (length rewards) H1 H2 rO (Np.zeros_like rO rewards)
                ltac:(lia))
    as (last' & adv & Hrun & Hlen & _ & Htop & Hrec).
  { rewrite deltas_length; done. }
  { rewrite length_fmap. lia. }
  rewrite Hrun. simpl. rewrite Hzl in Hlen.
  rewrite (broadcast2_same_length radd) by lia. simpl.
  exists adv, (zip_with radd adv values).
  split; [done|]. split; [done|].
  split; [rewrite length_zip_with; lia|].
  assert (Hget : forall t, t < length rewards ->
            adv !! t = Some (nth t adv rO)).
  { intros t Ht. destruct (lookup_lt_is_Some_2 adv t) as [a Ha]; [lia|].
    by rewrite (nth_lookup_Some _ _ _ _ Ha). }
  split; [|split].
  - intros t Ht. erewrite nth_lookup_Some.
    2:{ eapply Htop; [done| |].
        - apply deltas_lookup; (done || lia).
        - eapply nnt_lookup; (done || lia). }
    ring.
  - intros t Ht. erewrite nth_lookup_Some; [done|].
    eapply Hrec; [done| | |].
    + apply deltas_lookup; (done || lia).
    + eapply nnt_lookup; (done || lia).
    + apply Hget. lia.
  - intros t Ht.
    destruct (lookup_lt_is_Some_2 values t) as [v Hvt]; [lia|].
    assert (Hz : zip_with radd adv values !! t
                 = Some (nth t adv rO + v)).
    { rewrite lookup_zip_with, (Hget t Ht), Hvt. done. }
    by rewrite (nth_lookup_Some _ _ _ _ Hz), (nth_lookup_Some _ _ _ _ Hvt).
Qed.

(** *** The dtype of [rewards]

    The loop carries [last_gae_lam] unconverted, so the advantages for any
    dtype are the advantages for a floating-point dtype, converted entry by
    entry. *)

Lemma gae_loop_frame dt deltas nnt gamma lam ts :
  forall last adv last' adv',
    gae_loop dt deltas nnt gamma lam ts (last, adv) = Some (last', adv') ->
    length adv' = length adv
    /\ forall t, t ∉ ts -> adv' !! t = adv !! t.
Proof.
  induction ts as [|t0 ts IH]; intros last adv last' adv' Hrun.
  { simpl in Hrun. by simplify_eq. }
  simpl in Hrun.
  destruct (Np.getitem deltas t0) as [d|]; simpl in Hrun; [|done].
  destruct (Np.getitem nnt t0) as [n|]; simpl in Hrun; [|done].
  unfold Np.setitem in Hrun. case_decide as Hlt; simpl in Hrun; [|done].
  apply IH in Hrun as [Hlen Hframe]. rewrite length_insert in Hlen.
  split; [done|]. intros t Ht. apply not_elem_of_cons in Ht as [Hne Ht].
  rewrite (Hframe t Ht). by apply list_lookup_insert_ne.
Qed.

Lemma gae_loop_astype dt deltas nnt gamma lam ts :
  forall last adv adv0,
    length adv = length adv0 ->
    match gae_loop Np.float_ deltas nnt gamma lam ts (last, adv0) with
    | Some (last', adv0') =>
        exists adv',
          gae_loop dt deltas nnt gamma lam ts (last, adv) = Some (last', adv')
          /\ forall t, t ∈ ts -> adv' !! t = astype dt <$> adv0' !! t
    | None => gae_loop dt deltas nnt gamma lam ts (last, adv) = None
    end.
Proof.
  induction ts as [|t0 ts IH]; intros last adv adv0 Hlen.
  { simpl. exists adv. split; [done|]. intros t Ht. by apply elem_of_nil in Ht. }
  simpl.
  destruct (Np.getitem deltas t0) as [d|]; simpl; [|done].
  destruct (Np.getitem nnt t0) as [n|]; simpl; [|done].
  unfold Np.setitem. rewrite Hlen.
  case_decide as Hlt; simpl; [|done].
  set (L := d + gamma * lam * n * last).
  specialize (IH L (<[t0 := astype dt L]> adv) (<[t0 := L]> adv0)).
  rewrite !length_insert in IH. specialize (IH Hlen).
  destruct (gae_loop Np.float_ deltas nnt gamma lam ts (L, <[t0 := L]> adv0))
    as [[last' adv0']|] eqn:Hrun0; [|done].
  destruct IH as (adv' & Hrun & Hin).
  exists adv'. split; [done|]. intros t Ht.
  destruct (decide (t ∈ ts)) as [Hts|Hts]; [by apply Hin|].
  apply elem_of_cons in Ht as [->|Ht]; [|done].
  apply gae_loop_frame in Hrun as [_ Hf]. apply gae_loop_frame in Hrun0 as [_ Hf0].
  rewrite (Hf t0 Hts), (Hf0 t0 Hts).
  rewrite !list_lookup_insert_eq by lia. done.
Qed.

Lemma broadcast2_fmap_None (f : F -> F -> F) (g : F -> F) a b :
  Np.broadcast2 f a b = None -> Np.broadcast2 f (g <$> a) b = None.
Proof.
  unfold Np.broadcast2. rewrite length_fmap. case_decide; [done|].
  destruct a as [|x [|x' a]]; destruct b as [|y [|y' b]]; simpl; done.
Qed.

Lemma compute_gae_astype dt rewards values dones last_value last_done
    gamma lam :
  compute_gae dt rewards values dones last_value last_done gamma lam
  = '(A, _) ← compute_gae Np.float_ rewards values dones last_value last_done
                gamma lam;
    Rt ← Np.broadcast2 radd (astype dt <$> A) values;
    Some (astype dt <$> A, Rt).
Proof.
  unfold compute_gae.
  destruct (Np.broadcast2 rmul _ _) as [c1|]; simpl; [|done].
  destruct (Np.broadcast2 radd rewards c1) as [c2|]; simpl; [|done].
  destruct (Np.broadcast2 rsub c2 values) as [D|]; simpl; [|done].
  pose proof (gae_loop_astype dt D ((fun d => rI - of_bool d) <$> dones)
                gamma lam (reverse (seq 0 (length rewards))) rO
                (Np.zeros_like rO rewards) (Np.zeros_like rO rewards)
                eq_refl) as H.
  destruct (gae_loop Np.float_ D _ gamma lam _ _) as [[last' A0]|] eqn:Hrun0.
  - destruct H as (A & Hrun & Hin). rewrite Hrun. simpl.
    apply gae_loop_frame in Hrun as [Hlen _].
    apply gae_loop_frame in Hrun0 as [Hlen0 _].
    unfold Np.zeros_like in Hlen, Hlen0. rewrite length_replicate in Hlen, Hlen0.
    assert (EA : A = astype dt <$> A0).
    { apply list_eq. intros t. rewrite list_lookup_fmap.
      destruct (decide (t < length rewards)) as [Ht|Ht].
      - apply Hin. rewrite elem_of_reverse. apply elem_of_seq. lia.
      - rewrite !lookup_ge_None_2 by lia. done. }
    rewrite EA.
    destruct (Np.broadcast2 radd A0 values) as [R0|] eqn:ER; simpl; [done|].
    by rewrite (broadcast2_fmap_None radd (astype dt) A0 values ER).
  - by rewrite H.
Qed.

(** On arrays of equal length, whatever the dtype of [rewards]. *)
Lemma compute_gae_any dt rewards values dones last_value last_done
    gamma lam :
  length values = length rewards ->
  length dones = length rewards ->
  exists Af Rf,
    compute_gae Np.float_ rewards values dones last_value last_done gamma lam
    = Some (Af, Rf)
    /\ length Af = length rewards
    /\ compute_gae dt rewards values dones last_value last_done gamma lam
       = Some (astype dt <$> Af, zip_with radd (astype dt <$> Af) values).
Proof.
  intros Hv Hd.
  destruct (compute_gae_spec rewards values dones last_value last_done
              gamma lam Hv Hd) as (Af & Rf & Hrun & Ha & _).
  exists Af, Rf. split; [done|]. split; [done|].
  rewrite compute_gae_astype, Hrun. simpl.
  by rewrite broadcast2_same_length by (rewrite length_fmap; lia).
Qed.

Lemma broadcast2_fmap_Some (f : F -> F -> F) (g : F -> F) a b :
  is_Some (Np.broadcast2 f a b) -> is_Some (Np.broadcast2 f (g <$> a) b).
Proof.
  intros Hsome.
  destruct (Np.broadcast2 f (g <$> a) b) as [c|] eqn:E; [by eexists|].
  destruct (Np.broadcast2 f a b) as [c|] eqn:E'; [|by destruct Hsome].
  revert E E'. unfold Np.broadcast2. rewrite length_fmap.
  case_decide; [done|].
  destruct a as [|x [|x' a]]; destruct b as [|y [|y' b]]; simpl; done.
Qed.

Lemma compute_gae_returns dt rewards values dones last_value last_done
    gamma lam A Rt :
  compute_gae dt rewards values dones last_value last_done gamma lam
  = Some (A, Rt) ->
  Np.broadcast2 radd A values = Some Rt.
Proof.
  unfold compute_gae. intros Hrun.
  destruct (Np.broadcast2 rmul _ _) as [c1|]; simpl in Hrun; [|done].
  destruct (Np.broadcast2 radd rewards c1) as [c2|]; simpl in Hrun; [|done].
  destruct (Np.broadcast2 rsub c2 values) as [D|]; simpl in Hrun; [|done].
  destruct (gae_loop _ _ _ _ _ _ _) as [[last' A']|]; simpl in Hrun; [|done].
  destruct (Np.broadcast2 radd A' values) as [R'|] eqn:E; simpl in Hrun;
    [|done].
  by simplify_eq.
Qed.

(** Whether [compute_gae] raises does not depend on the dtype of
    [rewards]. *)
Lemma compute_gae_is_Some dt rewards values dones last_value last_done
    gamma lam :
  is_Some (compute_gae dt rewards values dones last_value last_done
                       gamma lam)
  <-> is_Some (compute_gae Np.float_ rewards values dones last_value
                           last_done gamma lam).
Proof.
  rewrite (compute_gae_astype dt).
  destruct (compute_gae Np.float_ _ _ _ _ _ _ _) as [[A Rt]|] eqn:Hf; simpl.
  - split; [by eexists|]. intros _.
    apply compute_gae_returns in Hf.
    destruct (broadcast2_fmap_Some radd (astype dt) A values) as [R' HR'];
      [by eexists|].
    rewrite HR'. by eexists.
  - done.
Qed.

Lemma nth_fmap_astype dt (a : list F) t :
  t < length a -> nth t (astype dt <$> a) rO = astype dt (nth t a rO).
Proof.
  intros Ht. destruct (lookup_lt_is_Some_2 a t Ht) as [x Hx].
  rewrite (nth_lookup_Some _ _ _ _ Hx).
  apply nth_lookup_Some. by rewrite list_lookup_fmap, Hx.
Qed.

Lemma nth_zip_with_add (a b : list F) t :
  t < length a -> t < length b ->
  nth t (zip_with radd a b) rO = nth t a rO + nth t b rO.
Proof.
  intros Ha Hb.
  destruct (lookup_lt_is_Some_2 a t Ha) as [x Hx].
  destruct (lookup_lt_is_Some_2 b t Hb) as [y Hy].
  rewrite (nth_lookup_Some _ _ _ _ Hx), (nth_lookup_Some _ _ _ _ Hy).
  apply nth_lookup_Some. by rewrite lookup_zip_with, Hx, Hy.
Qed.

(** C1.  On arrays of equal length [T], whatever the dtype of [rewards],
    [compute_gae] returns a pair [(advantages, returns)] of arrays of
    length [T] with [returns[t] = advantages[t] + values[t]] for every
    [t].  For a floating-point [rewards] array, as [worker_fn] builds it,
    the advantages satisfy the recursion of the specification:
    [advantages[T-1] = delta[T-1]] and [advantages[t] = delta[t] + gamma *
    lambda * next_non_terminal[t] * advantages[t+1]] for [t < T-1], where
    [delta], [next_values] and [next_non_terminal] are the ones the
    specification defines. *)
Theorem compute_gae_recursion dt rewards values dones last_value last_done
    gamma lam :
  length values = length rewards ->
  length dones = length rewards ->
  exists advantages returns,
    compute_gae dt rewards values dones last_value last_done gamma lam
      = Some (advantages, returns)
    /\ length advantages = length rewards
    /\ length returns = length rewards
    /\ (forall t, t < length rewards ->
          nth t returns rO = nth t advantages rO + nth t values rO)
    /\ (dt = Np.float_ ->
        (forall t, S t = length rewards ->
           nth t advantages rO
           = spec_delta rO rI radd rmul rsub rewards values dones
                        last_value last_done gamma t)
        /\ (forall t, S t < length rewards ->
              nth t advantages rO
              = spec_delta rO rI radd rmul rsub rewards values dones
                           last_value last_done gamma t
                + gamma * lam * spec_next_non_terminal rO rI rsub dones t
                  * nth (S t) advantages rO)).
Proof.
  intros Hv Hd.
  destruct (compute_gae_any dt rewards values dones last_value last_done
              gamma lam Hv Hd) as (Af & Rf & Hf & Hlen & Hrun).
  eexists _, _. split; [exact Hrun|].
  split; [by rewrite length_fmap|].
  split; [rewrite length_zip_with, length_fmap; lia|].
  split.
  - intros t Ht. apply nth_zip_with_add; [rewrite length_fmap|]; lia.
  - intros ->.
    destruct (compute_gae_spec rewards values dones last_value last_done
                gamma lam Hv Hd) as (A & Rt & Hrun' & _ & _ & Htop & Hrec & _).
    rewrite Hf in Hrun'. simplify_eq. simpl. rewrite list_fmap_id.
    split; [exact Htop | exact Hrec].
Qed.
End GAEFacts.

(** ** Seeds *)

Lemma elem_of_range n i : i ∈ range n <-> (0 <= i < n)%Z.
Proof.
  unfold range. rewrite list_elem_of_fmap. split.
  - intros (k & -> & Hk). apply elem_of_seq in Hk. lia.
  - intros Hi. exists (Z.to_nat i). split; [lia|]. apply elem_of_seq. lia.
Qed.

Lemma NoDup_range n : NoDup (range n).
Proof.
  unfold range. apply NoDup_fmap_2; [|apply NoDup_seq].
  intros x y. lia.
Qed.

Lemma env_seeds_eq args update :
  env_seeds args update
  = (fun i => seed args + update * num_workers args + i)%Z
    <$> range (num_workers args).
Proof. unfold env_seeds, spawn_args. by rewrite <- list_fmap_compose. Qed.

Lemma spawn_args_lookup args update i wa :
  spawn_args args update !! i = Some wa ->
  wa = {| wa_worker_id := Z.of_nat i;
          wa_steps_per_worker := steps_per_worker args;
          wa_seed := seed args + update * num_workers args |}.
Proof.
  unfold spawn_args, range. rewrite <- list_fmap_compose, list_lookup_fmap.
  intros H. destruct (seq 0 _ !! i) as [k|] eqn:Hk; [|done].
  apply lookup_seq in Hk as [-> _]. simpl in H. by simplify_eq.
Qed.

Section SeedFacts.
Context {F Env Obs Act Params Gen : Type}.
Variable env_reset_seed : Env -> Z -> Obs * Env.
Variable env_reset : Env -> Obs * Env.
Variable env_step : Env -> Act -> (Obs * F * bool * bool) * Env.
Variable sample_action : Params -> Obs -> Gen -> (Act * F * F) * Gen.
Variable value_estimate : Params -> Obs -> F.

(** C7.  In iteration [update] the process of worker [i] is passed the
    worker id [i] and the seed argument [seed + update * num_workers], the
    same for every worker; [worker_fn] resets its environment with that
    argument plus its worker id, and collects its trajectory in the
    environment that this reset leaves.  The environment seeds of one
    iteration are pairwise distinct, and no seed of one iteration is a seed
    of another iteration. *)
Theorem worker_seeds args update :
  (forall i wa, spawn_args args update !! i = Some wa ->
     wa_worker_id wa = Z.of_nat i
     /\ wa_seed wa = (seed args + update * num_workers args)%Z
     /\ env_seeds args update !! i
        = Some (seed args + update * num_workers args + Z.of_nat i)%Z
     /\ forall params env0 gen0,
          worker_fn env_reset_seed env_reset env_step sample_action
            value_estimate wa params env0 gen0
          = worker_rollout env_reset env_step sample_action value_estimate
              (steps_per_worker args) params
              (env_reset_seed env0
                 (seed args + update * num_workers args + Z.of_nat i)).2
              gen0)
  /\ wa_worker_id <$> spawn_args args update = range (num_workers args)
  /\ NoDup (env_seeds args update)
  /\ (forall update' s, update <> update' ->
        s ∈ env_seeds args update -> s ∉ env_seeds args update').
Proof.
  split; [|split; [|split]].
  - intros i wa Hwa. pose proof (spawn_args_lookup _ _ _ _ Hwa) as E.
    split; [by rewrite E|]. split; [by rewrite E|]. split.
    + unfold env_seeds. rewrite list_lookup_fmap, Hwa. by rewrite E.
    + intros params env0 gen0. unfold worker_fn. rewrite E.
      unfold worker_seed. simpl.
      by destruct (env_reset_seed env0 _) as [o env].
  - unfold spawn_args. rewrite <- list_fmap_compose. simpl.
    apply list_fmap_id.
  - rewrite env_seeds_eq. apply NoDup_fmap_2; [|apply NoDup_range].
    intros x y. lia.
  - intros update' s Hne. rewrite !env_seeds_eq, !list_elem_of_fmap.
    intros (i & -> & Hi) (j & Hj & Hj'). apply elem_of_range in Hi, Hj'.
    apply Hne. nia.
Qed.
End SeedFacts.

Lemma worker_seeds_witness :
  worker_fn toy_reset_seed toy_reset toy_step toy_sample toy_value
    {| wa_worker_id := 1; wa_steps_per_worker := 3; wa_seed := 6 |}
    () 0%Z 0%Z
  = worker_rollout toy_reset toy_step toy_sample toy_value 3 ()
      (toy_reset_seed 0 7).2 0%Z
  /\ env_seeds toy_args 1 !! 1%nat = Some 7%Z.
Proof.
  destruct (worker_seeds toy_reset_seed toy_reset toy_step toy_sample
              toy_value toy_args 1) as [H _].
  destruct (H 1%nat {| wa_worker_id := 1; wa_steps_per_worker := 3;
                       wa_seed := 6 |} eq_refl) as (_ & _ & Hs & Hw).
  split; [apply Hw | exact Hs].
Defined.

(** ** Start method *)

(** C8.  When setting the start method raises [RuntimeError] (the context
    has already been set), the [suppress] block ends normally and leaves
    the context as it was, and the rest of [main] runs exactly as if the
    block had not been there: the exception does not propagate. *)
Theorem start_method_conflict_swallowed {A} (training : mp_context -> result A)
    (ctx : mp_context) :
  (set_start_method Spawn ctx).1 = Raise RuntimeError ->
  setup_start_method ctx = (Ok (), ctx)
  /\ main_from_start_method training ctx = training ctx.
Proof.
  unfold main_from_start_method, setup_start_method, suppress.
  destruct ctx as [m|]; simpl; [done|]. intros [=].
Qed.

Lemma start_method_conflict_swallowed_witness :
  (set_start_method Spawn (Some Fork)).1 = Raise RuntimeError
  /\ setup_start_method (Some Fork) = (Ok (), Some Fork)
  /\ main_from_start_method (fun c => Ok c) (Some Fork) = Ok (Some Fork).
Proof.
  split; [reflexivity|].
  apply (start_method_conflict_swallowed (fun c => Ok c) (Some Fork)).
  reflexivity.
Defined.

(** ** Minibatches *)

Section ChunkFacts.
Context {A : Type}.
Implicit Types (l : list A) (s m : nat).

(** The chunks with the indices [0 .. m-1], laid end to end, are the
    first [m * s] elements. *)
Lemma concat_chunks l s m :
  concat ((fun start => Np.slice l start (start + s))
          <$> ((fun k => k * s) <$> seq 0 m))
  = take (m * s) l.
Proof.
  induction m as [|m IH]; [done|].
  rewrite seq_S, !fmap_app, concat_app, IH. simpl.
  rewrite app_nil_r. unfold Np.slice.
  replace (m * s + s - m * s) with s by lia.
  rewrite take_take_drop. f_equal. lia.
Qed.

Lemma slice_length l start stop :
  length (Np.slice l start stop)
  = (stop - start) `min` (length l - start).
Proof. unfold Np.slice. by rewrite length_take, length_drop. Qed.
End ChunkFacts.

Lemma div_up_bounds n s :
  0 < s -> 0 < n ->
  ((n + s - 1) `div` s - 1) * s < n /\ n <= (n + s - 1) `div` s * s.
Proof.
  intros Hs Hn.
  pose proof (Nat.div_mod_eq (n + s - 1) s) as E.
  pose proof (Nat.mod_upper_bound (n + s - 1) s ltac:(lia)) as U.
  assert (1 <= (n + s - 1) `div` s).
  { apply Nat.div_le_lower_bound; lia. }
  nia.
Qed.

Lemma range_step_pos stop step :
  (0 < step)%Z ->
  range_step stop step
  = Some ((fun k => k * Z.to_nat step)
          <$> seq 0 ((stop + Z.to_nat step - 1) `div` Z.to_nat step)).
Proof.
  intros H. unfold range_step.
  rewrite decide_False by lia. by rewrite decide_False by lia.
Qed.

(** The minibatches of one epoch cut the index array into consecutive
    pieces. *)
Lemma epoch_minibatches_partition (batch_size : nat) (minibatch_size : Z)
    (indices : list nat) :
  (0 < minibatch_size)%Z -> length indices = batch_size ->
  exists mbs,
    epoch_minibatches batch_size minibatch_size indices = Some mbs
    /\ concat mbs = indices
    /\ (forall j mb, mbs !! j = Some mb -> S j < length mbs ->
          length mb = Z.to_nat minibatch_size)
    /\ (forall mb, last mbs = Some mb ->
          0 < length mb <= Z.to_nat minibatch_size).
Proof.
  intros Hs <-. unfold epoch_minibatches.
  rewrite range_step_pos by done. simpl.
  set (s := Z.to_nat minibatch_size). assert (0 < s) as Hs' by lia.
  set (n := length indices).
  set (m := (n + s - 1) `div` s).
  eexists. split; [done|].
  assert (Hb : 0 < n -> (m - 1) * s < n <= m * s).
  { intros Hn. by apply div_up_bounds. }
  assert (Hm0 : n = 0 -> m = 0).
  { intros E. unfold m. rewrite E. apply Nat.div_small. lia. }
  split; [|split].
  - rewrite concat_chunks. apply take_ge. fold n.
    destruct (decide (n = 0)) as [->|Hn]; [lia|]. specialize (Hb ltac:(lia)). lia.
  - intros j mb Hj Hlast. rewrite !length_fmap, length_seq in Hlast.
    rewrite !list_lookup_fmap in Hj.
    rewrite lookup_seq_lt in Hj by lia. simpl in Hj. simplify_eq.
    rewrite slice_length. fold n.
    assert (0 < n) as Hn by (destruct (decide (n = 0)) as [E|]; [apply Hm0 in E|]; lia).
    specialize (Hb Hn). nia.
  - intros mb Hmb. rewrite last_lookup in Hmb.
    rewrite !length_fmap, length_seq in Hmb.
    rewrite !list_lookup_fmap in Hmb.
    destruct (decide (m = 0)) as [E|E].
    { rewrite E in Hmb. done. }
    rewrite lookup_seq_lt in Hmb by lia. simpl in Hmb. simplify_eq.
    rewrite slice_length. fold n.
    assert (0 < n) as Hn by (destruct (decide (n = 0)) as [E'|]; [apply Hm0 in E'|]; lia).
    specialize (Hb Hn). nia.
Qed.

Lemma concat_lookup_unique {A} (L : list (list A)) j1 j2 m1 m2 x :
  NoDup (concat L) ->
  L !! j1 = Some m1 -> L !! j2 = Some m2 -> x ∈ m1 -> x ∈ m2 -> j1 = j2.
Proof.
  revert j1 j2. induction L as [|l L IH]; intros j1 j2 Hnd H1 H2 X1 X2.
  { done. }
  simpl in Hnd. apply NoDup_app in Hnd as (_ & Hdisj & HndL).
  assert (Hin : forall j m, L !! j = Some m -> x ∈ m -> x ∈ concat L).
  { intros j m Hj Hx. apply list_elem_of_In, in_concat. exists m.
    split; apply list_elem_of_In; [|done]. by eapply list_elem_of_lookup_2. }
  destruct j1 as [|j1], j2 as [|j2]; simpl in *; simplify_eq.
  - done.
  - exfalso. eapply Hdisj; [exact X1|]. by eapply Hin.
  - exfalso. eapply Hdisj; [exact X2|]. by eapply Hin.
  - f_equal. by eapply IH.
Qed.

Lemma concat_elem_lookup {A} (L : list (list A)) x :
  x ∈ concat L -> exists j m, L !! j = Some m /\ x ∈ m.
Proof.
  intros Hx. apply list_elem_of_In, in_concat in Hx as (m & Hm & Hx).
  apply list_elem_of_In, list_elem_of_lookup in Hm as (j & Hj).
  exists j, m. split; [done|]. by apply list_elem_of_In.
Qed.

Section ScheduleFacts.
Context {Rng : Type} (rng_permutation : Rng -> nat -> list nat * Rng).

Lemma epochs_minibatches_spec epochs batch_size minibatch_size rng :
  (forall g n, length (rng_permutation g n).1 = n) ->
  (0 < minibatch_size)%Z ->
  exists sched,
    epochs_minibatches rng_permutation epochs batch_size minibatch_size rng
    = Some (sched, rng_after rng_permutation epochs batch_size rng)
    /\ length sched = epochs
    /\ forall e mbs, sched !! e = Some mbs ->
         epoch_minibatches batch_size minibatch_size
           (rng_permutation (rng_after rng_permutation e batch_size rng)
                            batch_size).1
         = Some mbs.
Proof.
  intros Hlen Hs. revert rng. induction epochs as [|epochs IH]; intros rng.
  { exists []. simpl. repeat split. intros e mbs. done. }
  simpl. destruct (rng_permutation rng batch_size) as [indices rng1] eqn:E.
  destruct (epoch_minibatches_partition batch_size minibatch_size indices)
    as (mbs & Hmbs & _); [done| |].
  { specialize (Hlen rng batch_size). by rewrite E in Hlen. }
  destruct (IH rng1) as (sched & Hrun & Hl & Hsched).
  rewrite Hmbs. simpl. rewrite Hrun. simpl.
  exists (mbs :: sched). split; [done|]. split; [simpl; lia|].
  intros [|e] mbs' He; simpl in *.
  - rewrite E. simpl. congruence.
  - rewrite E. simpl. by apply Hsched.
Qed.
End ScheduleFacts.

(** C5.  Each epoch of [ppo_update] draws its own permutation of the batch
    indices from the generator, and its minibatches are the consecutive
    pieces of that permutation: every batch index lies in exactly one
    minibatch of the epoch, every minibatch but the last holds
    [minibatch_size] indices, and the last one holds between one and
    [minibatch_size]. *)
Theorem minibatches_cover {Rng} (rng_permutation : Rng -> nat -> list nat * Rng)
    (num_epochs : Z) (batch_size : nat) (minibatch_size : Z) (rng : Rng) :
  (forall g n, (rng_permutation g n).1 ≡ₚ seq 0 n) ->
  (0 < minibatch_size)%Z ->
  exists sched,
    ppo_schedule rng_permutation num_epochs batch_size minibatch_size rng
    = Some (sched, rng_after rng_permutation (Z.to_nat num_epochs)
                             batch_size rng)
    /\ length sched = Z.to_nat num_epochs
    /\ forall e mbs, sched !! e = Some mbs ->
         concat mbs
         = (rng_permutation (rng_after rng_permutation e batch_size rng)
                            batch_size).1
         /\ concat mbs ≡ₚ seq 0 batch_size
         /\ (forall i, i < batch_size ->
               exists j mb, mbs !! j = Some mb /\ i ∈ mb
                 /\ forall j' mb', mbs !! j' = Some mb' -> i ∈ mb' -> j' = j)
         /\ (forall j mb, mbs !! j = Some mb -> S j < length mbs ->
               length mb = Z.to_nat minibatch_size)
         /\ (forall mb, last mbs = Some mb ->
               0 < length mb <= Z.to_nat minibatch_size).
Proof.
  intros Hperm Hs.
  assert (Hlen : forall g n, length (rng_permutation g n).1 = n).
  { intros g n. rewrite (Hperm g n). apply length_seq. }
  destruct (epochs_minibatches_spec rng_permutation (Z.to_nat num_epochs)
              batch_size minibatch_size rng Hlen Hs)
    as (sched & Hrun & Hl & Hsched).
  exists sched. split; [exact Hrun|]. split; [exact Hl|].
  intros e mbs He. specialize (Hsched e mbs He).
  set (indices := (rng_permutation
                     (rng_after rng_permutation e batch_size rng)
                     batch_size).1) in *.
  destruct (epoch_minibatches_partition batch_size minibatch_size indices
              Hs (Hlen _ _))
    as (mbs' & Hmbs' & Hcat & Hfull & Hlast).
  assert (mbs' = mbs) as -> by congruence.
  assert (Hp : concat mbs ≡ₚ seq 0 batch_size).
  { rewrite Hcat. apply Hperm. }
  split; [done|]. split; [done|]. split; [|done].
  intros i Hi.
  assert (Hin : i ∈ concat mbs).
  { rewrite Hp. apply elem_of_seq. lia. }
  destruct (concat_elem_lookup _ _ Hin) as (j & mb & Hj & Hmb).
  exists j, mb. split; [done|]. split; [done|].
  intros j' mb' Hj' Hmb'.
  eapply (concat_lookup_unique mbs); [|done..].
  rewrite Hp. apply NoDup_seq.
Qed.

(** ** Episode statistics *)

Section EpisodeFacts.
Context {F : Type} (rO : F) (radd : F -> F -> F).
Local Infix "+" := radd.
Local Abbreviation scan_step := (@scan_step F rO radd).
Local Abbreviation scan_records := (@scan_records F rO radd).

Lemma scan_foldl (st : scan_state) (l : list (F * bool)) :
  scan_stats (foldl scan_step st l)
  = record_all (scan_stats st)
      (scan_records (current_episode_reward st) (current_episode_length st) l).
Proof.
  revert st. induction l as [|[r d] l IH]; intros st.
  { destruct st as [cr cl [rs ls n]]. unfold record_all. simpl.
    by rewrite Nat.add_0_r. }
  change (foldl scan_step st ((r, d) :: l))
    with (foldl scan_step (scan_step st (r, d)) l).
  rewrite IH. destruct d; simpl; [|done].
  unfold record_all. simpl. f_equal. lia.
Qed.

Lemma episode_start_cons d ds k :
  episode_start (d :: ds) (S k)
  = if decide (episode_start ds k = 0) then (if d then 1 else 0)
    else S (episode_start ds k).
Proof.
  induction k as [|k IH]; [done|].
  change (episode_start (d :: ds) (S (S k)))
    with (if nth k ds false then S (S k) else episode_start (d :: ds) (S k)).
  change (episode_start ds (S k))
    with (if nth k ds false then S k else episode_start ds k).
  destruct (nth k ds false); [done|]. exact IH.
Qed.

Lemma dones_before_cons d ds k :
  dones_before (d :: ds) (S k) = ((if d then 1 else 0) + dones_before ds k)%nat.
Proof.
  unfold dones_before. simpl. rewrite filter_cons.
  destruct d; case_decide; done.
Qed.

Lemma scan_records_length cr cl rewards dones :
  length rewards = length dones ->
  length (scan_records cr cl (zip rewards dones))
  = dones_before dones (length dones).
Proof.
  revert cr cl rewards.
  induction dones as [|d ds IH]; intros cr cl [|r rs] Hlen; try done.
  simpl in Hlen. change (length (d :: ds)) with (S (length ds)).
  rewrite dones_before_cons. simpl.
  destruct d; simpl; rewrite IH by lia; done.
Qed.

Lemma scan_records_lookup cr cl rewards dones k :
  length rewards = length dones ->
  dones !! k = Some true ->
  scan_records cr cl (zip rewards dones) !! dones_before dones k
  = Some (foldl radd (if decide (episode_start dones k = 0) then cr else rO)
                (Np.slice rewards (episode_start dones k) (S k)),
          ((if decide (episode_start dones k = 0) then cl else 0)
           + (S k - episode_start dones k))%nat).
Proof.
  revert cr cl rewards k.
  induction dones as [|d ds IH]; intros cr cl [|r rs] k Hlen Hk; try done.
  simpl in Hlen. destruct k as [|k].
  - simpl in Hk. simplify_eq. done.
  - simpl in Hk. rewrite dones_before_cons, episode_start_cons.
    specialize (IH (if d then rO else cr + r) (if d then 0 else cl + 1)%nat
                   rs k ltac:(lia) Hk).
    destruct d; simpl; rewrite IH; f_equal; unfold Np.slice;
      destruct (decide (episode_start ds k = 0)) as [E|E];
      rewrite ?E; simpl; rewrite ?drop_0;
      first [done | f_equal; lia].
Qed.

(** C9.  The scan of a trajectory starts from zeroed accumulators whatever
    the statistics held before, so the episodes it records depend on this
    trajectory alone.  It records one episode per done flag, in order: for
    a done flag at index [k] the reward it records is the sum of
    [rewards[i..k]], where [i] is the index after the previous done flag
    of the trajectory, or 0, and the length is [k - i + 1].  It records
    nothing else: the steps after the last done flag are in no recorded
    episode. *)
Theorem episode_scan (s : stats) (rewards : list F) (dones : list bool) :
  length rewards = length dones ->
  exists recs : list (F * nat),
    scan_trajectory rO radd s rewards dones = record_all s recs
    /\ length recs = dones_before dones (length dones)
    /\ forall k, dones !! k = Some true ->
         recs !! dones_before dones k
         = Some (reward_sum rO radd rewards (episode_start dones k) k,
                 S k - episode_start dones k).
Proof.
  intros Hlen. exists (scan_records rO 0 (zip rewards dones)).
  split; [|split].
  - unfold scan_trajectory. by rewrite scan_foldl.
  - by apply scan_records_length.
  - intros k Hk. rewrite (scan_records_lookup rO 0 rewards dones k Hlen Hk).
    unfold reward_sum. by destruct (decide _).
Qed.
End EpisodeFacts.

(** ** The rollout and the batch *)

Section WorkerFacts.
Context {F : Type} (rO rI : F) (radd rmul rsub : F -> F -> F) (ropp : F -> F).
Context (trunc : F -> F).
Hypothesis Fth : ring_theory rO rI radd rmul rsub ropp eq.
Context {Env Obs Act Params Gen : Type}.
Variable env_reset_seed : Env -> Z -> Obs * Env.
Variable env_reset : Env -> Obs * Env.
Variable env_step : Env -> Act -> (Obs * F * bool * bool) * Env.
Variable sample_action : Params -> Obs -> Gen -> (Act * F * F) * Gen.
Variable value_estimate : Params -> Obs -> F.

Local Abbreviation state := (@rollout_state F Env Obs Act Gen).
Local Abbreviation body := (rollout_body env_reset env_step sample_action).
Local Abbreviation loop := (rollout_loop env_reset env_step sample_action).
Local Abbreviation worker :=
  (worker_fn env_reset_seed env_reset env_step sample_action value_estimate).

(** A property that the loop body keeps while the loop condition holds is
    true when the loop ends, and then the condition is false. *)
Lemma rollout_loop_invariant (P : state -> Prop) params steps :
  (forall st, P st -> (rs_current_step st < steps)%Z ->
              P (body params st)) ->
  forall st, P st ->
    P (loop params steps st)
    /\ ~ (rs_current_step (loop params steps st) < steps)%Z.
Proof.
  intros Hbody st.
  funelim (loop params steps st).
  - intros HP. match goal with IH : forall P : _ -> Prop, _ |- _ =>
      apply IH; [exact Hbody | by apply Hbody] end.
  - intros HP. split; [done | lia].
Qed.

Lemma rollout_body_lengths params st n :
  rollout_lengths st n -> rollout_lengths (body params st) (S n)
  /\ is_Some (rs_done (body params st)).
Proof.
  unfold rollout_lengths, rollout_body.
  intros (H1 & H2 & H3 & H4 & H5 & H6).
  destruct (sample_action _ _ _) as [[[action log_prob] value] gen].
  destruct (env_step _ _) as [[[[next_obs reward] terminated] truncated] env].
  destruct (if terminated || truncated then _ else _) as [obs env'].
  simpl. rewrite !length_app. simpl. split; [lia|]. by eexists.
Qed.

Lemma rollout_loop_lengths params steps st :
  (0 <= rs_current_step st <= steps)%Z ->
  rollout_lengths st (Z.to_nat (rs_current_step st)) ->
  ((0 < rs_current_step st)%Z -> is_Some (rs_done st)) ->
  let st' := loop params steps st in
  rs_current_step st' = steps
  /\ rollout_lengths st' (Z.to_nat steps)
  /\ ((0 < steps)%Z -> is_Some (rs_done st')).
Proof.
  intros Hstep Hlen Hdone.
  destruct (rollout_loop_invariant
              (fun st => (0 <= rs_current_step st <= steps)%Z
                 /\ rollout_lengths st (Z.to_nat (rs_current_step st))
                 /\ ((0 < rs_current_step st)%Z -> is_Some (rs_done st)))
              params steps) with (st := st) as [(Hs & Hl & Hd) Hexit].
  - clear. intros st (Hs & Hl & _) Hlt.
    rewrite rollout_body_step.
    destruct (rollout_body_lengths params st _ Hl) as [Hl' Hd'].
    split; [lia|]. split; [|done].
    by replace (Z.to_nat (rs_current_step st + 1))
      with (S (Z.to_nat (rs_current_step st))) by lia.
  - done.
  - simpl. assert (E : rs_current_step (loop params steps st) = steps)
      by lia.
    rewrite E in Hl, Hd. done.
Qed.

Lemma rollout_loop_exit params steps st :
  ~ (rs_current_step st < steps)%Z -> loop params steps st = st.
Proof.
  intros H. simp rollout_loop.
  destruct (decide (rs_current_step st < steps)%Z); [done|].
  by simp rollout_loop.
Qed.

Lemma worker_fn_Some wa params env0 gen0 :
  (0 < wa_steps_per_worker wa)%Z ->
  exists data,
    worker wa params env0 gen0 = Some data
    /\ trajectory_lengths data (Z.to_nat (wa_steps_per_worker wa)).
Proof.
  intros Hpos. unfold worker_fn, worker_rollout.
  destruct (env_reset_seed env0 (worker_seed wa)) as [o env].
  destruct (env_reset env) as [obs env1].
  match goal with |- context [loop params ?n ?st0] =>
    destruct (rollout_loop_lengths params n st0) as (_ & Hl & Hd) end.
  - simpl. lia.
  - simpl. by repeat split.
  - simpl. lia.
  - destruct (Hd Hpos) as [d Hd']. simpl in *. rewrite Hd'. simpl.
    eexists. split; [done|]. exact Hl.
Qed.

Lemma worker_fn_None wa params env0 gen0 :
  (wa_steps_per_worker wa <= 0)%Z -> worker wa params env0 gen0 = None.
Proof.
  intros Hle. unfold worker_fn, worker_rollout.
  destruct (env_reset_seed env0 (worker_seed wa)) as [o env].
  destruct (env_reset env) as [obs env1].
  rewrite rollout_loop_exit by (simpl; lia). done.
Qed.
Lemma gather_trajectories_spec params env0 gen0 (arrival : list worker_args) n :
  (0 < n)%Z ->
  (forall wa, wa ∈ arrival -> wa_steps_per_worker wa = n) ->
  exists all,
    gather_trajectories env_reset_seed env_reset env_step sample_action
      value_estimate params env0 gen0 arrival = Some all
    /\ length all = length arrival
    /\ Forall (fun data => trajectory_lengths data (Z.to_nat n)) all.
Proof.
  intros Hn. unfold gather_trajectories.
  induction arrival as [|wa arrival IH]; intros Hsteps.
  { exists []. by repeat split. }
  destruct (worker_fn_Some wa params env0 gen0) as (data & Hdata & Hlen).
  { rewrite Hsteps; [done|]. by left. }
  destruct IH as (all & Hall & Hl & Hf).
  { intros wa' Hwa'. apply Hsteps. by right. }
  exists (data :: all). simpl. rewrite Hdata. simpl. rewrite Hall. simpl.
  split; [done|]. split; [by rewrite Hl|].
  constructor; [|done]. rewrite Hsteps in Hlen; [done|]. by left.
Qed.

Lemma gae_all_spec gamma lam (all : list (@trajectory_data F Obs Act)) n :
  Forall (fun data => trajectory_lengths data n) all ->
  exists gae,
    mapM (fun data =>
            compute_gae rO rI radd rmul rsub trunc Np.float_
              (rewards data) (values data) (dones data)
              (last_value data) (last_done data) gamma lam) all
    = Some gae
    /\ length gae = length all
    /\ Forall (fun ar => length ar.1 = n /\ length ar.2 = n) gae.
Proof.
  induction 1 as [|data all Hdata Hall IH].
  { exists []. by repeat split. }
  destruct Hdata as (_ & _ & _ & Hr & Hd & Hv).
  destruct (compute_gae_spec rO rI radd rmul rsub ropp trunc Fth
              (rewards data) (values data) (dones data)
              (last_value data) (last_done data) gamma lam)
    as (adv & ret & Hrun & Ha & Hret & _); [lia..|].
  destruct IH as (gae & Hgae & Hl & Hf).
  exists ((adv, ret) :: gae). simpl. rewrite Hrun. simpl. rewrite Hgae. simpl.
  split; [done|]. split; [by rewrite Hl|].
  constructor; [simpl; lia|done].
Qed.

Lemma np_concatenate_length {A B} (f : B -> list A) (l : list B) n :
  l <> [] -> Forall (fun x => length (f x) = n) l ->
  exists c, np_concatenate (f <$> l) = Some c /\ length c = length l * n.
Proof.
  intros Hne Hf. exists (concat (f <$> l)). split.
  { destruct l; done. }
  clear Hne. induction Hf as [|x l Hx Hl IH]; [done|].
  rewrite fmap_cons. cbn [concat length]. rewrite length_app, IH, Hx. done.
Qed.

Lemma build_batch_spec gamma lam (all : list (@trajectory_data F Obs Act)) n :
  all <> [] ->
  Forall (fun data => trajectory_lengths data n) all ->
  exists b,
    build_batch rO rI radd rmul rsub trunc gamma lam all = Some b
    /\ length (batch_obs b) = length all * n
    /\ length (batch_actions b) = length all * n
    /\ length (batch_log_probs_old b) = length all * n
    /\ length (batch_advantages b) = length all * n
    /\ length (batch_returns b) = length all * n.
Proof.
  intros Hne Hall. unfold build_batch.
  destruct (gae_all_spec gamma lam all n Hall) as (gae & Hgae & Hl & Hf).
  rewrite Hgae. simpl.
  destruct (np_concatenate_length observations all n Hne) as (c1 & -> & L1).
  { eapply Forall_impl; [exact Hall|]. by intros data (? & _). }
  destruct (np_concatenate_length actions all n Hne) as (c2 & -> & L2).
  { eapply Forall_impl; [exact Hall|]. by intros data (_ & ? & _). }
  destruct (np_concatenate_length log_probs all n Hne) as (c3 & -> & L3).
  { eapply Forall_impl; [exact Hall|]. by intros data (_ & _ & ? & _). }
  assert (Hne' : gae <> []).
  { intros ->. destruct all; done. }
  destruct (np_concatenate_length fst gae n Hne') as (c4 & -> & L4).
  { eapply Forall_impl; [exact Hf|]. by intros ar (? & _). }
  destruct (np_concatenate_length snd gae n Hne') as (c5 & -> & L5).
  { eapply Forall_impl; [exact Hf|]. by intros ar (_ & ?). }
  simpl. eexists. split; [done|]. simpl. rewrite Hl in L4, L5. done.
Qed.

(** C4.  Whatever the environment does (at whatever steps episodes end
    and the environment is reset), and in whatever order the results
    arrive, in every iteration each worker delivers a trajectory whose
    arrays hold exactly [steps_per_worker] transitions, and the batch
    built from the [num_workers] trajectories holds
    [num_workers * steps_per_worker] transitions. *)
Theorem trajectory_and_batch_size (args : Args) (update : Z) params env0 gen0
    gamma lam (arrival : list worker_args) :
  (0 < num_workers args)%Z ->
  (0 < steps_per_worker args)%Z ->
  arrival ≡ₚ spawn_args args update ->
  exists all b,
    gather_trajectories env_reset_seed env_reset env_step sample_action
      value_estimate params env0 gen0 arrival = Some all
    /\ length all = Z.to_nat (num_workers args)
    /\ (forall data, data ∈ all ->
          trajectory_lengths data (Z.to_nat (steps_per_worker args)))
    /\ build_batch rO rI radd rmul rsub trunc gamma lam all = Some b
    /\ Z.of_nat (length (batch_obs b))
       = (num_workers args * steps_per_worker args)%Z
    /\ Z.of_nat (length (batch_actions b))
       = (num_workers args * steps_per_worker args)%Z
    /\ Z.of_nat (length (batch_log_probs_old b))
       = (num_workers args * steps_per_worker args)%Z
    /\ Z.of_nat (length (batch_advantages b))
       = (num_workers args * steps_per_worker args)%Z
    /\ Z.of_nat (length (batch_returns b))
       = (num_workers args * steps_per_worker args)%Z.
Proof.
  intros Hw Hs Harr.
  assert (Hlen : length arrival = Z.to_nat (num_workers args)).
  { rewrite Harr. unfold spawn_args, range.
    by rewrite !length_fmap, length_seq. }
  destruct (gather_trajectories_spec params env0 gen0 arrival
              (steps_per_worker args) Hs)
    as (all & Hall & Hl & Hf).
  { intros wa Hwa. rewrite Harr in Hwa. unfold spawn_args in Hwa.
    apply list_elem_of_fmap in Hwa as (i & -> & _). done. }
  destruct (build_batch_spec gamma lam all (Z.to_nat (steps_per_worker args)))
    as (b & Hb & L1 & L2 & L3 & L4 & L5); [|done|].
  { intros ->. simpl in Hl. lia. }
  exists all, b. split; [done|]. split; [lia|].
  split; [by apply Forall_forall|]. split; [done|].
  rewrite L1, L2, L3, L4, L5, Hl, Hlen. repeat split; lia.
Qed.
End WorkerFacts.

(** ** Advantage normalisation *)

Section NormalizeFacts.
Open Scope R_scope.

Lemma div_Some a b : b <> 0 -> Torch.div a b = Some (a / b).
Proof. intros Hb. unfold Torch.div. by destruct (Req_dec_T b 0). Qed.

Lemma div_None a : Torch.div a 0 = None.
Proof. unfold Torch.div. by destruct (Req_dec_T 0 0). Qed.

Lemma mean_Some (x : list R) :
  (1 <= length x)%nat -> Torch.mean x = Some (Torch.sum x / INR (length x)).
Proof.
  intros Hn. unfold Torch.mean. apply div_Some.
  apply not_0_INR. lia.
Qed.

Lemma std_Some (x : list R) :
  (2 <= length x)%nat ->
  exists m sd,
    Torch.mean x = Some m /\ Torch.std x = Some sd /\ 0 <= sd
    /\ sd = sqrt (Torch.sum ((fun a => (a - m) ^ 2) <$> x)
                  / (INR (length x) - 1)).
Proof.
  intros Hn. unfold Torch.std. rewrite mean_Some by lia. simpl.
  rewrite div_Some.
  - simpl. eexists _, _. split; [done|]. split; [done|].
    split; [apply sqrt_pos | done].
  - apply le_INR in Hn. simpl in Hn. lra.
Qed.

Lemma std_single (a : R) : Torch.std [a] = None.
Proof.
  unfold Torch.std. rewrite mean_Some by (simpl; lia). simpl.
  replace (1 - 1) with 0 by lra. by rewrite div_None.
Qed.

Lemma mapM_div_Some (x : list R) m d :
  d <> 0 ->
  mapM (fun a => Torch.div (a - m) d) x = Some ((fun a => (a - m) / d) <$> x).
Proof.
  intros Hd. apply mapM_Some. induction x as [|a x IH]; simpl.
  - constructor.
  - constructor; [by apply div_Some | done].
Qed.

Lemma take_indices_advantages {Obs Act} (b : @batch R Obs Act) norm idx
    (mb : @minibatch Obs Act) :
  take_minibatch b norm idx = Some mb ->
  Torch.take_indices norm idx = Some (mb_advantages mb).
Proof.
  unfold take_minibatch. intros H.
  destruct (Torch.take_indices (batch_obs b) idx); [|done]. simpl in H.
  destruct (Torch.take_indices (batch_actions b) idx); [|done]. simpl in H.
  destruct (Torch.take_indices (batch_log_probs_old b) idx); [|done].
  simpl in H.
  destruct (Torch.take_indices norm idx); [|done]. simpl in H.
  destruct (Torch.take_indices (batch_returns b) idx); [|done]. simpl in H.
  by simplify_eq.
Qed.
End NormalizeFacts.

(** C6, as the code has it.  [ppo_update] normalises the advantages of the
    whole batch once, as [(advantages - mean) / (std + 1e-8)], and every
    minibatch of every epoch takes its advantages from that one normalised
    array.  For a batch of at least two entries the standard deviation is
    a non-negative real number, so the divisor is at least [1e-8], zero
    variance included, and the normalisation divides by no zero. *)
Theorem normalize_advantages_once {Model Obs Act Rng : Type}
    (rng_permutation : Rng -> nat -> list nat * Rng)
    (minibatch_step : Model -> @minibatch Obs Act -> Model)
    (b : @batch R Obs Act) :
  2 <= length (batch_advantages b) ->
  exists (m sd : R) (norm : list R),
    Torch.mean (batch_advantages b) = Some m
    /\ Torch.std (batch_advantages b) = Some sd
    /\ (0 <= sd)%R
    /\ (1e-8 <= sd + 1e-8)%R
    /\ norm = (fun a => ((a - m) / (sd + 1e-8))%R) <$> batch_advantages b
    /\ normalize_advantages (batch_advantages b) = Some norm
    /\ forall model num_epochs minibatch_size rng mbs model' rng',
         ppo_update rng_permutation minibatch_step model b num_epochs
                    minibatch_size rng
         = Some (mbs, model', rng') ->
         forall mb, mb ∈ mbs ->
           exists idx, Torch.take_indices norm idx = Some (mb_advantages mb).
Proof.
  intros Hn.
  destruct (std_Some (batch_advantages b) Hn) as (m & sd & Hm & Hsd & Hpos & _).
  assert (Hnorm : normalize_advantages (batch_advantages b)
                  = Some ((fun a => ((a - m) / (sd + 1e-8))%R)
                          <$> batch_advantages b)).
  { unfold normalize_advantages. rewrite Hm, Hsd. simpl.
    apply mapM_div_Some. lra. }
  exists m, sd, ((fun a => ((a - m) / (sd + 1e-8))%R) <$> batch_advantages b).
  split; [done|]. split; [done|]. split; [done|].
  split; [lra|]. split; [reflexivity|]. split; [exact Hnorm|].
  intros model num_epochs minibatch_size rng mbs model' rng' Hrun mb Hmb.
  unfold ppo_update in Hrun. rewrite Hnorm in Hrun. simpl in Hrun.
  destruct (ppo_schedule _ _ _ _ _) as [[sched rng1]|]; [|done].
  simpl in Hrun.
  destruct (mapM _ (concat sched)) as [mbs1|] eqn:Hmap; [|done].
  simpl in Hrun. simplify_eq.
  apply mapM_Some in Hmap.
  apply list_elem_of_lookup in Hmb as [j Hj].
  destruct (Forall2_lookup_r _ _ _ _ _ Hmap Hj) as (idx & _ & Hidx).
  exists idx. by eapply take_indices_advantages.
Qed.

(** The claim C6 fails on a batch of a single advantage: the standard
    deviation divides by [N - 1 = 0] and is not a number, and neither are
    the divisor and the normalised advantages. *)
Lemma normalize_advantages_single :
  Torch.std [1%R] = None /\ normalize_advantages [1%R] = None.
Proof.
  split; [apply std_single|].
  unfold normalize_advantages. rewrite std_single.
  by destruct (Torch.mean [1%R]).
Qed.

(** ** The log-probability of a squashed Gaussian action *)

Section LogProbFacts.
Open Scope R_scope.

Lemma tanh_exp x : tanh x = (exp x * exp x - 1) / (exp x * exp x + 1).
Proof.
  unfold tanh, sinh, cosh. rewrite exp_Ropp.
  pose proof (exp_pos x) as He. field. split; nra.
Qed.

Lemma tanh_bounds x : -1 < tanh x < 1.
Proof.
  rewrite tanh_exp. pose proof (exp_pos x) as He.
  assert (0 < exp x * exp x + 1) by nra.
  split.
  - apply Rmult_lt_reg_r with (exp x * exp x + 1); [done|].
    unfold Rdiv. rewrite Rmult_assoc, Rinv_l by lra. nra.
  - apply Rmult_lt_reg_r with (exp x * exp x + 1); [done|].
    unfold Rdiv. rewrite Rmult_assoc, Rinv_l by lra. nra.
Qed.

(** [atanh] undoes [tanh]. *)
Lemma atanh_tanh x : Torch.atanh (tanh x) = x.
Proof.
  unfold Torch.atanh. rewrite tanh_exp. pose proof (exp_pos x) as He.
  replace ((1 + (exp x * exp x - 1) / (exp x * exp x + 1))
           / (1 - (exp x * exp x - 1) / (exp x * exp x + 1)))
    with (exp (x + x)).
  - rewrite ln_exp. lra.
  - rewrite exp_plus. field. split; nra.
Qed.

Lemma tanh_half_ln k : 0 < k -> tanh (ln k / 2) = (k - 1) / (k + 1).
Proof.
  intros Hk. rewrite tanh_exp, <- exp_plus.
  replace (ln k / 2 + ln k / 2) with (ln k) by lra.
  by rewrite exp_ln.
Qed.

Lemma clamp_inside x lo hi : lo <= x <= hi -> Torch.clamp x lo hi = x.
Proof.
  intros [Hlo Hhi]. unfold Torch.clamp.
  rewrite Rmax_left by done. by apply Rmin_left.
Qed.

(** With scale 1 and bias 0 the sampled action is [tanh x_t]. *)
Lemma sample_action_unit mean log_std x_t :
  (sample_log_prob mean log_std (replicate (length x_t) 1)
                   (replicate (length x_t) 0) x_t).1
  = tanh <$> x_t.
Proof.
  unfold sample_log_prob. simpl.
  induction x_t as [|x x_t IH]; [done|].
  simpl. f_equal; [lra|]. exact IH.
Qed.

(** Inside the clamp range the update path recovers the draw, and with it
    the Gaussian term. *)
Lemma update_gaussian_roundtrip mean log_std x_t :
  Forall (fun x => -1 + EPSILON <= tanh x <= 1 - EPSILON) x_t ->
  update_log_prob_gaussian mean log_std (tanh <$> x_t)
  = sample_log_prob_gaussian mean log_std x_t.
Proof.
  intros Hin. unfold update_log_prob_gaussian, sample_log_prob_gaussian.
  do 2 f_equal. rewrite <- !list_fmap_compose.
  induction Hin as [|x x_t Hx _ IH]; [done|].
  rewrite !fmap_cons, IH. f_equal. simpl.
  rewrite clamp_inside by done. apply atanh_tanh.
Qed.

Lemma sum_zip_with_minus (a b : list R) :
  length a = length b ->
  Torch.sum (zip_with Rminus a b) = Torch.sum a - Torch.sum b.
Proof.
  revert b. induction a as [|x a IH]; intros [|y b] Hlen; simpl in *;
    try lia; try lra.
  rewrite IH by lia. lra.
Qed.

(** The recorded log-probability is the Gaussian term less the squash
    correction. *)
Lemma sample_log_prob_split mean log_std action_scale action_bias x_t :
  length mean = length x_t -> length log_std = length x_t ->
  length action_scale = length x_t ->
  (sample_log_prob mean log_std action_scale action_bias x_t).2
  = sample_log_prob_gaussian mean log_std x_t
    - sample_squash_correction action_scale x_t.
Proof.
  intros H1 H2 H3. unfold sample_log_prob. simpl.
  rewrite sum_zip_with_minus; [done|].
  repeat (rewrite length_fmap || rewrite length_zip_with). lia.
Qed.
End LogProbFacts.

Section LogProbGap.
Open Scope R_scope.

Lemma exp_eighth : exp (1 / 8) < 8 / 7.
Proof.
  pose proof (exp_ineq1 (- (1 / 8)) ltac:(lra)) as H.
  rewrite exp_Ropp in H. pose proof (exp_pos (1 / 8)) as Hp.
  assert (Hinv : / exp (1 / 8) * exp (1 / 8) = 1) by (apply Rinv_l; lra).
  nra.
Qed.

(** Two logarithms whose arguments differ by a factor above [8/7] differ by
    more than [1/8]. *)
Lemma ln_gap a b : 0 < b -> 8 / 7 * b <= a -> ln a - ln b > 1 / 8.
Proof.
  intros Hb Hab. pose proof exp_eighth as He. pose proof (exp_pos (1 / 8)).
  assert (Hlt : ln (b * exp (1 / 8)) < ln a).
  { apply ln_increasing; nra. }
  rewrite ln_mult, ln_exp in Hlt by done. lra.
Qed.

Lemma tanh_x_gap : tanh x_gap = 99998 / 100000.
Proof. unfold x_gap. rewrite tanh_half_ln by lra. lra. Qed.

Lemma x_gap_inside :
  Forall (fun x => -1 + EPSILON <= tanh x <= 1 - EPSILON) [x_gap; x_gap].
Proof.
  repeat constructor; rewrite tanh_x_gap; unfold EPSILON; lra.
Qed.
End LogProbGap.

(** X22.  What holds of the round trip.  With the action scale 1 and the
    action bias 0 of the program's action space, and for a draw whose
    squashed value lies inside the clamp range [[-1 + EPSILON, 1 -
    EPSILON]] in every dimension, the sampling path yields the action
    [tanh x_t], the update path fed that action recovers the draw [x_t]
    with its inverse [tanh], and so the Gaussian log-probability term of
    the update path equals the Gaussian term of the recorded
    log-probability.  The recorded log-probability is that term less the
    squash correction of the sampling path, and the recomputed one is it
    less the squash correction of the update path: the two differ by the
    difference of the two corrections. *)
Theorem log_prob_roundtrip (mean log_std x_t : list R) :
  Forall (fun x => (-1 + EPSILON <= tanh x <= 1 - EPSILON)%R) x_t ->
  length mean = length x_t -> length log_std = length x_t ->
  let action_scale := replicate (length x_t) 1%R in
  let action_bias := replicate (length x_t) 0%R in
  let sampled := sample_log_prob mean log_std action_scale action_bias x_t in
  sampled.1 = tanh <$> x_t
  /\ Torch.atanh
       <$> ((fun a => Torch.clamp a (-1 + EPSILON) (1 - EPSILON)) <$> sampled.1)
     = x_t
  /\ update_log_prob_gaussian mean log_std sampled.1
     = sample_log_prob_gaussian mean log_std x_t
  /\ sampled.2
     = (sample_log_prob_gaussian mean log_std x_t
        - sample_squash_correction action_scale x_t)%R
  /\ update_log_prob mean log_std sampled.1
     = (sample_log_prob_gaussian mean log_std x_t
        - update_squash_correction sampled.1)%R.
Proof.
  intros Hin Hm Hl action_scale action_bias sampled.
  subst action_scale action_bias sampled.
  rewrite sample_action_unit.
  split; [done|]. split; [|split; [|split]].
  - rewrite <- !list_fmap_compose. clear Hm Hl.
    induction Hin as [|x x_t Hx _ IH]; [done|].
    rewrite fmap_cons, IH. f_equal. simpl.
    rewrite clamp_inside by done. apply atanh_tanh.
  - by apply update_gaussian_roundtrip.
  - apply sample_log_prob_split; [done..|]. by rewrite length_replicate.
  - unfold update_log_prob. by rewrite update_gaussian_roundtrip.
Qed.

Lemma log_prob_roundtrip_witness :
  update_log_prob_gaussian [0; 0]%R [2; 2]%R
    (sample_log_prob [0; 0]%R [2; 2]%R [1; 1]%R [0; 0]%R [x_gap; x_gap]).1
  = sample_log_prob_gaussian [0; 0]%R [2; 2]%R [x_gap; x_gap].
Proof.
  apply (log_prob_roundtrip [0; 0]%R [2; 2]%R [x_gap; x_gap]).
  - exact x_gap_inside.
  - reflexivity.
  - reflexivity.
Defined.

(** C2.  The round trip fails on the code.  For the draw [x_gap] in both
    dimensions (squashed to 0.99998, inside the clamp range), under one
    and the same mean and log-std, with the action scale 1 and the action
    bias 0, the log-probability that the update path recomputes for the
    sampled action is more than 1/4 below the recorded one.  The update
    path recovers the draw, and the Gaussian terms agree; the squash
    correction adds [1e-6] to [action_scale * (1 - y^2)] in [worker_fn],
    and [EPSILON = 1e-5] to [1 - a^2] in [ppo_update]. *)
Lemma log_prob_roundtrip_gap :
  let sampled :=
    sample_log_prob [0; 0]%R [2; 2]%R [1; 1]%R [0; 0]%R [x_gap; x_gap] in
  (sampled.2 - update_log_prob [0; 0]%R [2; 2]%R sampled.1 > 1 / 4)%R.
Proof.
  intros sampled. subst sampled.
  rewrite (sample_log_prob_split [0; 0]%R [2; 2]%R [1; 1]%R [0; 0]%R
             [x_gap; x_gap]) by reflexivity.
  change [1%R; 1%R] with (replicate (length [x_gap; x_gap]) 1%R) at 2.
  change [0%R; 0%R] with (replicate (length [x_gap; x_gap]) 0%R) at 3.
  rewrite sample_action_unit.
  unfold update_log_prob.
  rewrite update_gaussian_roundtrip by exact x_gap_inside.
  unfold update_squash_correction, sample_squash_correction. simpl.
  rewrite tanh_x_gap. unfold EPSILON.
  set (a := (1 - 99998 / 100000 * (99998 / 100000 * 1) + 1e-5)%R).
  set (b := (1 * (1 - 99998 / 100000 * (99998 / 100000 * 1)) + 1e-6)%R).
  pose proof (ln_gap a b ltac:(unfold b; lra) ltac:(unfold a, b; lra)) as Hgap.
  lra.
Qed.

(** ** [compute_gae] on a store *)

Section StoreFacts.
Context {F : Type} (rO rI : F) (radd rmul rsub : F -> F -> F).
Context (trunc : F -> F).
Local Abbreviation heap := (gmap positive (@ndarray F)).
Implicit Types (h : heap) (l : positive).

Lemma st_bind_eq {A B} (m : St A) (k : A -> St B) h :
  (m ≫= k) h = match m h with
               | Some (x, h') => k x h'
               | None => None
               end.
Proof. done. Qed.

Lemma fresh_lookup_None h : h !! fresh (dom h) = None.
Proof. apply not_elem_of_dom, is_fresh. Qed.

Lemma fresh_above h h' : h ⊆ h' -> h !! fresh (dom h') = None.
Proof. intros Hsub. eapply lookup_weaken_None; [apply fresh_lookup_None|done]. Qed.

Lemma lookup_alloc h l v a :
  h !! l = Some v -> <[fresh (dom h) := a]> h !! l = Some v.
Proof.
  intros Hl. rewrite lookup_insert_ne; [done|].
  intros E. rewrite <- E, fresh_lookup_None in Hl. done.
Qed.

Lemma read_num_eq h l dt a :
  h !! l = Some (NumArray dt a) -> read_num l h = Some ((dt, a), h).
Proof. intros Hl. unfold read_num. by rewrite Hl. Qed.

Lemma read_bool_eq h l a :
  h !! l = Some (BoolArray a) -> read_bool l h = Some (a, h).
Proof. intros Hl. unfold read_bool. by rewrite Hl. Qed.

Lemma load_item_eq h l dt a t :
  h !! l = Some (NumArray dt a) ->
  load_item l t h = (x ← Np.getitem a t; Some (x, h)).
Proof.
  intros Hl. unfold load_item.
  rewrite st_bind_eq, (read_num_eq h l dt a Hl).
  unfold st_lift. by destruct (Np.getitem a t).
Qed.

Lemma np_binop_eq f h l1 l2 dt1 dt2 a b :
  h !! l1 = Some (NumArray dt1 a) -> h !! l2 = Some (NumArray dt2 b) ->
  np_binop f l1 l2 h
  = (c ← Np.broadcast2 f a b;
     Some (fresh (dom h),
           <[fresh (dom h) := NumArray (Np.result_type dt1 dt2) c]> h)).
Proof.
  intros H1 H2. unfold np_binop.
  rewrite st_bind_eq, (read_num_eq h l1 dt1 a H1).
  rewrite st_bind_eq, (read_num_eq h l2 dt2 b H2).
  rewrite st_bind_eq. unfold st_lift.
  by destruct (Np.broadcast2 f a b).
Qed.

Lemma np_scalar_op_eq f c h l dt a :
  h !! l = Some (NumArray dt a) ->
  np_scalar_op f c l h
  = Some (fresh (dom h),
          <[fresh (dom h) := NumArray Np.float_ (Np.scalar_op f c a)]> h).
Proof.
  intros Hl. unfold np_scalar_op.
  by rewrite st_bind_eq, (read_num_eq h l dt a Hl).
Qed.

(** The loop on the store writes into [advantages] what the loop on lists
    computes, and touches nothing else. *)
Lemma gae_loop_st_eq deltas nnt adv gamma lam dt dtD dtN ts :
  adv <> deltas -> adv <> nnt ->
  forall last h D N A,
    h !! deltas = Some (NumArray dtD D) ->
    h !! nnt = Some (NumArray dtN N) ->
    h !! adv = Some (NumArray dt A) ->
    gae_loop_st radd rmul trunc deltas nnt adv gamma lam ts last h
    = match gae_loop radd rmul trunc dt D N gamma lam ts (last, A) with
      | Some (last', A') => Some (last', <[adv := NumArray dt A']> h)
      | None => None
      end.
Proof.
  intros Hd Hn. induction ts as [|t ts IH]; intros last h D N A HD HN HA.
  { simpl. unfold mret, St_ret, st_ret. by rewrite insert_id. }
  simpl. rewrite st_bind_eq, (load_item_eq h deltas dtD D t HD).
  destruct (Np.getitem D t) as [d|]; simpl; [|done].
  rewrite st_bind_eq, (load_item_eq h nnt dtN N t HN).
  destruct (Np.getitem N t) as [n|]; simpl; [|done].
  rewrite st_bind_eq. unfold store_item. rewrite HA.
  destruct (Np.setitem A t _) as [A1|]; simpl; [|done].
  rewrite (IH _ _ D N A1).
  - destruct (gae_loop _ _ _ _ _ _ _ _ _ _) as [[last' A']|]; [|done].
    by rewrite insert_insert_eq.
  - by rewrite lookup_insert_ne.
  - by rewrite lookup_insert_ne.
  - by rewrite lookup_insert_eq.
Qed.
Lemma alloc_eq h (a : @ndarray F) :
  alloc a h = Some (fresh (dom h), <[fresh (dom h) := a]> h).
Proof. done. Qed.

(** [compute_gae] on the store computes what [compute_gae] on lists
    computes, in two new arrays, and leaves every array of the caller's
    store as it was. *)
Lemma compute_gae_st_spec rewards values dones last_value last_done gamma lam
    h dtr dtv r v d :
  h !! rewards = Some (NumArray dtr r) ->
  h !! values = Some (NumArray dtv v) ->
  h !! dones = Some (BoolArray d) ->
  match compute_gae rO rI radd rmul rsub trunc dtr r v d last_value last_done
                    gamma lam
  with
  | Some (A, Rt) =>
      exists adv ret h',
        compute_gae_st rO rI radd rmul rsub trunc rewards values dones
                       last_value last_done gamma lam h
        = Some ((adv, ret), h')
        /\ h ⊆ h'
        /\ h !! adv = None /\ h !! ret = None /\ adv <> ret
        /\ h' !! adv = Some (NumArray dtr A)
        /\ h' !! ret = Some (NumArray (Np.result_type dtr dtv) Rt)
  | None =>
      compute_gae_st rO rI radd rmul rsub trunc rewards values dones
                     last_value last_done gamma lam h
      = None
  end.
Proof.
  intros Hr Hv Hd. unfold compute_gae_st, compute_gae.
  rewrite st_bind_eq, (read_num_eq h rewards dtr r Hr).
  rewrite st_bind_eq, alloc_eq.
  set (adv := fresh (dom h)).
  set (h1 := <[adv := _]> h).
  assert (S1 : h ⊆ h1) by apply insert_subseteq, fresh_lookup_None.
  assert (A1 : h1 !! adv = Some (NumArray dtr (Np.zeros_like rO r)))
    by apply lookup_insert_eq.
  rewrite st_bind_eq, (read_num_eq h1 values dtv v)
    by (eapply lookup_weaken; done).
  rewrite st_bind_eq, alloc_eq.
  set (nv := fresh (dom h1)).
  set (h2 := <[nv := _]> h1).
  assert (S2 : h ⊆ h2).
  { apply insert_subseteq_r; [by apply fresh_above | done]. }
  rewrite st_bind_eq, (read_bool_eq h2 dones d)
    by (eapply lookup_weaken; done).
  rewrite st_bind_eq, alloc_eq.
  set (nnt := fresh (dom h2)).
  set (h3 := <[nnt := _]> h2).
  assert (S3 : h ⊆ h3).
  { apply insert_subseteq_r; [by apply fresh_above | done]. }
  assert (N2 : h2 !! nv = Some (NumArray Np.float_
                  (Np.append (Np.tail_slice v)
                     (if negb last_done then last_value else rO))))
    by apply lookup_insert_eq.
  assert (N3 : h3 !! nnt = Some (NumArray Np.float_
                  ((fun d => rsub rI (of_bool rO rI d)) <$> d)))
    by apply lookup_insert_eq.
  rewrite st_bind_eq, (np_scalar_op_eq rmul gamma h3 nv _ _ (lookup_alloc _ _ _ _ N2)).
  set (gnv := fresh (dom h3)).
  set (h4 := <[gnv := _]> h3).
  assert (S4 : h ⊆ h4).
  { apply insert_subseteq_r; [by apply fresh_above | done]. }
  rewrite st_bind_eq,
    (np_binop_eq rmul h4 gnv nnt _ _ _ _ (lookup_insert_eq _ _ _)
                 (lookup_alloc _ _ _ _ N3)).
  destruct (Np.broadcast2 rmul _ _) as [c1|]; simpl; [|done].
  set (gnv_nnt := fresh (dom h4)).
  set (h5 := <[gnv_nnt := _]> h4).
  assert (S5 : h ⊆ h5).
  { apply insert_subseteq_r; [by apply fresh_above | done]. }
  rewrite st_bind_eq,
    (np_binop_eq radd h5 rewards gnv_nnt _ _ r c1
                 (lookup_weaken _ _ _ _ Hr S5) (lookup_insert_eq _ _ _)).
  destruct (Np.broadcast2 radd r c1) as [c2|]; simpl; [|done].
  set (r_plus := fresh (dom h5)).
  set (h6 := <[r_plus := _]> h5).
  assert (S6 : h ⊆ h6).
  { apply insert_subseteq_r; [by apply fresh_above | done]. }
  rewrite st_bind_eq,
    (np_binop_eq rsub h6 r_plus values _ _ c2 v (lookup_insert_eq _ _ _)
                 (lookup_weaken _ _ _ _ Hv S6)).
  destruct (Np.broadcast2 rsub c2 v) as [D|]; simpl; [|done].
  set (deltas := fresh (dom h6)).
  set (h7 := <[deltas := _]> h6).
  assert (S7 : h ⊆ h7).
  { apply insert_subseteq_r; [by apply fresh_above | done]. }
  assert (N7 : h7 !! nnt = Some (NumArray Np.float_
                  ((fun d => rsub rI (of_bool rO rI d)) <$> d))).
  { do 4 apply lookup_alloc. exact N3. }
  assert (A7 : h7 !! adv = Some (NumArray dtr (Np.zeros_like rO r))).
  { do 6 apply lookup_alloc. exact A1. }
  assert (Hnone : h !! adv = None) by apply fresh_lookup_None.
  assert (Hne1 : adv <> deltas).
  { intros E.
    assert (A6 : h6 !! adv = Some (NumArray dtr (Np.zeros_like rO r))).
    { do 5 apply lookup_alloc. exact A1. }
    rewrite E in A6. unfold deltas in A6.
    by rewrite fresh_lookup_None in A6. }
  assert (Hne2 : adv <> nnt).
  { intros E.
    assert (A2 : h2 !! adv = Some (NumArray dtr (Np.zeros_like rO r))).
    { apply lookup_alloc. exact A1. }
    rewrite E in A2. unfold nnt in A2.
    by rewrite fresh_lookup_None in A2. }
  rewrite st_bind_eq,
    (gae_loop_st_eq deltas nnt adv gamma lam dtr _ _ _ Hne1 Hne2
       rO h7 D _ _ (lookup_insert_eq _ _ _) N7 A7).
  destruct (gae_loop _ _ _ _ _ _ _ _ _ _) as [[last' A']|]; simpl; [|done].
  set (h8 := <[adv := NumArray dtr A']> h7).
  assert (S8 : h ⊆ h8).
  { apply insert_subseteq_r; done. }
  rewrite st_bind_eq,
    (np_binop_eq radd h8 adv values _ _ A' v (lookup_insert_eq _ _ _)
                 (lookup_weaken _ _ _ _ Hv S8)).
  destruct (Np.broadcast2 radd A' v) as [Rt|]; simpl; [|done].
  set (ret := fresh (dom h8)).
  set (h9 := <[ret := _]> h8).
  assert (A8 : h8 !! adv = Some (NumArray dtr A')) by apply lookup_insert_eq.
  exists adv, ret, h9. split; [done|].
  split; [apply insert_subseteq_r; [by apply fresh_above | done]|].
  split; [done|]. split; [by apply fresh_above|].
  split.
  { intros E. pose proof (fresh_lookup_None h8) as Hf. fold ret in Hf.
    rewrite <- E, A8 in Hf. done. }
  split; [by apply lookup_alloc | apply lookup_insert_eq].
Qed.
(** C10.  [compute_gae] does not change its array arguments.  Run on
    references to a numeric array [rewards], a numeric array [values]
    (of any dtypes) and a boolean array [dones] (which may be one and the
    same object), it returns whenever [compute_gae] on lists does, and when
    it returns, every array of the caller's store, [rewards], [values] and
    [dones] among them, holds what it held before, and the two references
    it yields are new objects, distinct from each other, that hold the
    advantages (in the dtype of [rewards]) and the returns. *)
Theorem compute_gae_frame rewards values dones last_value last_done gamma lam
    (h : heap) dtr dtv r v d :
  h !! rewards = Some (NumArray dtr r) ->
  h !! values = Some (NumArray dtv v) ->
  h !! dones = Some (BoolArray d) ->
  (is_Some (compute_gae rO rI radd rmul rsub trunc dtr r v d
                        last_value last_done gamma lam) ->
   is_Some (compute_gae_st rO rI radd rmul rsub trunc rewards values dones
                           last_value last_done gamma lam h))
  /\ forall adv ret h',
       compute_gae_st rO rI radd rmul rsub trunc rewards values dones
                      last_value last_done gamma lam h
       = Some ((adv, ret), h') ->
       h' !! rewards = Some (NumArray dtr r)
       /\ h' !! values = Some (NumArray dtv v)
       /\ h' !! dones = Some (BoolArray d)
       /\ (forall l a, h !! l = Some a -> h' !! l = Some a)
       /\ h !! adv = None /\ h !! ret = None /\ adv <> ret
       /\ exists A Rt,
            compute_gae rO rI radd rmul rsub trunc dtr r v d
                        last_value last_done gamma lam = Some (A, Rt)
            /\ h' !! adv = Some (NumArray dtr A)
            /\ h' !! ret = Some (NumArray (Np.result_type dtr dtv) Rt).
Proof.
  intros Hr Hv Hd.
  pose proof (compute_gae_st_spec rewards values dones last_value last_done
                gamma lam h dtr dtv r v d Hr Hv Hd) as Hspec.
  destruct (compute_gae _ _ _ _ _ _ _ _ _ _ _ _ _ _) as [[A Rt]|].
  - destruct Hspec as (adv & ret & h' & Hrun & Hsub & Ha & Hret & Hne & HA & HR).
    split; [intros _; by rewrite Hrun|].
    intros adv' ret' h'' Hrun'. rewrite Hrun in Hrun'. simplify_eq.
    split; [by eapply lookup_weaken|]. split; [by eapply lookup_weaken|].
    split; [by eapply lookup_weaken|].
    split; [intros l a Hl; by eapply lookup_weaken|].
    split; [done|]. split; [done|]. split; [done|].
    by exists A, Rt.
  - split; [by intros [? ?]|].
    intros adv ret h' Hrun. by rewrite Hspec in Hrun.
Qed.
End StoreFacts.

(** * Instances

    The theorems above at concrete inputs, over the ring of integers and
    over the reals. *)

Section Instances.
Open Scope Z_scope.

(** The end-to-end scenario of the specification, scaled by ten to stay in
    the integers: rewards [1, 0, 1, 0] and values one half become 10, 0 and
    5, and [gamma = lambda = 1]. *)
Example compute_gae_scenario :
  compute_gae 0 1 Z.add Z.mul Z.sub Ztrunc Np.float_
    [10; 0; 10; 0] [5; 5; 5; 5] [false; false; false; false] 5 false 1 1
  = Some ([20; 10; 10; 0], [25; 15; 15; 5]).
Proof. reflexivity. Qed.

Lemma episode_scan_witness :
  exists recs : list (Z * nat),
    scan_trajectory 0 Z.add
      {| episode_rewards := [100]; episode_lengths := [7%nat];
         total_episodes := 1 |}
      [1; 2; 3; 4; 5; 6; 7] [false; true; true; false; false; true; false]
    = record_all
        {| episode_rewards := [100]; episode_lengths := [7%nat];
           total_episodes := 1 |} recs
    /\ length recs = 3%nat.
Proof.
  destruct (episode_scan 0 Z.add
              {| episode_rewards := [100]; episode_lengths := [7%nat];
                 total_episodes := 1 |}
              [1; 2; 3; 4; 5; 6; 7]
              [false; true; true; false; false; true; false] eq_refl)
    as (recs & Hscan & Hlen & _).
  exists recs. split; [exact Hscan | exact Hlen].
Defined.

Example scan_trajectory_example :
  scan_trajectory 0 Z.add
    {| episode_rewards := [100]; episode_lengths := [7%nat];
       total_episodes := 1 |}
    [1; 2; 3; 4; 5; 6; 7] [false; true; true; false; false; true; false]
  = {| episode_rewards := [100; 3; 3; 15];
       episode_lengths := [7; 2; 1; 3]%nat;
       total_episodes := 4 |}.
Proof. reflexivity. Qed.

Lemma minibatches_cover_witness :
  exists sched,
    ppo_schedule reversing 2 7 3 ()
    = Some (sched, rng_after reversing 2 7 ())
    /\ length sched = 2%nat.
Proof.
  destruct (minibatches_cover reversing 2 7 3 ()) as (sched & Hrun & Hlen & _).
  - intros g n. simpl. apply reverse_Permutation.
  - reflexivity.
  - exists sched. split; [exact Hrun | exact Hlen].
Defined.

(** A step of zero makes [range] raise, and a negative one leaves the epoch
    without minibatches. *)
Example epoch_minibatches_zero :
  epoch_minibatches 7 0 (reverse (seq 0 7)) = None.
Proof. reflexivity. Qed.

Example epoch_minibatches_negative :
  epoch_minibatches 7 (-3) (reverse (seq 0 7)) = Some [].
Proof. reflexivity. Qed.

Example epoch_minibatches_example :
  epoch_minibatches 7 3 (reverse (seq 0 7))
  = Some [[6; 5; 4]; [3; 2; 1]; [0]]%nat.
Proof. reflexivity. Qed.

Lemma trajectory_and_batch_size_witness :
  exists all b,
    gather_trajectories toy_reset_seed toy_reset toy_step toy_sample
      toy_value () 0 0 (reverse (spawn_args toy_args 1)) = Some all
    /\ build_batch 0 1 Z.add Z.mul Z.sub Ztrunc 2 3 all = Some b
    /\ Z.of_nat (length (batch_obs b)) = 6.
Proof.
  destruct (trajectory_and_batch_size 0 1 Z.add Z.mul Z.sub Z.opp Ztrunc Zth
              toy_reset_seed toy_reset toy_step toy_sample toy_value
              toy_args 1 () 0 0 2 3 (reverse (spawn_args toy_args 1)))
    as (all & b & Hall & _ & _ & Hb & Hlen & _).
  - reflexivity.
  - reflexivity.
  - apply reverse_Permutation.
  - exists all, b. split; [exact Hall|]. split; [exact Hb | exact Hlen].
Defined.

Example worker_fn_no_steps :
  worker_fn toy_reset_seed toy_reset toy_step toy_sample toy_value
    {| wa_worker_id := 0; wa_steps_per_worker := 0; wa_seed := 4 |} () 0 0
  = None.
Proof. reflexivity. Qed.

Lemma compute_gae_frame_witness :
  exists adv ret h',
    compute_gae_st 0 1 Z.add Z.mul Z.sub Ztrunc 1%positive 2%positive 3%positive
      5 false 2 3 toy_store
    = Some ((adv, ret), h')
    /\ h' !! 1%positive = Some (NumArray Np.float_ [1; 0; 1; 0])
    /\ h' !! 2%positive = Some (NumArray Np.float_ [5; 5; 5; 5])
    /\ h' !! 3%positive = Some (BoolArray [false; false; false; false])
    /\ toy_store !! adv = None /\ toy_store !! ret = None.
Proof.
  destruct (compute_gae_frame 0 1 Z.add Z.mul Z.sub Ztrunc 1%positive
              2%positive 3%positive 5 false 2 3 toy_store
              Np.float_ Np.float_
              [1; 0; 1; 0] [5; 5; 5; 5] [false; false; false; false]
              eq_refl eq_refl eq_refl)
    as [Hreturns Hframe].
  destruct Hreturns as [[[adv ret] h'] Hrun]; [eexists; reflexivity|].
  destruct (Hframe adv ret h' Hrun)
    as (H1 & H2 & H3 & _ & Ha & Hr & _).
  exists adv, ret, h'. repeat split; assumption.
Defined.
End Instances.

Lemma compute_gae_recursion_witness :
  exists advantages returns,
    compute_gae 0%Qc 1%Qc Qcplus Qcmult Qcminus Qctrunc Np.float_
      scenario_rewards scenario_values scenario_dones scenario_last_value
      false scenario_gamma scenario_gamma
    = Some (advantages, returns)
    /\ length advantages = 4 /\ length returns = 4
    /\ nth 3 returns 0%Qc
       = (nth 3 advantages 0%Qc + nth 3 scenario_values 0%Qc)%Qc
    /\ nth 3 advantages 0%Qc
       = spec_delta 0%Qc 1%Qc Qcplus Qcmult Qcminus
           scenario_rewards scenario_values scenario_dones
           scenario_last_value false scenario_gamma 3.
Proof.
  destruct (compute_gae_recursion 0%Qc 1%Qc Qcplus Qcmult Qcminus Qcopp
              Qctrunc Qcrt Np.float_
              scenario_rewards scenario_values scenario_dones
              scenario_last_value false scenario_gamma scenario_gamma
              eq_refl eq_refl)
    as (advantages & returns & Hrun & Ha & Hr & Hret & Hrec).
  destruct (Hrec eq_refl) as [Htop _].
  exists advantages, returns. split; [exact Hrun|].
  split; [exact Ha|]. split; [exact Hr|].
  split; [apply (Hret 3); simpl; lia | apply (Htop 3); reflexivity].
Defined.

(** With the rewards of the scenario in an integer array, every stored
    advantage is cut to its integer part: the advantages are [1, 0, 0, 0],
    and the last one is 0, not [delta[3] = -1/20]. *)
Lemma compute_gae_integer_rewards :
  exists advantages returns,
    compute_gae 0%Qc 1%Qc Qcplus Qcmult Qcminus Qctrunc Np.int_
      scenario_rewards scenario_values scenario_dones scenario_last_value
      false scenario_gamma scenario_gamma
    = Some (advantages, returns)
    /\ this <$> advantages = [1; 0; 0; 0]%Q
    /\ this (spec_delta 0%Qc 1%Qc Qcplus Qcmult Qcminus
               scenario_rewards scenario_values scenario_dones
               scenario_last_value false scenario_gamma 3)
       = (-1 # 20)%Q
    /\ (spec_delta 0%Qc 1%Qc Qcplus Qcmult Qcminus
          scenario_rewards scenario_values scenario_dones
          scenario_last_value false scenario_gamma 3
        < nth 3 advantages 0)%Qc.
Proof.
  eexists _, _. split; [reflexivity|].
  split; [reflexivity|]. split; reflexivity.
Qed.

Lemma normalize_advantages_once_witness :
  exists sd : R,
    Torch.std [1%R; 1%R] = Some sd /\ (1e-8 <= sd + 1e-8)%R.
Proof.
  destruct (normalize_advantages_once
              (fun (g : unit) n => (seq 0 n, g))
              (fun (m : unit) (_ : @minibatch unit unit) => m)
              {| batch_obs := [(); ()]; batch_actions := [(); ()];
                 batch_log_probs_old := [0%R; 0%R];
                 batch_advantages := [1%R; 1%R];
                 batch_returns := [0%R; 0%R] |})
    as (m & sd & norm & _ & Hsd & _ & Hpos & _).
  - simpl. lia.
  - exists sd. split; [exact Hsd | exact Hpos].
Defined.


(** * Further properties of the GAE engine *)

Section GAEProperties.
Context {F : Type} (rO rI : F) (radd rmul rsub : F -> F -> F) (ropp : F -> F).
Context (trunc : F -> F).
Hypothesis Fth : ring_theory rO rI radd rmul rsub ropp eq.
Add Ring Fring2 : Fth.

Local Infix "+" := radd.
Local Infix "*" := rmul.
Local Infix "-" := rsub.
Local Abbreviation gae := (compute_gae rO rI radd rmul rsub trunc).
Local Abbreviation delta := (spec_delta rO rI radd rmul rsub).
Local Abbreviation non_terminal := (spec_next_non_terminal rO rI rsub).

(** The advantage at every step of a floating-point trajectory, whether
    it is the last one or not. *)
Lemma compute_gae_step rewards values dones last_value last_done gamma lam :
  length values = length rewards ->
  length dones = length rewards ->
  exists advantages returns,
    gae Np.float_ rewards values dones last_value last_done gamma lam
    = Some (advantages, returns)
    /\ length advantages = length rewards
    /\ length returns = length rewards
    /\ (forall t, (t < length rewards)%nat ->
          nth t advantages rO
          = delta rewards values dones last_value last_done gamma t
            + gamma * lam * non_terminal dones t
              * (if decide (S t < length rewards)%nat
                 then nth (S t) advantages rO else rO))
    /\ (forall t, (t < length rewards)%nat ->
          nth t returns rO = nth t advantages rO + nth t values rO).
Proof.
  intros Hv Hd.
  destruct (compute_gae_spec rO rI radd rmul rsub ropp trunc Fth rewards
              values dones last_value last_done gamma lam Hv Hd)
    as (adv & ret & Hrun & Ha & Hr & Htop & Hrec & Hret).
  exists adv, ret. split; [done|]. split; [done|]. split; [done|].
  split; [|done]. intros t Ht. case_decide as Hlt.
  - by apply Hrec.
  - rewrite Htop by lia. ring.
Qed.

(** For any dtype of [rewards]: the advantages are the converted
    advantages [Af] of the floating-point run, and the returns add the
    values to them. *)
Lemma compute_gae_converted dt rewards values dones last_value last_done
    gamma lam :
  length values = length rewards ->
  length dones = length rewards ->
  exists Af advantages returns,
    gae dt rewards values dones last_value last_done gamma lam
    = Some (advantages, returns)
    /\ length Af = length rewards
    /\ (forall t, (t < length rewards)%nat ->
          nth t Af rO
          = delta rewards values dones last_value last_done gamma t
            + gamma * lam * non_terminal dones t
              * (if decide (S t < length rewards)%nat
                 then nth (S t) Af rO else rO))
    /\ (forall t, (t < length rewards)%nat ->
          nth t advantages rO = astype trunc dt (nth t Af rO)
          /\ nth t returns rO = nth t advantages rO + nth t values rO).
Proof.
  intros Hv Hd.
  destruct (compute_gae_step rewards values dones last_value last_done
              gamma lam Hv Hd)
    as (Af & Rf & Hf & Ha & _ & Hadv & _).
  destruct (compute_gae_any rO rI radd rmul rsub ropp trunc Fth dt rewards
              values dones last_value last_done gamma lam Hv Hd)
    as (Af' & Rf' & Hf' & _ & Hrun).
  rewrite Hf in Hf'. simplify_eq.
  eexists Af', _, _. split; [exact Hrun|]. split; [done|]. split; [done|].
  intros t Ht. split.
  - apply (nth_fmap_astype rO trunc). lia.
  - apply (nth_zip_with_add rO radd); [rewrite length_fmap|]; lia.
Qed.

(** X1.  With [gamma = 0] credit is assigned within the step: the
    advantage of every step is its reward less its value, converted to the
    dtype of [rewards] (unchanged for a floating-point array, cut to the
    integer part for an integer one), and the return is that advantage
    plus the value, which for floating-point rewards is the reward. *)
Theorem compute_gae_gamma_zero dt rewards values dones last_value last_done
    lam :
  length values = length rewards ->
  length dones = length rewards ->
  exists advantages returns,
    compute_gae rO rI radd rmul rsub trunc dt
      rewards values dones last_value last_done rO lam
    = Some (advantages, returns)
    /\ forall t, (t < length rewards)%nat ->
         nth t advantages rO
         = astype trunc dt (nth t rewards rO - nth t values rO)
         /\ nth t returns rO = nth t advantages rO + nth t values rO
         /\ (dt = Np.float_ -> nth t returns rO = nth t rewards rO).
Proof.
  intros Hv Hd.
  destruct (compute_gae_converted dt rewards values dones last_value
              last_done rO lam Hv Hd)
    as (Af & adv & ret & Hrun & _ & Hf & Hconv).
  exists adv, ret. split; [done|]. intros t Ht.
  destruct (Hconv t Ht) as [Ha Hr].
  assert (E : nth t Af rO = nth t rewards rO - nth t values rO).
  { rewrite (Hf t Ht). unfold spec_delta. ring. }
  rewrite E in Ha. split; [done|]. split; [done|].
  intros ->. rewrite Hr, Ha. simpl. ring.
Qed.

(** X2.  With [lambda = 0] the advantage of every step is its one-step TD
    residual [delta], converted to the dtype of [rewards]. *)
Theorem compute_gae_lambda_zero dt rewards values dones last_value last_done
    gamma :
  length values = length rewards ->
  length dones = length rewards ->
  exists advantages returns,
    compute_gae rO rI radd rmul rsub trunc dt
      rewards values dones last_value last_done gamma rO
    = Some (advantages, returns)
    /\ forall t, (t < length rewards)%nat ->
         nth t advantages rO
         = astype trunc dt
             (spec_delta rO rI radd rmul rsub rewards values dones
                         last_value last_done gamma t).
Proof.
  intros Hv Hd.
  destruct (compute_gae_converted dt rewards values dones last_value
              last_done gamma rO Hv Hd)
    as (Af & adv & ret & Hrun & _ & Hf & Hconv).
  exists adv, ret. split; [done|]. intros t Ht.
  destruct (Hconv t Ht) as [-> _]. f_equal.
  rewrite (Hf t Ht). ring.
Qed.

(** X3.  Nothing is bootstrapped across the end of an episode: at a step
    whose done flag is set, the advantage is the reward less the value,
    converted to the dtype of [rewards], whatever follows in the
    trajectory and whatever the bootstrap value; the return is that
    advantage plus the value, which for floating-point rewards is the
    reward. *)
Theorem compute_gae_done dt rewards values dones last_value last_done
    gamma lam :
  length values = length rewards ->
  length dones = length rewards ->
  exists advantages returns,
    compute_gae rO rI radd rmul rsub trunc dt
      rewards values dones last_value last_done gamma lam
    = Some (advantages, returns)
    /\ forall t, dones !! t = Some true ->
         nth t advantages rO
         = astype trunc dt (nth t rewards rO - nth t values rO)
         /\ nth t returns rO = nth t advantages rO + nth t values rO
         /\ (dt = Np.float_ -> nth t returns rO = nth t rewards rO).
Proof.
  intros Hv Hd.
  destruct (compute_gae_converted dt rewards values dones last_value
              last_done gamma lam Hv Hd)
    as (Af & adv & ret & Hrun & _ & Hf & Hconv).
  exists adv, ret. split; [done|]. intros t Hdone.
  assert (Ht : (t < length rewards)%nat).
  { rewrite <- Hd. by eapply lookup_lt_Some. }
  destruct (Hconv t Ht) as [Ha Hr].
  assert (E : nth t Af rO = nth t rewards rO - nth t values rO).
  { rewrite (Hf t Ht). unfold spec_delta, spec_next_non_terminal.
    rewrite (nth_lookup_Some _ _ _ _ Hdone). simpl. ring. }
  rewrite E in Ha. split; [done|]. split; [done|].
  intros ->. rewrite Hr, Ha. simpl. ring.
Qed.
End GAEProperties.

(** A trajectory of rational numbers in an integer array: rewards
    [4, 7, 1], values [1/2, 3/2, 3], a done flag at the second step. *)
Lemma compute_gae_gamma_zero_witness :
  exists advantages returns,
    compute_gae 0%Qc 1%Qc Qcplus Qcmult Qcminus Qctrunc Np.int_
      [Q2Qc 4; Q2Qc 7; 1%Qc] [Q2Qc (1 # 2); Q2Qc (3 # 2); Q2Qc 3]
      [false; true; false] (Q2Qc 9) false 0%Qc (Q2Qc 5)
    = Some (advantages, returns)
    /\ nth 1 advantages 0%Qc = Qctrunc (Q2Qc 7 - Q2Qc (3 # 2))%Qc.
Proof.
  destruct (compute_gae_gamma_zero 0%Qc 1%Qc Qcplus Qcmult Qcminus Qcopp
              Qctrunc Qcrt Np.int_
              [Q2Qc 4; Q2Qc 7; 1%Qc] [Q2Qc (1 # 2); Q2Qc (3 # 2); Q2Qc 3]
              [false; true; false] (Q2Qc 9) false (Q2Qc 5)
              eq_refl eq_refl)
    as (adv & ret & Hrun & H).
  exists adv, ret. split; [exact Hrun|].
  destruct (H 1%nat) as [Ha _]; [simpl; lia|]. exact Ha.
Defined.

Lemma compute_gae_lambda_zero_witness :
  exists advantages returns,
    compute_gae 0%Qc 1%Qc Qcplus Qcmult Qcminus Qctrunc Np.int_
      [Q2Qc 4; Q2Qc 7; 1%Qc] [Q2Qc (1 # 2); Q2Qc (3 # 2); Q2Qc 3]
      [false; true; false] (Q2Qc 9) false (Q2Qc (1 # 2)) 0%Qc
    = Some (advantages, returns)
    /\ nth 0 advantages 0%Qc
       = Qctrunc
           (spec_delta 0%Qc 1%Qc Qcplus Qcmult Qcminus
              [Q2Qc 4; Q2Qc 7; 1%Qc] [Q2Qc (1 # 2); Q2Qc (3 # 2); Q2Qc 3]
              [false; true; false] (Q2Qc 9) false (Q2Qc (1 # 2)) 0).
Proof.
  destruct (compute_gae_lambda_zero 0%Qc 1%Qc Qcplus Qcmult Qcminus Qcopp
              Qctrunc Qcrt Np.int_
              [Q2Qc 4; Q2Qc 7; 1%Qc] [Q2Qc (1 # 2); Q2Qc (3 # 2); Q2Qc 3]
              [false; true; false] (Q2Qc 9) false (Q2Qc (1 # 2))
              eq_refl eq_refl)
    as (adv & ret & Hrun & H).
  exists adv, ret. split; [exact Hrun|]. apply (H 0%nat). simpl. lia.
Defined.

Lemma compute_gae_done_witness :
  exists advantages returns,
    compute_gae 0%Qc 1%Qc Qcplus Qcmult Qcminus Qctrunc Np.float_
      [Q2Qc 4; Q2Qc 7; 1%Qc] [Q2Qc (1 # 2); Q2Qc (3 # 2); Q2Qc 3]
      [false; true; false] (Q2Qc 9) false (Q2Qc (1 # 2)) (Q2Qc (1 # 3))
    = Some (advantages, returns)
    /\ nth 1 advantages 0%Qc = (Q2Qc 7 - Q2Qc (3 # 2))%Qc
    /\ nth 1 returns 0%Qc = Q2Qc 7.
Proof.
  destruct (compute_gae_done 0%Qc 1%Qc Qcplus Qcmult Qcminus Qcopp
              Qctrunc Qcrt Np.float_
              [Q2Qc 4; Q2Qc 7; 1%Qc] [Q2Qc (1 # 2); Q2Qc (3 # 2); Q2Qc 3]
              [false; true; false] (Q2Qc 9) false (Q2Qc (1 # 2))
              (Q2Qc (1 # 3)) eq_refl eq_refl)
    as (adv & ret & Hrun & H).
  exists adv, ret. split; [exact Hrun|].
  destruct (H 1%nat eq_refl) as (Ha & _ & Hr).
  split; [exact Ha | exact (Hr eq_refl)].
Defined.

Section BroadcastFacts.
Context {A : Type}.
Implicit Types (a b : list A) (f : A -> A -> A).

Lemma broadcast2_None f a b :
  length a <> length b -> length a <> 1 -> length b <> 1 ->
  Np.broadcast2 f a b = None.
Proof.
  intros Hab Ha Hb. unfold Np.broadcast2. rewrite decide_False by done.
  destruct a as [|x [|x' a]]; destruct b as [|y [|y' b]]; simpl in *;
    done.
Qed.

Lemma broadcast2_singleton_l f x b :
  length b <> 1 -> Np.broadcast2 f [x] b = Some (f x <$> b).
Proof.
  intros Hb. unfold Np.broadcast2. rewrite decide_False; [done|].
  simpl. lia.
Qed.

Lemma broadcast2_singleton_r f a y :
  length a <> 1 -> Np.broadcast2 f a [y] = Some ((fun x => f x y) <$> a).
Proof.
  intros Ha. unfold Np.broadcast2. rewrite decide_False by (simpl; lia).
  destruct a as [|x [|x' a]]; simpl in *; done.
Qed.
End BroadcastFacts.

Section GAEEdges.
Context {F : Type} (rO rI : F) (radd rmul rsub : F -> F -> F) (ropp : F -> F).
Context (trunc : F -> F).
Hypothesis Fth : ring_theory rO rI radd rmul rsub ropp eq.
Add Ring Fring3 : Fth.

Local Infix "+" := radd.
Local Infix "*" := rmul.
Local Infix "-" := rsub.
Local Abbreviation gae := (compute_gae rO rI radd rmul rsub trunc).

Lemma gnv_nnt_last_done (values : list F) (dones : list bool) gamma x x' :
  length values = length dones ->
  last dones = Some true ->
  Np.broadcast2 rmul
    (Np.scalar_op rmul gamma (Np.append (Np.tail_slice values) x))
    ((fun d => rI - of_bool rO rI d) <$> dones)
  = Np.broadcast2 rmul
      (Np.scalar_op rmul gamma (Np.append (Np.tail_slice values) x'))
      ((fun d => rI - of_bool rO rI d) <$> dones).
Proof.
  intros Hlen Hlast. apply last_Some in Hlast as [d0 ->].
  rewrite length_app in Hlen. simpl in Hlen.
  destruct values as [|v0 vs]; [simpl in Hlen; lia|].
  simpl in Hlen. unfold Np.append, Np.tail_slice, Np.scalar_op. simpl.
  rewrite drop_0, !fmap_app. simpl.
  rewrite !broadcast2_same_length
    by (rewrite !length_app, !length_fmap; simpl; lia).
  rewrite !zip_with_app by (rewrite !length_fmap; lia).
  simpl. do 3 f_equal. ring.
Qed.

(** X4.  When the last step of the trajectory ended an episode, neither the
    bootstrap value nor the flag [last_done] has any effect on the
    result, whatever the dtype of [rewards]. *)
Theorem compute_gae_last_done dt rewards values dones last_value last_done
    last_value' last_done' gamma lam :
  length values = length dones ->
  last dones = Some true ->
  compute_gae rO rI radd rmul rsub trunc dt
    rewards values dones last_value last_done gamma lam
  = compute_gae rO rI radd rmul rsub trunc dt
    rewards values dones last_value' last_done' gamma lam.
Proof.
  intros Hlen Hlast. unfold compute_gae.
  by rewrite (gnv_nnt_last_done values dones gamma
                (if negb last_done then last_value else rO)
                (if negb last_done' then last_value' else rO) Hlen Hlast).
Qed.

Lemma compute_gae_raises dt rewards values dones last_value last_done
    gamma lam :
  2 <= length rewards -> length dones = length rewards ->
  length values <> length rewards -> length values <> 1 ->
  gae dt rewards values dones last_value last_done gamma lam = None.
Proof.
  intros Hn Hd Hv Hv1. unfold compute_gae.
  destruct values as [|v0 vs].
  - unfold Np.append, Np.tail_slice, Np.scalar_op. simpl.
    rewrite broadcast2_singleton_l by (rewrite length_fmap; lia). simpl.
    rewrite broadcast2_same_length by (rewrite !length_fmap; lia). simpl.
    rewrite broadcast2_None; [done| | |simpl; lia].
    + rewrite length_zip_with, !length_fmap. simpl. lia.
    + rewrite length_zip_with, !length_fmap. lia.
  - rewrite broadcast2_None; [done|..].
    + unfold Np.scalar_op. rewrite !length_fmap, append_tail_length by done.
      simpl in *. lia.
    + unfold Np.scalar_op. rewrite !length_fmap, append_tail_length by done.
      done.
    + rewrite length_fmap. lia.
Qed.

Lemma compute_gae_broadcasts rewards c dones last_value last_done gamma lam :
  2 <= length rewards -> length dones = length rewards ->
  is_Some (gae Np.float_ rewards [c] dones last_value last_done gamma lam).
Proof.
  intros Hn Hd. unfold compute_gae.
  unfold Np.append, Np.tail_slice, Np.scalar_op. simpl.
  rewrite broadcast2_singleton_l by (rewrite length_fmap; lia). simpl.
  rewrite broadcast2_same_length by (rewrite !length_fmap; lia). simpl.
  rewrite broadcast2_singleton_r
    by (rewrite length_zip_with, !length_fmap; lia).
  simpl.
  match goal with |- context [gae_loop _ _ _ _ ?D ?N _ _ _ _] =>
    destruct (gae_loop_spec radd rmul trunc D N gamma lam (length rewards))
      with (last := rO) (adv := Np.zeros_like rO rewards)
      as (last' & adv & Hrun & Hlen & _)
  end.
  - rewrite length_fmap, length_zip_with, !length_fmap. lia.
  - rewrite length_fmap. lia.
  - unfold Np.zeros_like. by rewrite length_replicate.
  - rewrite Hrun. simpl. unfold Np.zeros_like in Hlen.
    rewrite length_replicate in Hlen.
    rewrite broadcast2_singleton_r by lia. simpl. by eexists.
Qed.

(** X5.  On rewards and done flags of one length [n >= 2], [compute_gae]
    returns exactly when [values] has length [n] or length 1: any other
    length makes a numpy operation raise, and a [values] array of a
    single entry is broadcast without an error.  The dtype of [rewards]
    has no part in it. *)
Theorem compute_gae_returns_iff dt rewards values dones last_value last_done
    gamma lam :
  2 <= length rewards -> length dones = length rewards ->
  is_Some (compute_gae rO rI radd rmul rsub trunc dt
    rewards values dones last_value last_done gamma lam)
  <-> length values = length rewards \/ length values = 1.
Proof.
  intros Hn Hd.
  rewrite (compute_gae_is_Some rO rI radd rmul rsub trunc dt). split.
  - intros Hsome.
    destruct (decide (length values = length rewards)) as [|Hv]; [by left|].
    destruct (decide (length values = 1)) as [|Hv1]; [by right|].
    rewrite compute_gae_raises in Hsome by done. by destruct Hsome.
  - intros [Hv|Hv].
    + destruct (compute_gae_spec rO rI radd rmul rsub ropp trunc Fth rewards
                  values dones last_value last_done gamma lam Hv Hd)
        as (adv & ret & Hrun & _).
      rewrite Hrun. by eexists.
    + destruct values as [|c [|c' vs]]; try done.
      by apply compute_gae_broadcasts.
Qed.
End GAEEdges.

Lemma compute_gae_last_done_witness :
  compute_gae 0%Z 1%Z Z.add Z.mul Z.sub Ztrunc Np.float_
    [4; 7; 1]%Z [1; 2; 3]%Z [false; false; true] 9%Z false 2%Z 3%Z
  = compute_gae 0%Z 1%Z Z.add Z.mul Z.sub Ztrunc Np.float_
      [4; 7; 1]%Z [1; 2; 3]%Z [false; false; true] 0%Z true 2%Z 3%Z.
Proof.
  apply (compute_gae_last_done 0%Z 1%Z Z.add Z.mul Z.sub Z.opp Ztrunc Zth);
    reflexivity.
Defined.

Lemma compute_gae_returns_iff_witness :
  is_Some (compute_gae 0%Z 1%Z Z.add Z.mul Z.sub Ztrunc Np.float_
             [4; 7; 1]%Z [2]%Z [false; false; true] 9%Z false 2%Z 3%Z)
  /\ compute_gae 0%Z 1%Z Z.add Z.mul Z.sub Ztrunc Np.float_
       [4; 7; 1]%Z [2; 5]%Z [false; false; true] 9%Z false 2%Z 3%Z = None.
Proof.
  split.
  - apply (compute_gae_returns_iff 0%Z 1%Z Z.add Z.mul Z.sub Z.opp Ztrunc Zth
             Np.float_
             [4; 7; 1]%Z [2]%Z [false; false; true] 9%Z false 2%Z 3%Z);
      [simpl; lia | reflexivity | right; reflexivity].
  - reflexivity.
Defined.

Section GAESplit.
Context {F : Type} (rO rI : F) (radd rmul rsub : F -> F -> F) (ropp : F -> F).
Context (trunc : F -> F).
Hypothesis Fth : ring_theory rO rI radd rmul rsub ropp eq.
Add Ring Fring4 : Fth.

Local Infix "+" := radd.
Local Infix "*" := rmul.
Local Infix "-" := rsub.
Local Abbreviation gae := (compute_gae rO rI radd rmul rsub trunc).
Local Abbreviation delta := (spec_delta rO rI radd rmul rsub).
Local Abbreviation non_terminal := (spec_next_non_terminal rO rI rsub).

Variables (r1 v1 r2 v2 : list F) (d1 d2 : list bool).
Hypothesis Hv1 : length v1 = length r1.
Hypothesis Hd1 : length d1 = length r1.
Hypothesis Hv2 : length v2 = length r2.
Hypothesis Hd2 : length d2 = length r2.

Lemma non_terminal_app_l t :
  (t < length r1)%nat -> non_terminal (d1 ++ d2) t = non_terminal d1 t.
Proof.
  intros Ht. unfold spec_next_non_terminal. by rewrite app_nth1 by lia.
Qed.

Lemma non_terminal_app_r t :
  (length r1 <= t)%nat ->
  non_terminal (d1 ++ d2) t = non_terminal d2 (t - length r1).
Proof.
  intros Ht. unfold spec_next_non_terminal.
  rewrite app_nth2 by lia. by rewrite Hd1.
Qed.

Lemma delta_app_l lv ld lv1 ld1 gamma t :
  (S t < length r1)%nat ->
  delta (r1 ++ r2) (v1 ++ v2) (d1 ++ d2) lv ld gamma t
  = delta r1 v1 d1 lv1 ld1 gamma t.
Proof.
  intros Ht. unfold spec_delta, spec_next_value, spec_next_non_terminal.
  rewrite length_app, !app_nth1 by lia.
  rewrite !decide_True by lia. done.
Qed.

Lemma delta_app_r lv ld gamma t :
  (length r1 <= t)%nat ->
  delta (r1 ++ r2) (v1 ++ v2) (d1 ++ d2) lv ld gamma t
  = delta r2 v2 d2 lv ld gamma (t - length r1).
Proof.
  intros Ht. unfold spec_delta, spec_next_value, spec_next_non_terminal.
  rewrite length_app, !app_nth2 by lia. rewrite Hv1, Hd1.
  replace (S t - length r1)%nat with (S (t - length r1)) by lia.
  destruct (decide (S t < length r1 + length v2)%nat);
    destruct (decide (S (t - length r1) < length v2)%nat); (done || lia).
Qed.

Lemma compute_gae_split_float lv ld lv1 ld1 gamma lam :
  last d1 = Some true ->
  exists A1 R1 A2 R2,
    gae Np.float_ r1 v1 d1 lv1 ld1 gamma lam = Some (A1, R1)
    /\ gae Np.float_ r2 v2 d2 lv ld gamma lam = Some (A2, R2)
    /\ gae Np.float_ (r1 ++ r2) (v1 ++ v2) (d1 ++ d2) lv ld gamma lam
       = Some (A1 ++ A2, R1 ++ R2).
Proof.
  intros Hlast.
  destruct (compute_gae_step rO rI radd rmul rsub ropp trunc Fth r1 v1 d1
              lv1 ld1 gamma lam Hv1 Hd1)
    as (A1 & R1 & Hrun1 & HA1 & HR1 & Hadv1 & Hret1).
  destruct (compute_gae_step rO rI radd rmul rsub ropp trunc Fth r2 v2 d2
              lv ld gamma lam Hv2 Hd2)
    as (A2 & R2 & Hrun2 & HA2 & HR2 & Hadv2 & Hret2).
  destruct (compute_gae_step rO rI radd rmul rsub ropp trunc Fth
              (r1 ++ r2) (v1 ++ v2) (d1 ++ d2) lv ld gamma lam)
    as (A & R & Hrun & HA & HR & Hadv & Hret).
  { rewrite !length_app. lia. }
  { rewrite !length_app. lia. }
  rewrite length_app in HA, HR, Hadv, Hret.
  exists A1, R1, A2, R2. split; [done|]. split; [done|].
  rewrite Hrun.
  cut (A = A1 ++ A2 /\ R = R1 ++ R2); [by intros [-> ->]|].
  assert (Hdone : nth (length r1 - 1) d1 false = true
                  /\ (0 < length r1)%nat).
  { apply last_Some in Hlast as [d0 ->].
    rewrite length_app in Hd1. simpl in Hd1. rewrite <- Hd1.
    rewrite app_nth2 by lia.
    replace (length d0 + 1 - 1 - length d0)%nat with 0%nat by lia.
    split; [done | lia]. }
  destruct Hdone as [Hdone Hpos].
  assert (Hnth : forall k t, (t < length r1 + length r2)%nat ->
            (length r1 + length r2 - t <= k)%nat ->
            nth t A rO = nth t (A1 ++ A2) rO).
  { induction k as [|k IH]; intros t Ht Hk; [lia|].
    rewrite (Hadv t Ht).
    assert (Hnext : (if decide (S t < length r1 + length r2)%nat
                     then nth (S t) A rO else rO)
                    = (if decide (S t < length r1 + length r2)%nat
                       then nth (S t) (A1 ++ A2) rO else rO)).
    { case_decide; [|done]. apply IH; lia. }
    rewrite Hnext. clear Hnext.
    destruct (decide (S t < length r1)%nat) as [Hlt|Hge].
    - rewrite (delta_app_l lv ld lv1 ld1) by done.
      rewrite non_terminal_app_l by lia.
      rewrite decide_True by lia.
      rewrite !app_nth1 by lia.
      rewrite (Hadv1 t) by lia. by rewrite decide_True by done.
    - destruct (decide (t < length r1)%nat) as [Hin|Hout].
      + assert (t = length r1 - 1)%nat as -> by lia.
        rewrite (@app_nth1 _ A1 A2 rO (length r1 - 1)%nat) by lia.
        rewrite (Hadv1 (length r1 - 1)%nat) by lia.
        rewrite (decide_False (P := (S (length r1 - 1) < length r1)%nat))
          by lia.
        rewrite non_terminal_app_l by lia.
        unfold spec_delta, spec_next_non_terminal.
        rewrite !(app_nth1 r1), !(app_nth1 v1), !(app_nth1 d1) by lia.
        rewrite Hdone. simpl. ring.
      + rewrite delta_app_r by lia. rewrite non_terminal_app_r by lia.
        rewrite !(app_nth2 A1) by lia. rewrite HA1.
        replace (S t - length r1)%nat with (S (t - length r1)) by lia.
        rewrite (Hadv2 (t - length r1)%nat) by lia.
        destruct (decide (S t < length r1 + length r2)%nat);
          destruct (decide (S (t - length r1) < length r2)%nat);
          (done || lia). }
  assert (EA : A = A1 ++ A2).
  { apply (nth_ext _ _ rO rO).
    - rewrite length_app. lia.
    - intros t Ht. apply (Hnth (length r1 + length r2)%nat); lia. }
  split; [done|].
  apply (nth_ext _ _ rO rO).
  - rewrite length_app. lia.
  - intros t Ht. rewrite HR in Ht. rewrite (Hret t Ht), EA.
    destruct (decide (t < length r1)%nat) as [Hin|Hout].
    + rewrite !app_nth1 by lia. by rewrite Hret1.
    + rewrite !app_nth2 by lia. rewrite HA1, HR1, Hv1. by rewrite Hret2 by lia.
Qed.

(** X6.  A trajectory that holds the end of an episode can be cut there:
    when the last done flag of the first part is set, the advantages and
    returns of the whole trajectory are those of the first part, computed
    with any bootstrap value, followed by those of the second part.  This
    holds for every dtype of [rewards]. *)
Theorem compute_gae_split dt lv ld lv1 ld1 gamma lam :
  last d1 = Some true ->
  exists A1 R1 A2 R2,
    compute_gae rO rI radd rmul rsub trunc dt r1 v1 d1 lv1 ld1 gamma lam
    = Some (A1, R1)
    /\ compute_gae rO rI radd rmul rsub trunc dt r2 v2 d2 lv ld gamma lam
       = Some (A2, R2)
    /\ compute_gae rO rI radd rmul rsub trunc dt
         (r1 ++ r2) (v1 ++ v2) (d1 ++ d2) lv ld gamma lam
       = Some (A1 ++ A2, R1 ++ R2).
Proof.
  intros Hlast.
  destruct (compute_gae_split_float lv ld lv1 ld1 gamma lam Hlast)
    as (F1 & S1 & F2 & S2 & Hf1 & Hf2 & Hf).
  destruct (compute_gae_any rO rI radd rmul rsub ropp trunc Fth dt r1 v1 d1
              lv1 ld1 gamma lam Hv1 Hd1) as (F1' & S1' & Hf1' & Hl1 & Hrun1).
  destruct (compute_gae_any rO rI radd rmul rsub ropp trunc Fth dt r2 v2 d2
              lv ld gamma lam Hv2 Hd2) as (F2' & S2' & Hf2' & Hl2 & Hrun2).
  destruct (compute_gae_any rO rI radd rmul rsub ropp trunc Fth dt
              (r1 ++ r2) (v1 ++ v2) (d1 ++ d2) lv ld gamma lam)
    as (F' & S' & Hf' & Hl & Hrun).
  { rewrite !length_app. lia. }
  { rewrite !length_app. lia. }
  rewrite Hf1 in Hf1'. rewrite Hf2 in Hf2'. rewrite Hf in Hf'. simplify_eq.
  eexists _, _, _, _. split; [exact Hrun1|]. split; [exact Hrun2|].
  rewrite Hrun, fmap_app. f_equal. f_equal.
  apply zip_with_app. rewrite length_fmap. lia.
Qed.
End GAESplit.

Lemma compute_gae_split_witness :
  exists A1 R1 A2 R2,
    compute_gae 0%Z 1%Z Z.add Z.mul Z.sub Ztrunc Np.float_
      [4; 7]%Z [1; 2]%Z [false; true] 0%Z true 2%Z 3%Z = Some (A1, R1)
    /\ compute_gae 0%Z 1%Z Z.add Z.mul Z.sub Ztrunc Np.float_
         [1; 6]%Z [3; 5]%Z [false; false] 9%Z false 2%Z 3%Z = Some (A2, R2)
    /\ compute_gae 0%Z 1%Z Z.add Z.mul Z.sub Ztrunc Np.float_
         [4; 7; 1; 6]%Z [1; 2; 3; 5]%Z
         [false; true; false; false] 9%Z false 2%Z 3%Z
       = Some (A1 ++ A2, R1 ++ R2).
Proof.
  apply (compute_gae_split 0%Z 1%Z Z.add Z.mul Z.sub Z.opp Ztrunc Zth
           [4; 7]%Z [1; 2]%Z [1; 6]%Z [3; 5]%Z [false; true] [false; false]
           eq_refl eq_refl eq_refl eq_refl Np.float_
           9%Z false 0%Z true 2%Z 3%Z eq_refl).
Defined.

(** * Further properties of the rollout *)

Section WorkerProperties.
Context {F Env Obs Act Params Gen : Type}.
Variable env_reset_seed : Env -> Z -> Obs * Env.
Variable env_reset : Env -> Obs * Env.
Variable env_step : Env -> Act -> (Obs * F * bool * bool) * Env.
Variable sample_action : Params -> Obs -> Gen -> (Act * F * F) * Gen.
Variable value_estimate : Params -> Obs -> F.

Local Abbreviation state := (@rollout_state F Env Obs Act Gen).
Local Abbreviation body := (rollout_body env_reset env_step sample_action).
Local Abbreviation loop := (rollout_loop env_reset env_step sample_action).
Local Abbreviation worker :=
  (worker_fn env_reset_seed env_reset env_step sample_action value_estimate).

(** The variable [done] holds the flag appended last. *)
Lemma rollout_loop_done params steps (st : state) :
  rs_done st = last (rs_dones st) ->
  rs_done (loop params steps st) = last (rs_dones (loop params steps st)).
Proof.
  intros Hst.
  apply (rollout_loop_invariant env_reset env_step sample_action
           (fun st => rs_done st = last (rs_dones st)) params steps);
    [|done].
  clear. intros st _ _. unfold rollout_body.
  destruct (sample_action _ _ _) as [[[action log_prob] value] gen].
  destruct (env_step _ _) as [[[[next_obs reward] terminated] truncated] env].
  destruct (if terminated || truncated then _ else _) as [obs env'].
  simpl. by rewrite last_snoc.
Qed.

(** X7.  The flag [last_done] of a trajectory is the done flag of its last
    transition. *)
Theorem worker_last_done wa params env0 gen0 data :
  worker_fn env_reset_seed env_reset env_step sample_action
    value_estimate wa params env0 gen0 = Some data ->
  last (dones data) = Some (last_done data).
Proof.
  unfold worker_fn, worker_rollout.
  destruct (env_reset_seed env0 (worker_seed wa)) as [o env].
  destruct (env_reset env) as [obs env1].
  match goal with |- context [loop params ?n ?st0] =>
    pose proof (rollout_loop_done params n st0 eq_refl) as Hdone;
    destruct (loop params n st0) as [e g ob cs dn os acs lps rws dns vs]
  end.
  simpl in *. destruct dn as [dn|]; simpl; [|done].
  intros [= <-]. simpl. done.
Qed.

(** X8.  A worker delivers a trajectory exactly when [steps_per_worker] is
    positive; otherwise the loop body never runs, [done] is unbound when
    the trajectory is assembled, and nothing is put on the queue. *)
Theorem worker_delivers_iff wa params env0 gen0 :
  is_Some (worker_fn env_reset_seed env_reset env_step sample_action
    value_estimate wa params env0 gen0) <-> (0 < wa_steps_per_worker wa)%Z.
Proof.
  split.
  - intros Hsome.
    destruct (decide (0 < wa_steps_per_worker wa)%Z) as [|Hle]; [done|].
    rewrite (worker_fn_None env_reset_seed env_reset env_step sample_action
               value_estimate wa params env0 gen0) in Hsome by lia.
    by destruct Hsome.
  - intros Hpos.
    destruct (worker_fn_Some env_reset_seed env_reset env_step sample_action
                value_estimate wa params env0 gen0 Hpos) as (data & -> & _).
    by eexists.
Qed.

(** Running the loop up to [n] steps and then up to [m >= n] steps is
    running it up to [m] steps. *)
Lemma rollout_loop_compose params (n m : Z) (st : state) :
  (n <= m)%Z -> loop params m (loop params n st) = loop params m st.
Proof.
  intros Hnm. funelim (loop params n st).
  - match goal with IH : forall m : Z, _ -> loop _ _ (loop _ _ _) = _ |- _ =>
      rewrite (IH m Hnm) end.
    symmetry. simp rollout_loop.
    destruct (decide (rs_current_step st < m)%Z); [|lia].
    by simp rollout_loop.
  - done.
Qed.

Lemma rollout_loop_extends params steps (st : state) :
  rollout_extends st (loop params steps st).
Proof.
  apply (rollout_loop_invariant env_reset env_step sample_action
           (rollout_extends st) params steps).
  - clear. intros st' (H1 & H2 & H3 & H4 & H5 & H6) _.
    unfold rollout_extends, rollout_body.
    destruct (sample_action _ _ _) as [[[action log_prob] value] gen].
    destruct (env_step _ _)
      as [[[[next_obs reward] terminated] truncated] env].
    destruct (if terminated || truncated then _ else _) as [obs env'].
    simpl. repeat split; by apply prefix_app_r.
  - by repeat split.
Qed.

(** X9.  A longer rollout extends a shorter one: with the same parameters,
    environment and generator, the trajectory of a worker with [n] steps
    is, array by array, the beginning of the trajectory of the worker with
    [m >= n] steps. *)
Theorem worker_prefix wa wa' params env0 gen0 data data' :
  worker_seed wa = worker_seed wa' ->
  (wa_steps_per_worker wa <= wa_steps_per_worker wa')%Z ->
  worker_fn env_reset_seed env_reset env_step sample_action
    value_estimate wa params env0 gen0 = Some data ->
  worker_fn env_reset_seed env_reset env_step sample_action
    value_estimate wa' params env0 gen0 = Some data' ->
  observations data `prefix_of` observations data'
  /\ actions data `prefix_of` actions data'
  /\ log_probs data `prefix_of` log_probs data'
  /\ rewards data `prefix_of` rewards data'
  /\ dones data `prefix_of` dones data'
  /\ values data `prefix_of` values data'.
Proof.
  intros Hseed Hle. unfold worker_fn, worker_rollout. rewrite <- Hseed.
  destruct (env_reset_seed env0 (worker_seed wa)) as [o env].
  destruct (env_reset env) as [obs env1].
  match goal with |- context [loop params (wa_steps_per_worker wa) ?st0] =>
    rewrite <- (rollout_loop_compose params _ _ st0 Hle);
    pose proof (rollout_loop_extends params (wa_steps_per_worker wa')
                  (loop params (wa_steps_per_worker wa) st0)) as Hext;
    destruct (loop params (wa_steps_per_worker wa')
                (loop params (wa_steps_per_worker wa) st0))
      as [e' g' ob' cs' dn' os' acs' lps' rws' dns' vs'];
    destruct (loop params (wa_steps_per_worker wa) st0)
      as [e g ob cs dn os acs lps rws dns vs]
  end.
  simpl. destruct dn as [dn|], dn' as [dn'|]; simpl; try done.
  intros [= <-] [= <-]. exact Hext.
Qed.
End WorkerProperties.

Lemma worker_last_done_witness :
  exists data,
    worker_fn toy_reset_seed toy_reset toy_step toy_sample toy_value
      {| wa_worker_id := 1; wa_steps_per_worker := 5; wa_seed := 10 |} () 0%Z 0%Z
    = Some data
    /\ last (dones data) = Some (last_done data).
Proof.
  eexists. split; [reflexivity|].
  apply (worker_last_done toy_reset_seed toy_reset toy_step toy_sample
           toy_value
           {| wa_worker_id := 1; wa_steps_per_worker := 5; wa_seed := 10 |}
           () 0%Z 0%Z).
  reflexivity.
Defined.

Lemma worker_prefix_witness :
  exists data data',
    worker_fn toy_reset_seed toy_reset toy_step toy_sample toy_value
      {| wa_worker_id := 1; wa_steps_per_worker := 2; wa_seed := 10 |} () 0%Z 0%Z
    = Some data
    /\ worker_fn toy_reset_seed toy_reset toy_step toy_sample toy_value
         {| wa_worker_id := 1; wa_steps_per_worker := 5; wa_seed := 10 |} ()
         0%Z 0%Z
       = Some data'
    /\ rewards data `prefix_of` rewards data'.
Proof.
  eexists _, _. split; [reflexivity|]. split; [reflexivity|].
  apply (worker_prefix toy_reset_seed toy_reset toy_step toy_sample toy_value
           {| wa_worker_id := 1; wa_steps_per_worker := 2; wa_seed := 10 |}
           {| wa_worker_id := 1; wa_steps_per_worker := 5; wa_seed := 10 |}
           () 0%Z 0%Z);
    [reflexivity | simpl; lia | reflexivity | reflexivity].
Defined.

(** * Properties of the actor-critic model and the loss *)

Section ActorCriticFacts.
Open Scope R_scope.

Lemma exp_mono x y : x <= y -> exp x <= exp y.
Proof.
  intros [Hlt| ->]; [left; by apply exp_increasing | right; reflexivity].
Qed.

(** X10.  Whatever the layers compute, every log-std that [forward]
    yields lies between [LOG_STD_MIN] and [LOG_STD_MAX], so that every
    standard deviation [exp log_std] lies between [exp (-5)] and [exp 2]
    and is positive. *)
Theorem forward_log_std_range (shared_layer fc_mean fc_logstd critic :
    list R -> list R) (x : list R) :
  Forall (fun l => LOG_STD_MIN <= l <= LOG_STD_MAX
                   /\ exp (-5) <= exp l <= exp 2 /\ 0 < exp l)
         (forward shared_layer fc_mean fc_logstd critic x).1.2.
Proof.
  unfold forward. simpl. rewrite <- list_fmap_compose.
  apply Forall_fmap, Forall_forall. intros raw _. simpl.
  pose proof (tanh_bounds raw) as [Hlo Hhi].
  unfold LOG_STD_MIN, LOG_STD_MAX.
  assert (Hr : -5 <= -5 + 0.5 * (2 - -5) * (tanh raw + 1) <= 2) by lra.
  split; [exact Hr|]. split; [|apply exp_pos].
  split; apply exp_mono; lra.
Qed.

(** X11.  A sampled action lies within the bounds of the action space from
    which the action scale and bias were derived: in every dimension
    whose lower bound does not exceed its upper bound, the action is
    between the two. *)
Theorem sampled_action_in_bounds (mean log_std low high x_t : list R)
    (i : nat) (l h x : R) :
  low !! i = Some l -> high !! i = Some h -> x_t !! i = Some x -> l <= h ->
  exists a,
    (sample_log_prob mean log_std (action_scale low high)
                     (action_bias low high) x_t).1 !! i = Some a
    /\ l <= a <= h.
Proof.
  intros Hl Hh Hx Hle. unfold sample_log_prob, action_scale, action_bias.
  simpl. rewrite !lookup_zip_with, list_lookup_fmap, Hx, Hh, Hl. simpl.
  eexists. split; [done|].
  pose proof (tanh_bounds x) as [Hlo Hhi]. nra.
Qed.

(** X12.  The clipped surrogate of a sample, for a clip parameter that is
    not negative: it never exceeds the unclipped term [ratio * advantage];
    for a non-negative advantage it is at most [(1 + epsilon) * advantage]
    and for a non-positive one at most [(1 - epsilon) * advantage],
    however far the ratio has moved; and while the ratio is within
    [[1 - epsilon, 1 + epsilon]] it is the unclipped term.  The ratio is
    [exp (new - old)] and is positive. *)
Theorem surrogate_clipped (log_probs_new mb_log_probs_old mb_advantages :
    list R) (clip_epsilon : R) (i : nat) (new old adv : R) :
  0 <= clip_epsilon ->
  log_probs_new !! i = Some new -> mb_log_probs_old !! i = Some old ->
  mb_advantages !! i = Some adv ->
  exists s,
    surrogate log_probs_new mb_log_probs_old mb_advantages clip_epsilon !! i
    = Some s
    /\ 0 < exp (new - old)
    /\ s <= exp (new - old) * adv
    /\ (0 <= adv -> s <= (1 + clip_epsilon) * adv)
    /\ (adv <= 0 -> s <= (1 - clip_epsilon) * adv)
    /\ (1 - clip_epsilon <= exp (new - old) <= 1 + clip_epsilon ->
        s = exp (new - old) * adv).
Proof.
  intros Heps Hn Ho Ha. unfold surrogate.
  rewrite !lookup_zip_with, !list_lookup_fmap, !lookup_zip_with, Hn, Ho, Ha.
  simpl. eexists. split; [done|].
  pose proof (exp_pos (new - old)) as Hr.
  set (r := exp (new - old)) in *.
  assert (Hc : 1 - clip_epsilon
               <= Torch.clamp r (1 - clip_epsilon) (1 + clip_epsilon)
               <= 1 + clip_epsilon).
  { unfold Torch.clamp, Rmin, Rmax.
    repeat destruct (Rle_dec _ _); lra. }
  split; [done|]. split; [apply Rmin_l|].
  split; [|split].
  - intros Hadv. eapply Rle_trans; [apply Rmin_r|]. nra.
  - intros Hadv. eapply Rle_trans; [apply Rmin_r|]. nra.
  - intros Hin. rewrite clamp_inside by done. by apply Rmin_left.
Qed.
End ActorCriticFacts.

Lemma sampled_action_in_bounds_witness :
  exists a,
    (sample_log_prob [0%R] [0%R] (action_scale [(-1)%R] [1%R])
                     (action_bias [(-1)%R] [1%R]) [x_gap]).1 !! 0%nat = Some a
    /\ (-1 <= a <= 1)%R.
Proof.
  apply (sampled_action_in_bounds [0%R] [0%R] [(-1)%R] [1%R] [x_gap] 0
           (-1)%R 1%R x_gap eq_refl eq_refl eq_refl).
  lra.
Defined.

Lemma surrogate_clipped_witness :
  exists s,
    surrogate [0%R] [0%R] [3%R] 0.2%R !! 0%nat = Some s
    /\ (0 < exp (0 - 0))%R
    /\ (s <= exp (0 - 0) * 3)%R.
Proof.
  destruct (surrogate_clipped [0%R] [0%R] [3%R] 0.2%R 0 0%R 0%R 3%R
              ltac:(lra) eq_refl eq_refl eq_refl)
    as (s & Hs & Hpos & Hle & _).
  exists s. split; [exact Hs|]. split; [exact Hpos | exact Hle].
Defined.

(** * Further properties of the advantage normalisation *)

Section NormalizeProperties.
Open Scope R_scope.

Lemma normalize_Some (x : list R) :
  (2 <= length x)%nat ->
  exists sd,
    Torch.std x = Some sd /\ 0 <= sd
    /\ sd = sqrt (Torch.sum ((fun a => (a - Torch.sum x / INR (length x)) ^ 2)
                             <$> x)
                  / (INR (length x) - 1))
    /\ normalize_advantages x
       = Some ((fun a => (a - Torch.sum x / INR (length x)) / (sd + 1e-8))
               <$> x).
Proof.
  intros Hn. destruct (std_Some x Hn) as (m & sd & Hm & Hsd & Hpos & Esd).
  rewrite mean_Some in Hm by lia. injection Hm as <-.
  exists sd. split; [done|]. split; [done|]. split; [done|].
  unfold normalize_advantages. rewrite mean_Some by lia. simpl.
  rewrite Hsd. simpl. apply mapM_div_Some. lra.
Qed.

Lemma sum_fmap_affine (x : list R) m d :
  Torch.sum ((fun a => (a - m) / d) <$> x)
  = (Torch.sum x - INR (length x) * m) / d.
Proof.
  induction x as [|a x IH].
  - simpl. unfold Rdiv. ring.
  - rewrite fmap_cons. cbn [Torch.sum foldr length].
    fold (Torch.sum ((fun a => (a - m) / d) <$> x)). fold (Torch.sum x).
    rewrite IH, S_INR. unfold Rdiv. ring.
Qed.

Lemma sum_replicate n c : Torch.sum (replicate n c) = INR n * c.
Proof.
  induction n as [|n IH]; [simpl; ring|].
  cbn [replicate Torch.sum foldr]. fold (Torch.sum (replicate n c)).
  rewrite IH, S_INR. ring.
Qed.

(** X13.  The normalised advantages of a batch of at least two entries
    are as many as the advantages, they sum to zero, and they are in the
    order of the advantages: a larger advantage is never normalised to a
    smaller value. *)
Theorem normalize_advantages_centered (adv : list R) :
  (2 <= length adv)%nat ->
  exists norm,
    normalize_advantages adv = Some norm
    /\ length norm = length adv
    /\ Torch.sum norm = 0
    /\ forall i j a b, adv !! i = Some a -> adv !! j = Some b -> a <= b ->
         exists a' b',
           norm !! i = Some a' /\ norm !! j = Some b' /\ a' <= b'.
Proof.
  intros Hn. destruct (normalize_Some adv Hn) as (sd & _ & Hpos & _ & Hnorm).
  eexists. split; [exact Hnorm|]. split; [by rewrite length_fmap|].
  assert (HN : INR (length adv) <> 0) by (apply not_0_INR; lia).
  split.
  - rewrite sum_fmap_affine.
    replace (Torch.sum adv - INR (length adv)
                             * (Torch.sum adv / INR (length adv)))
      with 0 by (field; done).
    unfold Rdiv. ring.
  - intros i j a b Hi Hj Hab. rewrite !list_lookup_fmap, Hi, Hj. simpl.
    eexists _, _. split; [done|]. split; [done|].
    apply Rmult_le_compat_r; [|lra].
    left. apply Rinv_0_lt_compat. lra.
Qed.

(** X14.  A batch of at least two equal advantages has the standard
    deviation 0, the divisor is the bare [1e-8], and every normalised
    advantage is 0. *)
Theorem normalize_advantages_constant (n : nat) (c : R) :
  (2 <= n)%nat ->
  Torch.std (replicate n c) = Some 0
  /\ normalize_advantages (replicate n c) = Some (replicate n 0).
Proof.
  intros Hn.
  destruct (normalize_Some (replicate n c)) as (sd & Hsd & _ & Esd & Hnorm).
  { by rewrite length_replicate. }
  rewrite length_replicate, sum_replicate in Esd, Hnorm.
  assert (HN : INR n <> 0) by (apply not_0_INR; lia).
  assert (Em : INR n * c / INR n = c) by (field; done).
  rewrite Em in Esd, Hnorm.
  rewrite fmap_replicate, sum_replicate in Esd.
  replace (INR n * (c - c) ^ 2 / (INR n - 1)) with 0 in Esd
    by (unfold Rdiv; ring).
  rewrite sqrt_0 in Esd. subst sd.
  split; [done|]. rewrite Hnorm, fmap_replicate. do 2 f_equal.
  unfold Rdiv. ring.
Qed.
End NormalizeProperties.

Lemma normalize_advantages_centered_witness :
  exists norm,
    normalize_advantages [1%R; 3%R] = Some norm /\ Torch.sum norm = 0%R.
Proof.
  destruct (normalize_advantages_centered [1%R; 3%R]) as (norm & H & _ & Hs & _).
  - simpl. lia.
  - exists norm. split; [exact H | exact Hs].
Defined.

Lemma normalize_advantages_constant_witness :
  Torch.std (replicate 3 5%R) = Some 0%R
  /\ normalize_advantages (replicate 3 5%R) = Some (replicate 3 0%R).
Proof. apply (normalize_advantages_constant 3 5%R). lia. Defined.

(** * Further properties of [ppo_update] *)

Section MapMFacts.
Context {A B : Type} (f : A -> option B).

Lemma mapM_app_Some (l1 l2 : list A) k1 k2 :
  mapM f l1 = Some k1 -> mapM f l2 = Some k2 ->
  mapM f (l1 ++ l2) = Some (k1 ++ k2).
Proof.
  rewrite !mapM_Some. apply Forall2_app.
Qed.

Lemma mapM_Permutation (l l' : list A) k' :
  l ≡ₚ l' -> mapM f l' = Some k' ->
  exists k, mapM f l = Some k /\ k ≡ₚ k'.
Proof.
  intros Hp. revert k'.
  induction Hp as [|x l l' Hp IH|x y l|l l1 l' Hp1 IH1 Hp2 IH2]; intros k'.
  - intros [= <-]. by exists [].
  - simpl. destruct (f x) as [y|]; [|done]. simpl.
    destruct (mapM f l') as [k1|] eqn:E; [|done]. simpl. intros [= <-].
    destruct (IH k1 eq_refl) as (k & -> & Hk).
    exists (y :: k). split; [done|]. by constructor.
  - simpl. destruct (f x) as [x'|]; [|done]. simpl.
    destruct (f y) as [y'|]; [|done]. simpl.
    destruct (mapM f l) as [k1|]; [|done]. simpl. intros [= <-].
    exists (y' :: x' :: k1). split; [done|]. apply perm_swap.
  - intros Hk'. destruct (IH2 k' Hk') as (k1 & Hk1 & Hp1').
    destruct (IH1 k1 Hk1) as (k & Hk & Hpk).
    exists k. split; [done|]. by etrans.
Qed.
End MapMFacts.

Section TakeIndicesFacts.
Context {A : Type}.
Implicit Types (l k : list A) (idx : list nat).

Lemma take_indices_seq l n :
  n <= length l -> Torch.take_indices l (seq 0 n) = Some (take n l).
Proof.
  unfold Torch.take_indices. induction n as [|n IH]; intros Hn.
  - by rewrite take_0.
  - rewrite seq_S. simpl.
    destruct (lookup_lt_is_Some_2 l n) as [x Hx]; [lia|].
    rewrite (mapM_app_Some _ _ [n] (take n l) [x]).
    + by rewrite (take_S_r _ _ _ Hx).
    + apply IH. lia.
    + simpl. by rewrite Hx.
Qed.

(** Indexing with a permutation of all the indices permutes the array. *)
Lemma take_indices_Permutation l idx :
  idx ≡ₚ seq 0 (length l) ->
  exists k, Torch.take_indices l idx = Some k /\ k ≡ₚ l.
Proof.
  intros Hp.
  destruct (mapM_Permutation (fun i => l !! i) idx (seq 0 (length l)) l Hp)
    as (k & Hk & Hpk).
  - pose proof (take_indices_seq l (length l) ltac:(lia)) as H.
    by rewrite firstn_all in H.
  - by exists k.
Qed.

Lemma take_indices_length l idx k :
  Torch.take_indices l idx = Some k -> length k = length idx.
Proof.
  unfold Torch.take_indices. rewrite mapM_Some. intros H.
  symmetry. by eapply Forall2_length.
Qed.

Lemma take_indices_is_Some l idx :
  Forall (fun i => i < length l) idx -> is_Some (Torch.take_indices l idx).
Proof.
  intros H. apply mapM_is_Some. eapply Forall_impl; [exact H|].
  intros i Hi. simpl. by apply lookup_lt_is_Some_2.
Qed.

Lemma take_indices_app l idx1 idx2 k1 k2 :
  Torch.take_indices l idx1 = Some k1 ->
  Torch.take_indices l idx2 = Some k2 ->
  Torch.take_indices l (idx1 ++ idx2) = Some (k1 ++ k2).
Proof. apply mapM_app_Some. Qed.
End TakeIndicesFacts.

Lemma take_indices_zip {A B} (l1 : list A) (l2 : list B) idx k1 k2 :
  Torch.take_indices l1 idx = Some k1 ->
  Torch.take_indices l2 idx = Some k2 ->
  Torch.take_indices (zip l1 l2) idx = Some (zip k1 k2).
Proof.
  unfold Torch.take_indices. rewrite !mapM_Some.
  revert k1 k2. induction idx as [|i idx IH]; intros k1 k2 H1 H2.
  - apply Forall2_nil_inv_l in H1 as ->. apply Forall2_nil_inv_l in H2 as ->.
    constructor.
  - apply Forall2_cons_inv_l in H1 as (x & k1' & Hx & H1 & ->).
    apply Forall2_cons_inv_l in H2 as (y & k2' & Hy & H2 & ->).
    simpl. constructor; [|by apply IH].
    by rewrite lookup_zip_with, Hx, Hy.
Qed.

Section PPOUpdateFacts.
Context {Model Obs Act Rng : Type}.
Variable rng_permutation : Rng -> nat -> list nat * Rng.
Variable minibatch_step : Model -> @minibatch Obs Act -> Model.
Local Abbreviation update := (ppo_update rng_permutation minibatch_step).

Lemma epochs_minibatches_negative epochs batch_size minibatch_size rng :
  (minibatch_size < 0)%Z ->
  epochs_minibatches rng_permutation epochs batch_size minibatch_size rng
  = Some (replicate epochs [],
          rng_after rng_permutation epochs batch_size rng).
Proof.
  intros Hneg. revert rng. induction epochs as [|epochs IH]; intros rng.
  { done. }
  simpl. destruct (rng_permutation rng batch_size) as [indices rng1].
  unfold epoch_minibatches, range_step.
  rewrite decide_False by lia. rewrite decide_True by lia. simpl.
  by rewrite IH.
Qed.

Lemma concat_replicate_nil {A} n : concat (replicate n (@nil A)) = [].
Proof. induction n; [done|]. simpl. done. Qed.

(** X15.  [ppo_update] without a step.  On a batch of at least two
    advantages, an epoch count that is not positive, or a negative
    minibatch size, makes [ppo_update] return without a single minibatch:
    the model is left as it was (with a negative minibatch size the
    generator still draws one permutation per epoch).  A minibatch size
    of zero with at least one epoch makes it raise. *)
Theorem ppo_update_degenerate model (b : @batch R Obs Act)
    (num_epochs minibatch_size : Z) rng :
  2 <= length (batch_advantages b) ->
  ((num_epochs <= 0)%Z \/ (minibatch_size < 0)%Z ->
   update model b num_epochs minibatch_size rng
   = Some ([], model,
           rng_after rng_permutation (Z.to_nat num_epochs)
                     (length (batch_obs b)) rng))
  /\ ((0 < num_epochs)%Z -> minibatch_size = 0%Z ->
      update model b num_epochs minibatch_size rng = None).
Proof.
  intros Hn. destruct (normalize_Some _ Hn) as (sd & _ & _ & _ & Hnorm).
  unfold ppo_update. rewrite Hnorm. simpl. unfold ppo_schedule. split.
  - intros [Hle|Hneg].
    + replace (Z.to_nat num_epochs) with 0 by lia. done.
    + rewrite epochs_minibatches_negative by done. simpl.
      by rewrite concat_replicate_nil.
  - intros Hpos ->.
    destruct (Z.to_nat num_epochs) as [|e] eqn:E; [lia|].
    simpl. destruct (rng_permutation rng _) as [indices rng1].
    done.
Qed.

Section Covers.
Variables (b : @batch R Obs Act) (norm : list R).
Hypothesis Hactions : length (batch_actions b) = length (batch_obs b).
Hypothesis Hlog_probs : length (batch_log_probs_old b) = length (batch_obs b).
Hypothesis Hnorm : length norm = length (batch_obs b).
Hypothesis Hreturns : length (batch_returns b) = length (batch_obs b).

Lemma batch_rows_length : length (batch_rows b norm) = length (batch_obs b).
Proof. unfold batch_rows. rewrite !length_zip_with. lia. Qed.

Lemma take_minibatch_rows idx :
  Forall (fun i => i < length (batch_obs b)) idx ->
  exists mb,
    take_minibatch b norm idx = Some mb
    /\ Torch.take_indices (batch_rows b norm) idx = Some (minibatch_rows mb)
    /\ length (mb_obs mb) = length idx
    /\ length (mb_actions mb) = length idx
    /\ length (mb_log_probs_old mb) = length idx
    /\ length (mb_advantages mb) = length idx
    /\ length (mb_returns mb) = length idx.
Proof.
  intros Hidx. unfold take_minibatch.
  destruct (take_indices_is_Some (batch_obs b) idx) as [k1 H1]; [done|].
  destruct (take_indices_is_Some (batch_actions b) idx) as [k2 H2].
  { by rewrite Hactions. }
  destruct (take_indices_is_Some (batch_log_probs_old b) idx) as [k3 H3].
  { by rewrite Hlog_probs. }
  destruct (take_indices_is_Some norm idx) as [k4 H4].
  { by rewrite Hnorm. }
  destruct (take_indices_is_Some (batch_returns b) idx) as [k5 H5].
  { by rewrite Hreturns. }
  rewrite H1, H2, H3, H4, H5. simpl. eexists. split; [done|].
  unfold batch_rows, minibatch_rows. simpl.
  split; [by repeat apply take_indices_zip|].
  repeat split; by eapply take_indices_length.
Qed.

Lemma take_minibatches_rows (chunks : list (list nat)) :
  Forall (Forall (fun i => i < length (batch_obs b))) chunks ->
  exists mbs,
    mapM (take_minibatch b norm) chunks = Some mbs
    /\ Torch.take_indices (batch_rows b norm) (concat chunks)
       = Some (concat (minibatch_rows <$> mbs))
    /\ Forall2 (fun idx mb =>
                  length (mb_obs mb) = length idx
                  /\ length (mb_actions mb) = length idx
                  /\ length (mb_log_probs_old mb) = length idx
                  /\ length (mb_advantages mb) = length idx
                  /\ length (mb_returns mb) = length idx) chunks mbs.
Proof.
  induction 1 as [|idx chunks Hidx _ IH].
  { exists []. by repeat split. }
  destruct (take_minibatch_rows idx Hidx) as (mb & Hmb & Hrows & Hlen).
  destruct IH as (mbs & Hmbs & Hcat & Hlens).
  exists (mb :: mbs). simpl. rewrite Hmb. simpl. rewrite Hmbs. simpl.
  split; [done|]. split; [by apply take_indices_app|].
  by constructor.
Qed.
End Covers.
End PPOUpdateFacts.

Section PPOUpdateCovers.
Context {Model Obs Act Rng : Type}.
Variable rng_permutation : Rng -> nat -> list nat * Rng.
Variable minibatch_step : Model -> @minibatch Obs Act -> Model.
Hypothesis Hperm : forall g n, (rng_permutation g n).1 ≡ₚ seq 0 n.

(** Every epoch of the schedule is a permutation of the batch indices, cut
    into minibatches of one to [minibatch_size] indices. *)
Lemma schedule_epochs epochs batch_size minibatch_size rng :
  (0 < minibatch_size)%Z ->
  exists sched,
    epochs_minibatches rng_permutation epochs batch_size minibatch_size rng
    = Some (sched, rng_after rng_permutation epochs batch_size rng)
    /\ length sched = epochs
    /\ Forall (fun mbs =>
                 concat mbs ≡ₚ seq 0 batch_size
                 /\ Forall (fun mb =>
                              0 < length mb <= Z.to_nat minibatch_size) mbs)
              sched.
Proof.
  intros Hs.
  assert (Hlen : forall g n, length (rng_permutation g n).1 = n).
  { intros g n. rewrite (Hperm g n). apply length_seq. }
  destruct (epochs_minibatches_spec rng_permutation epochs batch_size
              minibatch_size rng Hlen Hs) as (sched & Hrun & Hl & Hsched).
  exists sched. split; [done|]. split; [done|].
  apply Forall_lookup. intros e mbs He. specialize (Hsched e mbs He).
  destruct (epoch_minibatches_partition batch_size minibatch_size _ Hs
              (Hlen (rng_after rng_permutation e batch_size rng) batch_size))
    as (mbs' & Hmbs' & Hcat & Hfull & Hlast).
  assert (mbs' = mbs) as -> by congruence.
  split; [rewrite Hcat; apply Hperm|].
  apply Forall_lookup. intros j mb Hj.
  destruct (decide (S j < length mbs)) as [Hlt|Hge].
  - rewrite (Hfull j mb Hj Hlt). lia.
  - apply Hlast. rewrite last_lookup.
    pose proof (lookup_lt_Some _ _ _ Hj).
    by replace (pred (length mbs)) with j by lia.
Qed.

Lemma concat_schedule (sched : list (list (list nat))) n :
  Forall (fun mbs => concat mbs ≡ₚ seq 0 n) sched ->
  concat (concat sched) ≡ₚ concat (replicate (length sched) (seq 0 n)).
Proof.
  induction 1 as [|mbs sched Hmbs _ IH]; [done|].
  simpl. rewrite concat_app. by rewrite Hmbs, IH.
Qed.

Lemma take_indices_epochs {A} (l : list A) e :
  Torch.take_indices l (concat (replicate e (seq 0 (length l))))
  = Some (concat (replicate e l)).
Proof.
  induction e as [|e IH]; [done|].
  simpl. apply take_indices_app; [|done].
  pose proof (take_indices_seq l (length l) ltac:(lia)) as H.
  by rewrite firstn_all in H.
Qed.

(** On a well-formed batch [ppo_update] runs to the end and goes through
    every sample once per epoch. *)
Lemma ppo_update_spec model (b : @batch R Obs Act)
    (num_epochs minibatch_size : Z) rng :
  (0 < minibatch_size)%Z ->
  2 <= length (batch_obs b) ->
  length (batch_actions b) = length (batch_obs b) ->
  length (batch_log_probs_old b) = length (batch_obs b) ->
  length (batch_advantages b) = length (batch_obs b) ->
  length (batch_returns b) = length (batch_obs b) ->
  exists norm mbs,
    normalize_advantages (batch_advantages b) = Some norm
    /\ ppo_update rng_permutation minibatch_step model b num_epochs
                  minibatch_size rng
       = Some (mbs, foldl minibatch_step model mbs,
               rng_after rng_permutation (Z.to_nat num_epochs)
                         (length (batch_obs b)) rng)
    /\ concat (minibatch_rows <$> mbs)
       ≡ₚ concat (replicate (Z.to_nat num_epochs) (batch_rows b norm))
    /\ Forall (fun mb =>
                 0 < length (mb_obs mb) <= Z.to_nat minibatch_size
                 /\ length (mb_actions mb) = length (mb_obs mb)
                 /\ length (mb_log_probs_old mb) = length (mb_obs mb)
                 /\ length (mb_advantages mb) = length (mb_obs mb)
                 /\ length (mb_returns mb) = length (mb_obs mb)) mbs.
Proof.
  intros Hs Hn Ha Hl Hadv Hr.
  destruct (normalize_Some (batch_advantages b)) as (sd & _ & _ & _ & Hnorm);
    [lia|].
  set (norm := (fun a => _) <$> batch_advantages b) in Hnorm.
  assert (Hnl : length norm = length (batch_obs b)).
  { unfold norm. by rewrite length_fmap. }
  destruct (schedule_epochs (Z.to_nat num_epochs) (length (batch_obs b))
              minibatch_size rng Hs) as (sched & Hrun & Hlen & Hsched).
  assert (Hcat : concat (concat sched)
                 ≡ₚ concat (replicate (length sched)
                                      (seq 0 (length (batch_obs b))))).
  { apply concat_schedule. eapply Forall_impl; [exact Hsched|].
    by intros mbs [? _]. }
  assert (Hidx : Forall (Forall (fun i => i < length (batch_obs b)))
                        (concat sched)).
  { apply Forall_forall. intros idx Hin. apply Forall_forall. intros i Hi.
    assert (Hi' : i ∈ concat (concat sched)).
    { apply list_elem_of_In, in_concat. exists idx.
      split; by apply list_elem_of_In. }
    rewrite Hcat in Hi'.
    apply list_elem_of_In, in_concat in Hi' as (p & Hp & Hip).
    apply list_elem_of_In, elem_of_replicate in Hp as [-> _].
    apply list_elem_of_In, elem_of_seq in Hip. lia. }
  destruct (take_minibatches_rows b norm Ha Hl Hnl Hr (concat sched) Hidx)
    as (mbs & Hmbs & Hrows & Hlens).
  exists norm, mbs. split; [done|]. split; [|split].
  - unfold ppo_update. rewrite Hnorm. simpl. unfold ppo_schedule.
    rewrite Hrun. simpl. rewrite Hmbs. done.
  - destruct (mapM_Permutation (fun i => batch_rows b norm !! i)
                _ _ (concat (replicate (length sched) (batch_rows b norm)))
                Hcat) as (k & Hk & Hpk).
    { rewrite <- (batch_rows_length b norm Ha Hl Hnl Hr).
      apply take_indices_epochs. }
    unfold Torch.take_indices in Hrows. rewrite Hrows in Hk.
    injection Hk as <-. by rewrite <- Hlen.
  - assert (Hsizes : Forall (fun idx : list nat =>
                               0 < length idx <= Z.to_nat minibatch_size)
                            (concat sched)).
    { apply Forall_forall. intros idx Hin.
      apply list_elem_of_In, in_concat in Hin as (mbs' & Hm & Hin).
      apply list_elem_of_In in Hm, Hin.
      rewrite Forall_forall in Hsched.
      destruct (Hsched mbs' Hm) as [_ Hall].
      rewrite Forall_forall in Hall. by apply Hall. }
    clear -Hlens Hsizes. induction Hlens as [|idx mb chunks mbs H _ IH].
    { constructor. }
    apply Forall_cons in Hsizes as [Hsz Hrest].
    constructor; [|by apply IH].
    destruct H as (-> & -> & -> & -> & ->). done.
Qed.

(** X16.  On a batch whose five arrays have one length of at least two,
    with a positive minibatch size, [ppo_update] runs to the end.  The
    samples stay whole (every minibatch takes the observation, action, old
    log-probability, normalised advantage and return of the same indices),
    every minibatch holds between one and [minibatch_size] samples, and
    the samples of all minibatches together are the samples of the batch,
    each taken once per epoch. *)
Theorem ppo_update_covers model (b : @batch R Obs Act)
    (num_epochs minibatch_size : Z) rng :
  (0 < minibatch_size)%Z ->
  2 <= length (batch_obs b) ->
  length (batch_actions b) = length (batch_obs b) ->
  length (batch_log_probs_old b) = length (batch_obs b) ->
  length (batch_advantages b) = length (batch_obs b) ->
  length (batch_returns b) = length (batch_obs b) ->
  exists norm mbs,
    normalize_advantages (batch_advantages b) = Some norm
    /\ ppo_update rng_permutation minibatch_step model b num_epochs
                  minibatch_size rng
       = Some (mbs, foldl minibatch_step model mbs,
               rng_after rng_permutation (Z.to_nat num_epochs)
                         (length (batch_obs b)) rng)
    /\ concat (minibatch_rows <$> mbs)
       ≡ₚ concat (replicate (Z.to_nat num_epochs) (batch_rows b norm))
    /\ Forall (fun mb =>
                 0 < length (mb_obs mb) <= Z.to_nat minibatch_size
                 /\ length (mb_actions mb) = length (mb_obs mb)
                 /\ length (mb_log_probs_old mb) = length (mb_obs mb)
                 /\ length (mb_advantages mb) = length (mb_obs mb)
                 /\ length (mb_returns mb) = length (mb_obs mb)) mbs.
Proof. apply ppo_update_spec. Qed.
End PPOUpdateCovers.

(** * Further properties of the episode statistics *)

Section DequeFacts.
Context {A : Type}.
Implicit Types (d xs : list A).

Lemma deque_append_length n d x :
  length (deque_append n d x) = n `min` (length d + 1).
Proof.
  unfold deque_append. rewrite length_drop, length_app. simpl. lia.
Qed.

(** A bounded deque keeps the last [n] of everything appended to it. *)
Lemma deque_append_all n d xs :
  length d <= n ->
  foldl (deque_append n) d xs = drop (length (d ++ xs) - n) (d ++ xs).
Proof.
  revert d. induction xs as [|x xs IH]; intros d Hd.
  { simpl. rewrite app_nil_r. by replace (length d - n) with 0 by lia. }
  simpl. rewrite IH by (rewrite deque_append_length; lia).
  unfold deque_append.
  rewrite <- (drop_app_le (d ++ [x]) xs) by (rewrite length_app; simpl; lia).
  rewrite drop_drop, <- app_assoc. simpl.
  f_equal.
  repeat (rewrite length_drop || rewrite length_app || simpl length).
  lia.
Qed.
End DequeFacts.

Section StatsFacts.
Context {F : Type} (rO : F) (radd : F -> F -> F).

Local Abbreviation episodes_of rewards dones :=
  (length (scan_records rO radd rO 0 (zip rewards dones))).

Lemma scan_trajectory_stats (s : stats) rewards dones :
  length (episode_rewards s) <= 100 ->
  length (episode_lengths s) = length (episode_rewards s) ->
  let s' := scan_trajectory rO radd s rewards dones in
  length (episode_rewards s')
  = 100 `min` (length (episode_rewards s) + episodes_of rewards dones)
  /\ length (episode_lengths s') = length (episode_rewards s')
  /\ total_episodes s' = total_episodes s + episodes_of rewards dones.
Proof.
  intros Hb He. unfold scan_trajectory. rewrite scan_foldl.
  unfold record_all.
  cbn [episode_rewards episode_lengths total_episodes scan_stats
       current_episode_reward current_episode_length].
  set (recs := scan_records rO radd rO 0 (zip rewards dones)).
  rewrite !deque_append_all by lia.
  rewrite !length_drop, !length_app, !length_fmap. lia.
Qed.

Lemma scan_all_stats {Obs Act} (s : stats)
    (all : list (@trajectory_data F Obs Act)) :
  length (episode_rewards s) <= 100 ->
  length (episode_lengths s) = length (episode_rewards s) ->
  let s' := scan_all rO radd s all in
  let n := sum_list ((fun data => episodes_of (rewards data) (dones data))
                     <$> all) in
  length (episode_rewards s') = 100 `min` (length (episode_rewards s) + n)
  /\ length (episode_lengths s') = length (episode_rewards s')
  /\ total_episodes s' = total_episodes s + n.
Proof.
  revert s. induction all as [|data all IH]; intros s Hb He.
  { cbn -[Nat.min]. lia. }
  destruct (scan_trajectory_stats s (rewards data) (dones data) Hb He)
    as (H1 & H2 & H3).
  specialize (IH (scan_trajectory rO radd s (rewards data) (dones data))
                 ltac:(lia) H2).
  cbn -[Nat.min] in *. unfold scan_all in *. cbn -[Nat.min].
  destruct IH as (I1 & I2 & I3). rewrite I1, I2, I3, H1, H3. lia.
Qed.

(** X17.  The episode history is bounded.  Scanning the trajectories of an
    iteration, each with as many rewards as done flags, raises the episode
    count by the number of done flags in them, and the two histories,
    which start with one length of at most 100, end with one length: the
    old length plus the new episodes, capped at 100. *)
Theorem scan_all_bounded {Obs Act} (s : stats)
    (all : list (@trajectory_data F Obs Act)) :
  Forall (fun data => length (rewards data) = length (dones data)) all ->
  length (episode_rewards s) <= 100 ->
  length (episode_lengths s) = length (episode_rewards s) ->
  let s' := scan_all rO radd s all in
  let n := sum_list ((fun data => dones_before (dones data)
                                               (length (dones data)))
                     <$> all) in
  length (episode_rewards s') = 100 `min` (length (episode_rewards s) + n)
  /\ length (episode_lengths s') = length (episode_rewards s')
  /\ total_episodes s' = total_episodes s + n.
Proof.
  intros Hall Hb He s' n.
  assert (En : n = sum_list ((fun data =>
                                episodes_of (rewards data) (dones data))
                             <$> all)).
  { unfold n. f_equal. apply Forall_fmap_ext.
    eapply Forall_impl; [exact Hall|]. intros data Hlen. simpl.
    symmetry. by apply scan_records_length. }
  rewrite En. by apply scan_all_stats.
Qed.
End StatsFacts.

Lemma scan_all_bounded_witness :
  let s' :=
    scan_all 0%Z Z.add
      {| episode_rewards := [100%Z]; episode_lengths := [7];
         total_episodes := 1 |}
      [ {| observations := [(); (); ()]; actions := [(); (); ()];
           log_probs := [0; 0; 0]%Z; rewards := [1; 2; 3]%Z;
           dones := [false; true; true]; values := [0; 0; 0]%Z;
           last_value := 0%Z; last_done := true |} ] in
  length (episode_rewards s') = 3 /\ total_episodes s' = 3.
Proof.
  destruct (scan_all_bounded 0%Z Z.add
              {| episode_rewards := [100%Z]; episode_lengths := [7];
                 total_episodes := 1 |}
              [ {| observations := [(); (); ()]; actions := [(); (); ()];
                   log_probs := [0; 0; 0]%Z; rewards := [1; 2; 3]%Z;
                   dones := [false; true; true]; values := [0; 0; 0]%Z;
                   last_value := 0%Z; last_done := true |} ])
    as (H1 & _ & H3).
  - repeat constructor.
  - simpl. lia.
  - reflexivity.
  - split; [exact H1 | exact H3].
Defined.

(** * The training loop *)

Lemma range_from_length a b : length (range_from a b) = Z.to_nat (b - a).
Proof. unfold range_from, range. by rewrite !length_fmap, length_seq. Qed.

Lemma range_from_empty a b : (b <= a)%Z -> range_from a b = [].
Proof.
  intros H. unfold range_from, range.
  by replace (Z.to_nat (b - a)) with 0 by lia.
Qed.

Section TrainingFacts.
Context {Env Obs Act Model Params Gen Rng : Type}.
Variable env_reset_seed : Env -> Z -> Obs * Env.
Variable env_reset : Env -> Obs * Env.
Variable env_step : Env -> Act -> (Obs * R * bool * bool) * Env.
Variable sample_action : Params -> Obs -> Gen -> (Act * R * R) * Gen.
Variable value_estimate : Params -> Obs -> R.
Variable state_dict : Model -> Params.
Variable rng_permutation : Rng -> nat -> list nat * Rng.
Variable minibatch_step : Model -> @minibatch Obs Act -> Model.
Variables (env0 : Env) (gen0 : Gen).
Variable arrival : Z -> list worker_args.
Variables gamma gae_lambda : R.

Local Abbreviation tstate := (@train_state Model Rng).
Local Abbreviation iteration :=
  (main_iteration env_reset_seed env_reset env_step sample_action
     value_estimate state_dict rng_permutation minibatch_step env0 gen0
     arrival gamma gae_lambda).
Local Abbreviation iterations :=
  (main_iterations env_reset_seed env_reset env_step sample_action
     value_estimate state_dict rng_permutation minibatch_step env0 gen0
     arrival gamma gae_lambda).
Local Abbreviation training :=
  (training_loop env_reset_seed env_reset env_step sample_action
     value_estimate state_dict rng_permutation minibatch_step env0 gen0
     arrival gamma gae_lambda).

(** The histories of the statistics have one length, at most 100. *)
Local Abbreviation bounded st :=
  (length (episode_rewards (ts_stats st)) <= 100
   /\ length (episode_lengths (ts_stats st))
      = length (episode_rewards (ts_stats st))).

(** X19.  Training without an iteration.  A batch size of zero makes
    [main] raise (the division of [total_timesteps] by it); a budget below
    one batch, and a negative batch size with a budget that is not
    negative, make the loop end at once: no worker is started and the
    model is the initial one. *)
Theorem training_loop_idle (args : Args) (st : tstate) :
  (batch_size args = 0%Z -> training args st = None)
  /\ ((0 <= total_timesteps args < batch_size args)%Z ->
      training args st = Some st)
  /\ ((batch_size args < 0)%Z -> (0 <= total_timesteps args)%Z ->
      training args st = Some st).
Proof.
  unfold training_loop, num_updates. split; [|split].
  - intros ->. done.
  - intros Hlt. rewrite decide_False by lia.
    rewrite Z.div_small by done. by rewrite range_from_empty by lia.
  - intros Hneg Hpos. rewrite decide_False by lia.
    rewrite range_from_empty; [done|].
    pose proof (Z_div_mod_eq_full (total_timesteps args) (batch_size args)).
    pose proof (Z.mod_neg_bound (total_timesteps args) (batch_size args)
                  Hneg).
    nia.
Qed.
Section WellFormed.
Variable args : Args.
Hypothesis Hworkers : (0 < num_workers args)%Z.
Hypothesis Hsteps : (0 < steps_per_worker args)%Z.
Hypothesis Hbatch : (2 <= batch_size args)%Z.
Hypothesis Hminibatch : (0 < minibatch_size args)%Z.
Hypothesis Hperm : forall g n, (rng_permutation g n).1 ≡ₚ seq 0 n.
Hypothesis Harrival : forall update, arrival update ≡ₚ spawn_args args update.

Lemma main_iteration_runs (st : tstate) (update : Z) :
  bounded st ->
  exists st',
    iteration args st update = Some st'
    /\ ts_total_steps st' = (ts_total_steps st + batch_size args)%Z
    /\ bounded st'.
Proof.
  intros [Hb He]. unfold main_iteration.
  destruct (gather_trajectories_spec env_reset_seed env_reset env_step
              sample_action value_estimate (state_dict (ts_model st))
              env0 gen0 (arrival update) (steps_per_worker args) Hsteps)
    as (all & Hall & Hlen & Hf).
  { intros wa Hwa. rewrite Harrival in Hwa. unfold spawn_args in Hwa.
    apply list_elem_of_fmap in Hwa as (i & -> & _). done. }
  rewrite Hall. simpl.
  assert (Hn : length all = Z.to_nat (num_workers args)).
  { rewrite Hlen, Harrival. unfold spawn_args, range.
    by rewrite !length_fmap, length_seq. }
  destruct (build_batch_spec 0%R 1%R Rplus Rmult Rminus Ropp Rtrunc RTheory
              gamma gae_lambda all (Z.to_nat (steps_per_worker args)))
    as (b & Hbuild & L1 & L2 & L3 & L4 & L5); [|done|].
  { intros ->. simpl in Hn. lia. }
  rewrite Hbuild. simpl.
  unfold batch_size in Hbatch.
  destruct (ppo_update_spec rng_permutation minibatch_step Hperm
              (ts_model st) b (num_epochs args) (minibatch_size args)
              (ts_rng st) Hminibatch)
    as (norm & mbs & _ & Hrun & _); [nia|lia..|].
  rewrite Hrun. simpl. eexists. split; [done|]. split; [done|].
  simpl.
  destruct (scan_all_stats 0%R Rplus (ts_stats st) all Hb He)
    as (H1 & H2 & _).
  split; [lia | done].
Qed.

Lemma main_iterations_run (updates : list Z) (st : tstate) :
  bounded st ->
  exists st',
    iterations args st updates = Some st'
    /\ ts_total_steps st'
       = (ts_total_steps st + Z.of_nat (length updates) * batch_size args)%Z
    /\ bounded st'.
Proof.
  revert st. induction updates as [|update updates IH]; intros st Hb.
  { exists st. split; [done|]. split; [simpl; lia | done]. }
  destruct (main_iteration_runs st update Hb) as (st1 & Hrun1 & Hs1 & Hb1).
  destruct (IH st1 Hb1) as (st' & Hrun & Hs & Hb').
  exists st'. simpl. rewrite Hrun1. simpl.
  split; [done|]. split; [|done].
  rewrite Hs, Hs1. cbn [length]. lia.
Qed.

(** X18.  The training loop runs to the end.  With positive numbers of
    workers and of steps per worker, a batch of at least two transitions,
    a positive minibatch size, a budget that is not negative, a generator
    that yields permutations, and every worker delivering in every
    iteration (in any order), [main] goes through
    [total_timesteps // batch_size] iterations without an exception.  It
    collects that many whole batches of timesteps: at most
    [total_timesteps], and fewer than one batch short of it.  The episode
    histories stay of one length, at most 100. *)
Theorem training_loop_runs (st : tstate) :
  (0 <= total_timesteps args)%Z ->
  length (episode_rewards (ts_stats st)) <= 100 ->
  length (episode_lengths (ts_stats st))
  = length (episode_rewards (ts_stats st)) ->
  exists st',
    training args st = Some st'
    /\ ts_total_steps st'
       = (ts_total_steps st
          + total_timesteps args `div` batch_size args * batch_size args)%Z
    /\ (total_timesteps args - batch_size args
        < ts_total_steps st' - ts_total_steps st
        <= total_timesteps args)%Z
    /\ length (episode_rewards (ts_stats st')) <= 100
    /\ length (episode_lengths (ts_stats st'))
       = length (episode_rewards (ts_stats st')).
Proof.
  intros Htotal Hb He. unfold training_loop, num_updates.
  rewrite decide_False by lia.
  destruct (main_iterations_run
              (range_from 1 (total_timesteps args `div` batch_size args + 1))
              st (conj Hb He))
    as (st' & Hrun & Hs & Hb' & He').
  exists st'. split; [done|].
  rewrite range_from_length in Hs.
  assert (Hq : (0 <= total_timesteps args `div` batch_size args)%Z).
  { apply Z.div_pos; lia. }
  pose proof (Z_div_mod_eq_full (total_timesteps args) (batch_size args)).
  pose proof (Z.mod_pos_bound (total_timesteps args) (batch_size args)
                ltac:(lia)).
  repeat split; (done || nia).
Qed.
End WellFormed.
End TrainingFacts.

Lemma ppo_update_degenerate_witness :
  ppo_update reversing toy_step_model () toy_batch 2 (-3) ()
  = Some ([], (), rng_after reversing 2 3 ()).
Proof.
  apply (ppo_update_degenerate reversing toy_step_model () toy_batch 2 (-3) ()).
  - simpl. lia.
  - right. lia.
Defined.

Lemma ppo_update_covers_witness :
  exists norm mbs,
    normalize_advantages (batch_advantages toy_batch) = Some norm
    /\ ppo_update reversing toy_step_model () toy_batch 2 2 ()
       = Some (mbs, foldl toy_step_model () mbs, rng_after reversing 2 3 ())
    /\ concat (minibatch_rows <$> mbs)
       ≡ₚ concat (replicate 2 (batch_rows toy_batch norm)).
Proof.
  destruct (ppo_update_covers reversing toy_step_model
              (fun g n => reverse_Permutation (seq 0 n))
              () toy_batch 2 2 ())
    as (norm & mbs & Hnorm & Hrun & Hrows & _);
    [lia | simpl; lia | reflexivity..|].
  exists norm, mbs. split; [exact Hnorm|]. split; [exact Hrun | exact Hrows].
Defined.

Lemma training_loop_runs_witness :
  exists st',
    training_loop toy_reset_seed toy_reset rtoy_step rtoy_sample rtoy_value
      (fun m : unit => m) reversing rtoy_step_model 0%Z 0%Z rtoy_arrival
      0.9%R 0.9%R toy_args toy_train_state
    = Some st'
    /\ ts_total_steps st' = 60%Z.
Proof.
  destruct (training_loop_runs toy_reset_seed toy_reset rtoy_step rtoy_sample
              rtoy_value (fun m : unit => m) reversing rtoy_step_model
              0%Z 0%Z rtoy_arrival 0.9%R 0.9%R toy_args)
    with (st := toy_train_state)
    as (st' & Hrun & Hsteps & _).
  - reflexivity.
  - reflexivity.
  - unfold batch_size. simpl. lia.
  - reflexivity.
  - intros g n. apply reverse_Permutation.
  - intros update. apply reverse_Permutation.
  - simpl. lia.
  - simpl. lia.
  - reflexivity.
  - exists st'. split; [exact Hrun|]. rewrite Hsteps. reflexivity.
Defined.

(** * Determinism of a run *)

Section DeterminismFacts.
Context {Env Obs Act Model Params Gen Rng : Type}.
Variable env_reset_seed : Env -> Z -> Obs * Env.
Variable env_reset : Env -> Obs * Env.
Variable env_step : Env -> Act -> (Obs * R * bool * bool) * Env.
Variable sample_action : Params -> Obs -> Gen -> (Act * R * R) * Gen.
Variable value_estimate : Params -> Obs -> R.
Variable state_dict : Model -> Params.
Variable rng_permutation : Rng -> nat -> list nat * Rng.
Variable minibatch_step : Model -> @minibatch Obs Act -> Model.
Variables (env0 : Env) (gen0 : Gen).
Variables gamma gae_lambda : R.

Local Abbreviation tstate := (@train_state Model Rng).
Local Abbreviation gather :=
  (gather_trajectories env_reset_seed env_reset env_step sample_action
     value_estimate).
Local Abbreviation iteration a :=
  (main_iteration env_reset_seed env_reset env_step sample_action
     value_estimate state_dict rng_permutation minibatch_step env0 gen0
     a gamma gae_lambda).
Local Abbreviation iterations a :=
  (main_iterations env_reset_seed env_reset env_step sample_action
     value_estimate state_dict rng_permutation minibatch_step env0 gen0
     a gamma gae_lambda).
Local Abbreviation sampled a :=
  (sampled_actions env_reset_seed env_reset env_step sample_action
     value_estimate state_dict rng_permutation minibatch_step env0 gen0
     a gamma gae_lambda).

(** What an iteration makes of the model: the optimizer steps through the
    minibatches, whose actions are the actions of the trajectories, in the
    order of arrival, taken at the indices of the schedule. *)
Lemma main_iteration_model a args (st st' : tstate) update :
  iteration a args st update = Some st' ->
  exists all sched mbs,
    gather (state_dict (ts_model st)) env0 gen0 (a update) = Some all
    /\ ppo_schedule rng_permutation (num_epochs args)
         (length (concat (observations <$> all))) (minibatch_size args)
         (ts_rng st)
       = Some (sched, ts_rng st')
    /\ mapM (Torch.take_indices (concat (actions <$> all))) (concat sched)
       = Some (mb_actions <$> mbs)
    /\ ts_model st' = foldl minibatch_step (ts_model st) mbs.
Proof.
  unfold main_iteration. intros H.
  destruct (gather _ _ _ _) as [all|]; simpl in H; [|done].
  destruct (build_batch _ _ _ _ _ _ _ _ all) as [b|] eqn:Hb; simpl in H;
    [|done].
  destruct (ppo_update _ _ _ _ _ _ _) as [[[mbs model] rng]|] eqn:Hppo;
    simpl in H; [|done].
  simplify_eq. simpl.
  unfold build_batch in Hb.
  destruct (mapM _ all) as [gae|]; simpl in Hb; [|done].
  assert (Hcat : forall {A} (l : list (list A)) c,
            np_concatenate l = Some c -> c = concat l).
  { intros A l c. unfold np_concatenate. destruct l; [done|].
    by intros [= <-]. }
  destruct (np_concatenate (observations <$> all)) as [c1|] eqn:E1;
    simpl in Hb; [|done].
  destruct (np_concatenate (actions <$> all)) as [c2|] eqn:E2;
    simpl in Hb; [|done].
  destruct (np_concatenate (log_probs <$> all)) as [c3|] eqn:E3;
    simpl in Hb; [|done].
  destruct (np_concatenate gae.*1) as [c4|] eqn:E4; simpl in Hb; [|done].
  destruct (np_concatenate gae.*2) as [c5|] eqn:E5; simpl in Hb; [|done].
  apply Hcat in E1, E2. simplify_eq.
  unfold ppo_update in Hppo. simpl in Hppo.
  destruct (normalize_advantages _) as [norm|]; simpl in Hppo; [|done].
  destruct (ppo_schedule _ _ _ _ _) as [[sched rng']|] eqn:Hs; simpl in Hppo;
    [|done].
  destruct (mapM _ (concat sched)) as [mbs'|] eqn:Hm; simpl in Hppo; [|done].
  simplify_eq.
  exists all, sched, mbs. split; [done|]. split; [done|]. split; [|done].
  revert mbs Hm. induction (concat sched) as [|idx idxs IH]; intros mbs Hm.
  { cbv in Hm. by simplify_eq. }
  simpl in Hm.
  destruct (take_minibatch _ _ idx) as [mb|] eqn:Emb; simpl in Hm; [|done].
  destruct (mapM _ idxs) as [mbs0|]; simpl in Hm; [|done].
  unfold mret, option_ret in Hm. simplify_eq.
  simpl. rewrite (IH mbs0 eq_refl). simpl.
  unfold take_minibatch in Emb. simpl in Emb.
  destruct (Torch.take_indices (concat (observations <$> all)) idx);
    simpl in Emb; [|done].
  destruct (Torch.take_indices (concat (actions <$> all)) idx);
    simpl in Emb; [|done].
  destruct (Torch.take_indices c3 idx); simpl in Emb; [|done].
  destruct (Torch.take_indices norm idx); simpl in Emb; [|done].
  destruct (Torch.take_indices c5 idx); simpl in Emb; [|done].
  by simplify_eq.
Qed.

Local Abbreviation training a :=
  (training_loop env_reset_seed env_reset env_step sample_action
     value_estimate state_dict rng_permutation minibatch_step env0 gen0
     a gamma gae_lambda).
Local Abbreviation trace a :=
  (training_actions env_reset_seed env_reset env_step sample_action
     value_estimate state_dict rng_permutation minibatch_step env0 gen0
     a gamma gae_lambda).

Lemma main_iterations_ext a1 a2 args updates :
  (forall update, update ∈ updates -> a1 update = a2 update) ->
  forall st : tstate,
    iterations a1 args st updates = iterations a2 args st updates
    /\ sampled a1 args st updates = sampled a2 args st updates.
Proof.
  induction updates as [|update updates IH]; intros Hsame st; [done|].
  simpl. unfold main_iteration. rewrite <- (Hsame update) by left.
  fold (iteration a1 args st update).
  destruct (iteration a1 args st update) as [st'|]; simpl.
  - destruct (IH (fun u Hu => Hsame u (list_elem_of_further _ _ _ Hu)) st')
      as [-> ->].
    done.
  - split; [done|]. by destruct (gather _ _ _ _).
Qed.

Lemma elem_of_range_from a b update :
  update ∈ range_from a b -> (a <= update < b)%Z.
Proof.
  unfold range_from. rewrite list_elem_of_fmap.
  intros (i & -> & Hi). apply elem_of_range in Hi. lia.
Qed.

(** The workers of one iteration deliver the same trajectories in any
    order of arrival. *)
Lemma gather_trajectories_Permutation params arrival1 arrival2 all1 :
  arrival1 ≡ₚ arrival2 ->
  gather params env0 gen0 arrival1 = Some all1 ->
  exists all2, gather params env0 gen0 arrival2 = Some all2 /\ all1 ≡ₚ all2.
Proof.
  intros Hp Hall. unfold gather_trajectories in *.
  destruct (mapM_Permutation _ arrival2 arrival1 all1 (symmetry Hp) Hall)
    as (all2 & Hall2 & Hperm).
  exists all2. split; [done|]. by symmetry.
Qed.

End DeterminismFacts.

Lemma det_step_model_foldl (m : Z) (mbs : list (@minibatch Z Z)) :
  foldl det_step_model m mbs
  = foldl (fun m acts => 2 * m + foldr Z.add 0 acts)%Z m (mb_actions <$> mbs).
Proof. revert m. induction mbs as [|mb mbs IH]; intros m; [done|]. apply IH. Qed.

Lemma det_training_eq a :
  training_loop toy_reset_seed toy_reset rtoy_step det_sample det_value
    (fun m : Z => m) reversing det_step_model 0%Z 0%Z a 0.9%R 0.9%R
    det_args det_state
  = main_iteration toy_reset_seed toy_reset rtoy_step det_sample det_value
      (fun m : Z => m) reversing det_step_model 0%Z 0%Z a 0.9%R 0.9%R
      det_args det_state 1%Z.
Proof.
  unfold training_loop.
  change (num_updates det_args) with (Ok 1%Z : result Z).
  change (range_from 1 (1 + 1)) with [1%Z]. simpl.
  by destruct (main_iteration _ _ _ _ _ _ _ _ _ _ _ _ _ _ _ _).
Qed.

Lemma det_actions_eq a :
  training_actions toy_reset_seed toy_reset rtoy_step det_sample det_value
    (fun m : Z => m) reversing det_step_model 0%Z 0%Z a 0.9%R 0.9%R
    det_args det_state
  = (_ ← main_iteration toy_reset_seed toy_reset rtoy_step det_sample
           det_value (fun m : Z => m) reversing det_step_model 0%Z 0%Z a
           0.9%R 0.9%R det_args det_state 1%Z;
     all ← gather_trajectories toy_reset_seed toy_reset rtoy_step det_sample
             det_value 0%Z 0%Z 0%Z (a 1%Z);
     Some [actions <$> (all : list trajectory_data)]).
Proof.
  unfold training_actions.
  change (num_updates det_args) with (Ok 1%Z : result Z).
  change (range_from 1 (1 + 1)) with [1%Z]. simpl.
  destruct (gather_trajectories _ _ _ _ _ _ _ _ _); simpl;
    by destruct (main_iteration _ _ _ _ _ _ _ _ _ _ _ _ _ _ _ _).
Qed.

Lemma det_iteration_runs a :
  (forall u, a u ≡ₚ spawn_args det_args u) ->
  exists st',
    main_iteration toy_reset_seed toy_reset rtoy_step det_sample det_value
      (fun m : Z => m) reversing det_step_model 0%Z 0%Z a 0.9%R 0.9%R
      det_args det_state 1%Z = Some st'.
Proof.
  intros Ha.
  destruct (main_iteration_runs toy_reset_seed toy_reset rtoy_step det_sample
              det_value (fun m : Z => m) reversing det_step_model 0%Z 0%Z
              a 0.9%R 0.9%R det_args)
    with (st := det_state) (update := 1%Z) as (st' & Hrun & _).
  - reflexivity.
  - reflexivity.
  - unfold batch_size. simpl. lia.
  - reflexivity.
  - intros g n. apply reverse_Permutation.
  - exact Ha.
  - simpl. split; [lia | reflexivity].
  - by exists st'.
Qed.



(** * The entropy term and the number of optimizer steps *)

Section EntropyFacts.
Open Scope R_scope.

Lemma sum_bounds (x : list R) lo hi :
  Forall (fun a => lo <= a <= hi) x ->
  INR (length x) * lo <= Torch.sum x <= INR (length x) * hi.
Proof.
  induction 1 as [|a x Ha _ IH].
  - simpl. lra.
  - cbn [Torch.sum foldr length]. fold (Torch.sum x). rewrite S_INR. lra.
Qed.

Lemma mean_bounds (x : list R) lo hi :
  x <> [] -> Forall (fun a => lo <= a <= hi) x ->
  exists m, Torch.mean x = Some m /\ lo <= m <= hi.
Proof.
  intros Hne Hx. rewrite mean_Some by (destruct x; [done | simpl; lia]).
  eexists. split; [done|].
  pose proof (sum_bounds x lo hi Hx) as [Hlo Hhi].
  assert (HN : 0 < INR (length x)).
  { apply lt_0_INR. destruct x; [done | simpl; lia]. }
  split.
  - apply Rmult_le_reg_r with (INR (length x)); [done|].
    unfold Rdiv. rewrite Rmult_assoc, Rinv_l by lra. lra.
  - apply Rmult_le_reg_r with (INR (length x)); [done|].
    unfold Rdiv. rewrite Rmult_assoc, Rinv_l by lra. lra.
Qed.

(** X20.  The entropy term of the loss is bounded: for log-stds within
    [[LOG_STD_MIN, LOG_STD_MAX]], as [forward] yields them, the mean
    entropy of a minibatch with at least one entry is a number between
    [0.5 + 0.5 ln(2 pi) - 5] and [0.5 + 0.5 ln(2 pi) + 2]. *)
Theorem entropy_bounded (log_std : list (list R)) :
  concat log_std <> [] ->
  Forall (Forall (fun l => LOG_STD_MIN <= l <= LOG_STD_MAX)) log_std ->
  exists entropy,
    Torch.mean (normal_entropy <$> (exp <$> concat log_std)) = Some entropy
    /\ 0.5 + 0.5 * ln (2 * PI) - 5 <= entropy <= 0.5 + 0.5 * ln (2 * PI) + 2.
Proof.
  intros Hne Hall. apply mean_bounds.
  - destruct (concat log_std); done.
  - rewrite <- list_fmap_compose. apply Forall_fmap, Forall_forall.
    intros l Hl. simpl. unfold normal_entropy. rewrite ln_exp.
    apply list_elem_of_In, in_concat in Hl as (row & Hrow & Hl).
    apply list_elem_of_In in Hrow, Hl.
    rewrite Forall_forall in Hall. specialize (Hall row Hrow).
    rewrite Forall_forall in Hall. specialize (Hall l Hl).
    unfold LOG_STD_MIN, LOG_STD_MAX in Hall. lra.
Qed.
End EntropyFacts.

Lemma entropy_bounded_witness :
  exists entropy,
    Torch.mean (normal_entropy <$> (exp <$> concat [[0%R; 1%R]; [(-2)%R; 2%R]]))
    = Some entropy
    /\ (0.5 + 0.5 * ln (2 * PI) - 5 <= entropy
        <= 0.5 + 0.5 * ln (2 * PI) + 2)%R.
Proof.
  apply (entropy_bounded [[0%R; 1%R]; [(-2)%R; 2%R]]).
  - discriminate.
  - unfold LOG_STD_MIN, LOG_STD_MAX. repeat constructor; lra.
Defined.

Section StepCount.
Context {Model Obs Act Rng : Type}.
Variable rng_permutation : Rng -> nat -> list nat * Rng.
Variable minibatch_step : Model -> @minibatch Obs Act -> Model.

Lemma epoch_minibatches_length batch_size minibatch_size indices mbs :
  (0 < minibatch_size)%Z ->
  epoch_minibatches batch_size minibatch_size indices = Some mbs ->
  length mbs
  = (batch_size + Z.to_nat minibatch_size - 1) `div` Z.to_nat minibatch_size.
Proof.
  intros Hs. unfold epoch_minibatches. rewrite range_step_pos by done.
  simpl. intros [= <-]. by rewrite !length_fmap, length_seq.
Qed.

Lemma epochs_minibatches_length epochs batch_size minibatch_size rng sched
    rng' :
  (0 < minibatch_size)%Z ->
  epochs_minibatches rng_permutation epochs batch_size minibatch_size rng
  = Some (sched, rng') ->
  length (concat sched)
  = epochs * ((batch_size + Z.to_nat minibatch_size - 1)
              `div` Z.to_nat minibatch_size).
Proof.
  intros Hs. revert rng sched rng'.
  induction epochs as [|epochs IH]; intros rng sched rng'.
  { simpl. by intros [= <- <-]. }
  simpl. destruct (rng_permutation rng batch_size) as [indices rng1].
  destruct (epoch_minibatches batch_size minibatch_size indices)
    as [mbs|] eqn:Hmbs; [|done].
  simpl.
  destruct (epochs_minibatches rng_permutation epochs batch_size
              minibatch_size rng1) as [[rest rng2]|] eqn:Hrest; [|done].
  simpl. intros [= <- <-]. simpl. rewrite length_app.
  rewrite (IH _ _ _ Hrest).
  by rewrite (epoch_minibatches_length _ _ _ _ Hs Hmbs).
Qed.

(** X21.  The number of optimizer steps.  When [ppo_update] returns, for a
    positive minibatch size, it has stepped through
    [num_epochs * ceil(batch_size / minibatch_size)] minibatches, and the
    model it leaves is the given model after these steps, in order. *)
Theorem ppo_update_steps model (b : @batch R Obs Act)
    (num_epochs minibatch_size : Z) rng mbs model' rng' :
  (0 < minibatch_size)%Z ->
  ppo_update rng_permutation minibatch_step model b num_epochs
             minibatch_size rng
  = Some (mbs, model', rng') ->
  length mbs
  = Z.to_nat num_epochs
    * ((length (batch_obs b) + Z.to_nat minibatch_size - 1)
       `div` Z.to_nat minibatch_size)
  /\ model' = foldl minibatch_step model mbs
  /\ rng' = rng_after rng_permutation (Z.to_nat num_epochs)
                      (length (batch_obs b)) rng.
Proof.
  intros Hs. unfold ppo_update.
  destruct (normalize_advantages (batch_advantages b)) as [norm|]; [|done].
  simpl. unfold ppo_schedule.
  destruct (epochs_minibatches rng_permutation (Z.to_nat num_epochs)
              (length (batch_obs b)) minibatch_size rng)
    as [[sched rng1]|] eqn:Hsched; [|done].
  simpl.
  destruct (mapM (take_minibatch b norm) (concat sched)) as [mbs1|] eqn:Hmap;
    [|done].
  simpl. intros [= <- <- <-].
  apply mapM_Some, Forall2_length in Hmap.
  split; [|split; [done|]].
  - rewrite <- Hmap. by eapply epochs_minibatches_length.
  - clear Hmap. revert rng sched rng1 Hsched.
    induction (Z.to_nat num_epochs) as [|e IH]; intros rng sched rng1.
    { simpl. by intros [= <- <-]. }
    simpl. destruct (rng_permutation rng (length (batch_obs b)))
      as [indices rng2].
    destruct (epoch_minibatches _ _ indices) as [m|]; [|done]. simpl.
    destruct (epochs_minibatches rng_permutation e _ _ rng2)
      as [[rest rng3]|] eqn:Hrest; [|done].
    simpl. intros [= <- <-]. by eapply IH.
Qed.
End StepCount.

Lemma ppo_update_steps_witness :
  exists mbs model' rng',
    ppo_update reversing toy_step_model () toy_batch 2 2 ()
    = Some (mbs, model', rng')
    /\ length mbs = 4.
Proof.
  destruct (ppo_update_spec reversing toy_step_model
              (fun g n => reverse_Permutation (seq 0 n))
              () toy_batch 2 2 ())
    as (norm & mbs & _ & Hrun & _);
    [lia | simpl; lia | reflexivity..|].
  eexists mbs, _, _. split; [exact Hrun|].
  apply (ppo_update_steps reversing toy_step_model () toy_batch 2 2 () mbs
           _ _ ltac:(lia) Hrun).
Defined.
